(** * terara: the binary object codec and the document wrapper

    A shallow embedding of [pkg/types] (scalar and composite codec) and of
    the [Document] wrapper of [pkg/storage], followed by the properties of
    the codec that the specification states.  The lexer of [pkg/lexer], the
    loop of [main] over it and the lock registry of [pkg/storage] are
    embedded as well; the last part of the file holds further properties of
    the codec, of the wrapper, of the lexer and of the registry.

    Conventions of the embedding.
    - A Go [byte] is a [Byte.byte]; a [[]byte] and a Go [string] are
      [list byte].
    - [Int64] and [Int32] are integers in [Z]; the conversions to and from
      the unsigned types wrap around explicitly.  A [Float] is carried as
      its IEEE-754 bit pattern, the only thing the codec looks at
      ([math.Float64bits] and [math.Float64frombits] are inverse bijections
      between [float64] and [uint64]).
    - A Go function returning [(x, err)] returns an [outcome]: [Done x],
      [Fail err], or [Crash] when the Go code would panic at run time (index
      or slice out of range, failed type assertion, nil interface).
    - Methods with a pointer receiver that mutate it return the new state
      next to their outcome.
    - An interface value that may be nil is an [option]; the field map of a
      wrapper binds keys to values and a lookup that misses is the nil
      interface.
    - Lengths and cursors are [nat]: they never exceed the length of the
      buffer at hand.
    - Loops whose termination is not structural take a [fuel] argument and
      answer [None] when it runs out; the entry points supply enough. *)

From Stdlib Require Import ZArith List Lia.
From Stdlib Require Import Init.Byte Strings.Byte.
From stdpp Require Import base option list gmap.

Local Open Scope nat_scope.

(** ** Go runtime: errors, outcomes, indexing and slicing *)

(** The package-level error values of [types] and [storage]. *)
Inductive error : Type :=
| ErrInvalidLength
| ErrInvalidType
| ErrInvalidDocument
| ErrStaticDocument.

Inductive outcome (A : Type) : Type :=
| Done (a : A)
| Fail (e : error)
| Crash.

Arguments Done {A} a.
Arguments Fail {A} e.
Arguments Crash {A}.

#[global] Instance outcome_ret : MRet outcome := fun A a => Done a.

#[global] Instance outcome_bind : MBind outcome := fun A B f m =>
  match m with
  | Done a => f a
  | Fail e => Fail e
  | Crash => Crash
  end.

#[global] Instance byte_eq_dec : EqDecision byte := Byte.byte_eq_dec.

#[global] Instance byte_countable : Countable byte :=
  inj_countable Byte.to_N Byte.of_N Byte.of_to_N.

#[global] Instance error_eq_dec : EqDecision error.
Proof. solve_decision. Defined.

(** [b[i]]: panics when [i] is out of range. *)
Definition index (b : list byte) (i : nat) : outcome byte :=
  match b !! i with
  | Some x => Done x
  | None => Crash
  end.

(** [b[lo:hi]]: panics unless [lo <= hi <= len(b)]. *)
Definition slice (b : list byte) (lo hi : nat) : outcome (list byte) :=
  if (lo <=? hi) && (hi <=? length b) then Done (take (hi - lo) (drop lo b))
  else Crash.

(** [b[lo:]]. *)
Definition slice_from (b : list byte) (lo : nat) : outcome (list byte) :=
  slice b lo (length b).

(** [byte(z)]: the low eight bits. *)
Definition byte_of_Z (z : Z) : byte :=
  match Byte.of_N (Z.to_N (z mod 256)) with
  | Some x => x
  | None => x00
  end.

Definition Z_of_byte (x : byte) : Z := Z.of_N (Byte.to_N x).

(** [encoding/binary]: [BigEndian.PutUintN] writes the [n] bytes of [v],
    most significant first; [BigEndian.UintN] reads them back. *)
Fixpoint be_bytes (n : nat) (v : Z) : list byte :=
  match n with
  | O => []
  | S k => byte_of_Z (Z.shiftr v (8 * Z.of_nat k)) :: be_bytes k v
  end.

Definition be_value (p : list byte) : Z :=
  fold_left (fun acc x => Z.lor (Z.shiftl acc 8) (Z_of_byte x)) p 0%Z.

Definition PutUint64 (v : Z) : list byte := be_bytes 8 v.
Definition PutUint32 (v : Z) : list byte := be_bytes 4 v.
Definition Uint64 (p : list byte) : Z := be_value p.
Definition Uint32 (p : list byte) : Z := be_value p.

(** Integer conversions [uint64(i)], [int64(u)], [uint32(i)], [int32(u)]. *)
Definition to_uint64 (i : Z) : Z := (i mod 2 ^ 64)%Z.
Definition to_int64 (u : Z) : Z :=
  (if u mod 2 ^ 64 <? 2 ^ 63 then u mod 2 ^ 64 else u mod 2 ^ 64 - 2 ^ 64)%Z.
Definition to_uint32 (i : Z) : Z := (i mod 2 ^ 32)%Z.
Definition to_int32 (u : Z) : Z :=
  (if u mod 2 ^ 32 <? 2 ^ 31 then u mod 2 ^ 32 else u mod 2 ^ 32 - 2 ^ 32)%Z.

(** ** Package [types] *)

Module types.

(** The type tags: a [const] block counted by [iota] from [NullType = 0]. *)
Definition NullType : byte := x00.
Definition BoolType : byte := x01.
Definition Int64Type : byte := x02.
Definition Int32Type : byte := x03.
Definition FloatType : byte := x04.
Definition StringType : byte := x05.
Definition CharType : byte := x06.
Definition BigIntType : byte := x07.
Definition BigFloatType : byte := x08.
Definition ArrayType : byte := x09.
Definition DocumentType : byte := x0a.
Definition CollectionType : byte := x0b.
Definition DateType : byte := x0c.
Definition TimeStampType : byte := x0d.
Definition EmailType : byte := x0e.
Definition PhoneType : byte := x0f.
Definition MoneyType : byte := x10.
Definition UUIDType : byte := x11.
Definition BinaryType : byte := x12.
Definition BlobType : byte := x13.
Definition LongitudeType : byte := x14.
Definition LatitudeType : byte := x15.
Definition CurrencyCodeType : byte := x16.
Definition CountryCodeType : byte := x17.
Definition EOFType : byte := x18.
Definition NameType : byte := x19.
Definition LastType : byte := x1a.

Definition NullTerm : byte := x00.

Definition IsInternal (t : byte) : bool :=
  bool_decide (t = EOFType) || bool_decide (t = NameType)
  || bool_decide (t = LastType).

(** [type Name string]. *)
Definition Name : Type := list byte.

(** The values behind the [Object] interface.  [OOther t] stands for an
    implementation from outside the package ([*storage.Document],
    [*storage.Collection]), of which the codec only sees [Type()]. *)
#[warnings="-register-all"] Inductive Object : Type :=
| OInt64 (i : Z)
| OInt32 (i : Z)
| OFloat (bits : Z)
| OString (s : list byte)
| OBool (b : bool)
| ONull
| OChar (c : byte)
| OEOF
| OName (n : Name)
| OArray (a : list Object)
| OOther (t : byte).

Definition Type_ (o : Object) : byte :=
  match o with
  | OInt64 _ => Int64Type
  | OInt32 _ => Int32Type
  | OFloat _ => FloatType
  | OString _ => StringType
  | OBool _ => BoolType
  | ONull => NullType
  | OChar _ => CharType
  | OEOF => EOFType
  | OName _ => NameType
  | OArray _ => ArrayType
  | OOther t => t
  end.

(** *** Scalars *)

Definition Int64_MarshalObject (i : Z) : outcome (list byte) :=
  Done (Int64Type :: PutUint64 (to_uint64 i)).

Definition Int64_UnmarshalObject (b : list byte) : outcome (Z * nat) :=
  if length b <? 9 then Fail ErrInvalidLength
  else
    t ← index b 0;
    if bool_decide (t ≠ Int64Type) then Fail ErrInvalidType
    else p ← slice b 1 9; Done (to_int64 (Uint64 p), 9).

Definition Int32_MarshalObject (i : Z) : outcome (list byte) :=
  Done (Int32Type :: PutUint32 (to_uint32 i)).

Definition Int32_UnmarshalObject (b : list byte) : outcome (Z * nat) :=
  if length b <? 5 then Fail ErrInvalidLength
  else
    t ← index b 0;
    if bool_decide (t ≠ Int32Type) then Fail ErrInvalidType
    else p ← slice b 1 5; Done (to_int32 (Uint32 p), 5).

Definition Float_MarshalObject (bits : Z) : outcome (list byte) :=
  Done (FloatType :: PutUint64 bits).

Definition Float_UnmarshalObject (b : list byte) : outcome (Z * nat) :=
  if length b <? 9 then Fail ErrInvalidLength
  else
    t ← index b 0;
    if bool_decide (t ≠ FloatType) then Fail ErrInvalidType
    else p ← slice b 1 9; Done (Uint64 p, 9).

(** The index of the first [NullTerm] in [l], where [l] is [b[i:]]:
    the loop [for i := 1; i < len(b); i++] of the two C-string decoders. *)
Fixpoint find_NullTerm (l : list byte) (i : nat) : option nat :=
  match l with
  | [] => None
  | x :: l' => if bool_decide (x = NullTerm) then Some i
               else find_NullTerm l' (S i)
  end.

Definition String_MarshalObject (s : list byte) : outcome (list byte) :=
  Done (StringType :: s ++ [NullTerm]).

Definition String_UnmarshalObject (b : list byte) : outcome (list byte * nat) :=
  if length b <? 2 then Fail ErrInvalidLength
  else
    t ← index b 0;
    if bool_decide (t ≠ StringType) then Fail ErrInvalidType
    else
      match find_NullTerm (drop 1 b) 1 with
      | Some i => s ← slice b 1 i; Done (s, i + 1)
      | None => Fail ErrInvalidLength
      end.

Definition boolToByte (b : bool) : byte := if b then x01 else x00.

Definition byteToBool (b : byte) : bool :=
  if bool_decide (b = x01) then true else false.

Definition Bool_MarshalObject (b : bool) : outcome (list byte) :=
  Done [BoolType; boolToByte b].

Definition Bool_UnmarshalObject (by_ : list byte) : outcome (bool * nat) :=
  if length by_ <? 1 then Fail ErrInvalidLength
  else
    t ← index by_ 0;
    if bool_decide (t ≠ BoolType) then Fail ErrInvalidType
    else v ← index by_ 1; Done (byteToBool v, 2).

Definition Null_MarshalObject : outcome (list byte) := Done [NullType].

Definition Null_UnmarshalObject (b : list byte) : outcome nat :=
  if length b <? 1 then Fail ErrInvalidLength
  else
    t ← index b 0;
    if bool_decide (t ≠ NullType) then Fail ErrInvalidType
    else Done 1.

Definition Char_MarshalObject (c : byte) : outcome (list byte) :=
  Done [CharType; c].

Definition Char_UnmarshalObject (b : list byte) : outcome (byte * nat) :=
  if length b <? 2 then Fail ErrInvalidLength
  else
    t ← index b 0;
    if bool_decide (t ≠ CharType) then Fail ErrInvalidType
    else c ← index b 1; Done (c, 2).

Definition EOF_MarshalObject : outcome (list byte) := Done [EOFType].

Definition EOF_UnmarshalObject (b : list byte) : outcome nat :=
  if length b <? 1 then Fail ErrInvalidLength
  else
    t ← index b 0;
    if bool_decide (t ≠ EOFType) then Fail ErrInvalidType
    else Done 1.

Definition Name_MarshalObject (n : Name) : outcome (list byte) :=
  Done (([NameType] ++ n) ++ [NullTerm]).

Definition Name_UnmarshalObject (b : list byte) : outcome (Name * nat) :=
  if length b <? 2 then Fail ErrInvalidLength
  else
    t ← index b 0;
    if bool_decide (t ≠ NameType) then Fail ErrInvalidType
    else
      match find_NullTerm (drop 1 b) 1 with
      | Some i => s ← slice b 1 i; Done (s, i + 1)
      | None => Fail ErrInvalidLength
      end.

(** The helpers [UnmarshalInt64], ...: decode into a zero value and return
    it as an [Object]. *)
Definition UnmarshalInt64 (b : list byte) : outcome (Object * nat) :=
  '(i, n) ← Int64_UnmarshalObject b; Done (OInt64 i, n).
Definition UnmarshalInt32 (b : list byte) : outcome (Object * nat) :=
  '(i, n) ← Int32_UnmarshalObject b; Done (OInt32 i, n).
Definition UnmarshalFloat (b : list byte) : outcome (Object * nat) :=
  '(f, n) ← Float_UnmarshalObject b; Done (OFloat f, n).
Definition UnmarshalString (b : list byte) : outcome (Object * nat) :=
  '(s, n) ← String_UnmarshalObject b; Done (OString s, n).
Definition UnmarshalBool (b : list byte) : outcome (Object * nat) :=
  '(bo, n) ← Bool_UnmarshalObject b; Done (OBool bo, n).
Definition UnmarshalNull (b : list byte) : outcome (Object * nat) :=
  n ← Null_UnmarshalObject b; Done (ONull, n).
Definition UnmarshalChar (b : list byte) : outcome (Object * nat) :=
  '(c, n) ← Char_UnmarshalObject b; Done (OChar c, n).
Definition UnmarshalEOF (b : list byte) : outcome (Object * nat) :=
  n ← EOF_UnmarshalObject b; Done (OEOF, n).
Definition UnmarshalName (b : list byte) : outcome (Object * nat) :=
  '(name, n) ← Name_UnmarshalObject b; Done (OName name, n).

(** *** Generic encoder and [Array] *)

(** The tags that [MarshalObject] has a [case] for. *)
Definition marshal_case (t : byte) : bool :=
  bool_decide (t ∈ [Int64Type; Int32Type; FloatType; StringType; BoolType;
                    NullType; CharType; EOFType; NameType; ArrayType]).

(** The body of [Array.MarshalObject], over the encoder of the elements:
    [for _, value := range a { ... b = append(b, marshaledValue...) }]
    and then [return b, nil]. *)
Definition Array_MarshalObject_range
    (marshal : Object → outcome (list byte)) :
    list Object → list byte → outcome (list byte) :=
  fix range (a : list Object) (b : list byte) : outcome (list byte) :=
    match a with
    | [] => Done b
    | value :: a' =>
        marshaledValue ← marshal value;
        range a' (b ++ marshaledValue)
    end.

(** [MarshalObject]: the [switch o.Type()] followed by the type assertion.
    A value of the package takes the case of its own type; for a foreign
    implementation the assertion of a handled tag panics and any other tag
    falls through to [ErrInvalidType]. *)
Fixpoint MarshalObject (o : Object) : outcome (list byte) :=
  match o with
  | OInt64 i => Int64_MarshalObject i
  | OInt32 i => Int32_MarshalObject i
  | OFloat f => Float_MarshalObject f
  | OString s => String_MarshalObject s
  | OBool b => Bool_MarshalObject b
  | ONull => Null_MarshalObject
  | OChar c => Char_MarshalObject c
  | OEOF => EOF_MarshalObject
  | OName n => Name_MarshalObject n
  | OArray a => Array_MarshalObject_range MarshalObject a [ArrayType]
  | OOther t => if marshal_case t then Crash else Fail ErrInvalidType
  end.

Definition Array_MarshalObject (a : list Object) : outcome (list byte) :=
  Array_MarshalObject_range MarshalObject a [ArrayType].

(** *** Generic decoder and [Array] *)

(** The [for] loop of [Array.UnmarshalObject], over the decoder of the
    elements; the state is the receiver [*a]. *)
Fixpoint Array_UnmarshalObject_loop
    (unmarshal : list byte → option (outcome (Object * nat)))
    (fuel : nat) (b : list byte) (count : nat) (a : list Object)
    : option (list Object * outcome nat) :=
  match fuel with
  | O => None
  | S fuel' =>
      if length b <? 1 then Some (a, Fail ErrInvalidLength)
      else
        match index b count with
        | Done x =>
            if bool_decide (x = EOFType) then Some (a, Done count)
            else
              match slice_from b count with
              | Done rest =>
                  match unmarshal rest with
                  | None => None
                  | Some (Done (value, n)) =>
                      Array_UnmarshalObject_loop unmarshal fuel' b
                        (count + n) (a ++ [value])
                  | Some (Fail err) => Some (a, Fail err)
                  | Some Crash => Some (a, Crash)
                  end
              | _ => Some (a, Crash)
              end
        | _ => Some (a, Crash)
        end
  end.

Definition Array_UnmarshalObject_with
    (unmarshal : list byte → option (outcome (Object * nat)))
    (a : list Object) (b : list byte) : option (list Object * outcome nat) :=
  if length b <? 1 then Some (a, Fail ErrInvalidLength)
  else
    match index b 0 with
    | Done t =>
        if bool_decide (t ≠ ArrayType) then Some (a, Fail ErrInvalidType)
        else Array_UnmarshalObject_loop unmarshal (length b) b 1 a
    | _ => Some (a, Crash)
    end.

(** [UnmarshalArray]: decode into a nil [Array] and return it with the
    count and the error. *)
Definition UnmarshalArray_with
    (unmarshal : list byte → option (outcome (Object * nat)))
    (b : list byte) : option (outcome (Object * nat)) :=
  match Array_UnmarshalObject_with unmarshal [] b with
  | None => None
  | Some (a, Done count) => Some (Done (OArray a, count))
  | Some (_, Fail err) => Some (Fail err)
  | Some (_, Crash) => Some Crash
  end.

(** [UnmarshalObject]: one unit of fuel per level of array nesting. *)
Fixpoint UnmarshalObject_fuel (fuel : nat) (b : list byte)
    : option (outcome (Object * nat)) :=
  match fuel with
  | O => None
  | S fuel' =>
      if length b <? 1 then Some (Fail ErrInvalidLength)
      else
        match index b 0 with
        | Done t =>
            if bool_decide (t = Int64Type) then Some (UnmarshalInt64 b)
            else if bool_decide (t = Int32Type) then Some (UnmarshalInt32 b)
            else if bool_decide (t = FloatType) then Some (UnmarshalFloat b)
            else if bool_decide (t = StringType) then Some (UnmarshalString b)
            else if bool_decide (t = BoolType) then Some (UnmarshalBool b)
            else if bool_decide (t = NullType) then Some (UnmarshalNull b)
            else if bool_decide (t = CharType) then Some (UnmarshalChar b)
            else if bool_decide (t = EOFType) then Some (UnmarshalEOF b)
            else if bool_decide (t = NameType) then Some (UnmarshalName b)
            else if bool_decide (t = ArrayType) then
              UnmarshalArray_with (UnmarshalObject_fuel fuel') b
            else Some (Fail ErrInvalidType)
        | _ => Some Crash
        end
  end.

(** Arrays nest at most [length b] deep, so this fuel is never used up
    (lemma [UnmarshalObject_fuel_enough] below). *)
Definition UnmarshalObject (b : list byte) : outcome (Object * nat) :=
  match UnmarshalObject_fuel (S (length b)) b with
  | Some r => r
  | None => Crash
  end.

(** The method [Array.UnmarshalObject] (pointer receiver) and the helper [UnmarshalArray]
    as entry points of their own. *)
Definition Array_UnmarshalObject (a : list Object) (b : list byte)
    : list Object * outcome nat :=
  match Array_UnmarshalObject_with (fun rest => Some (UnmarshalObject rest)) a b with
  | Some r => r
  | None => (a, Crash)
  end.

Definition UnmarshalArray (b : list byte) : outcome (Object * nat) :=
  match Array_UnmarshalObject [] b with
  | (a, Done count) => Done (OArray a, count)
  | (_, Fail err) => Fail err
  | (_, Crash) => Crash
  end.

(** *** The [Document] interface and its encoder *)

(** [ID] and [Get] return an [Object] that may be the nil interface
    ([None]); [Keys] returns the keys in the order of a map iteration,
    which Go leaves unspecified. *)
Class Document (D : Type) : Type := {
  doc_Type : D → byte;
  doc_ID : D → option Object;
  doc_Del : D → Name → D * outcome ();
  doc_Get : D → Name → outcome (option Object);
  doc_Set : D → Name → Object → D * outcome ();
  doc_Keys : D → list Name;
}.

(** [MarshalObject] of an interface value: calling [Type()] on nil panics. *)
Definition MarshalObject_iface (o : option Object) : outcome (list byte) :=
  match o with
  | Some v => MarshalObject v
  | None => Crash
  end.

(** [GenericDocumentUnmarshaler] from [keys := doc.Keys()] on, with the
    order of [keys] left to the caller. *)
Fixpoint GenericDocumentUnmarshaler_range `{Document D}
    (doc : D) (keys : list Name) (b : list byte) : outcome (list byte) :=
  match keys with
  | [] => Done b
  | key :: keys' =>
      marshaledName ← MarshalObject (OName key);
      value ← doc_Get doc key;
      marshaledValue ← MarshalObject_iface value;
      GenericDocumentUnmarshaler_range doc keys'
        ((b ++ marshaledName) ++ marshaledValue)
  end.

Definition GenericDocumentUnmarshaler_keys `{Document D}
    (doc : D) (keys : list Name) : outcome (list byte) :=
  let b := [doc_Type doc] in
  match doc_ID doc with
  | None => Fail ErrInvalidDocument
  | Some _ =>
      b ← GenericDocumentUnmarshaler_range doc keys b;
      marshaledEOF ← MarshalObject OEOF;
      Done (b ++ marshaledEOF)
  end.

Definition GenericDocumentUnmarshaler `{Document D} (doc : D)
    : outcome (list byte) :=
  GenericDocumentUnmarshaler_keys doc (doc_Keys doc).

End types.

(** ** Package [storage]: the document wrapper *)

Module storage.

(** A pointer to an object outside the codec: nil or an address. *)
Definition pointer : Type := option nat.

Record Document : Type := mkDocument {
  kv : gmap types.Name types.Object;
  db : pointer;
  coll : pointer;
  tnx : pointer;
  key : option (list byte);
  modified : bool;
  static : bool;
}.

Definition with_kv (d : Document) (m : gmap types.Name types.Object) : Document :=
  mkDocument m (db d) (coll d) (tnx d) (key d) (modified d) (static d).

Definition with_modified (d : Document) (f : bool) : Document :=
  mkDocument (kv d) (db d) (coll d) (tnx d) (key d) f (static d).

Definition NewDocument (db coll tnx : pointer) : Document :=
  mkDocument ∅ db coll tnx None false false.

Definition NewStaticDocument (db : pointer) : Document :=
  mkDocument ∅ db None None None false true.

(** The key ["id"]. *)
Definition id_key : types.Name := [x69; x64].

Definition Document_ID (d : Document) : option types.Object :=
  kv d !! id_key.

Definition Document_Del (d : Document) (key : types.Name)
    : Document * outcome () :=
  if static d then (d, Fail ErrStaticDocument)
  else (with_modified (with_kv d (delete key (kv d))) true, Done ()).

Definition Document_Get (d : Document) (key : types.Name)
    : outcome (option types.Object) :=
  Done (kv d !! key).

Definition Document_Set (d : Document) (key : types.Name)
    (value : types.Object) : Document * outcome () :=
  if static d then (d, Fail ErrStaticDocument)
  else (with_modified (with_kv d (<[key := value]> (kv d))) true, Done ()).

(** [Keys]: one of the orders a [range] over the map may take. *)
Definition Document_Keys (d : Document) : list types.Name :=
  (map_to_list (kv d)).*1.

(** The slices [Keys] may return: the bound keys in any order. *)
Definition Keys_order (d : Document) (keys : list types.Name) : Prop :=
  keys ≡ₚ Document_Keys d.

Definition Document_Type (d : Document) : byte := types.DocumentType.

#[global] Instance Document_is_Document : types.Document Document := {|
  types.doc_Type := Document_Type;
  types.doc_ID := Document_ID;
  types.doc_Del := Document_Del;
  types.doc_Get := Document_Get;
  types.doc_Set := Document_Set;
  types.doc_Keys := Document_Keys;
|}.

Definition Document_MarshalObject (d : Document) : outcome (list byte) :=
  types.GenericDocumentUnmarshaler d.

(** The [for] loop of [Document.UnmarshalObject]; the state is [d.kv]. *)
Fixpoint Document_UnmarshalObject_loop (fuel : nat) (b : list byte)
    (count : nat) (m : gmap types.Name types.Object)
    : option (gmap types.Name types.Object * outcome nat) :=
  match fuel with
  | O => None
  | S fuel' =>
      if length b <? 1 then Some (m, Fail ErrInvalidLength)
      else
        match index b count with
        | Done x =>
            if bool_decide (x = types.EOFType) then Some (m, Done count)
            else
              match rest ← slice_from b count; types.Name_UnmarshalObject rest with
              | Done (name, nameCount) =>
                  let count := count + nameCount in
                  match rest ← slice_from b count; types.UnmarshalObject rest with
                  | Done (value, countValue) =>
                      if types.IsInternal (types.Type_ value)
                      then Some (m, Fail ErrInvalidDocument)
                      else
                        Document_UnmarshalObject_loop fuel' b
                          (count + countValue) (<[name := value]> m)
                  | Fail err => Some (m, Fail err)
                  | Crash => Some (m, Crash)
                  end
              | Fail err => Some (m, Fail err)
              | Crash => Some (m, Crash)
              end
        | _ => Some (m, Crash)
        end
  end.

(** Every round of the loop consumes at least one byte, so [length b]
    rounds are enough (lemma [Document_UnmarshalObject_loop_fuel]). *)
Definition Document_UnmarshalObject (d : Document) (b : list byte)
    : Document * outcome nat :=
  if length b <? 1 then (d, Fail ErrInvalidLength)
  else
    match index b 0 with
    | Done t =>
        if bool_decide (t ≠ Document_Type d) then (d, Fail ErrInvalidType)
        else
          match Document_UnmarshalObject_loop (length b) b 1 (kv d) with
          | Some (m, Done count) =>
              match m !! id_key with
              | None => (with_kv d m, Fail ErrInvalidDocument)
              | Some _ => (with_kv d m, Done count)
              end
          | Some (m, Fail err) => (with_kv d m, Fail err)
          | Some (m, Crash) => (with_kv d m, Crash)
          | None => (d, Crash)
          end
    | _ => (d, Crash)
    end.

(** The closure [inKey] of [Project]. *)
Definition inKey (keys : list (list byte)) (name : types.Name) : bool :=
  existsb (fun key => bool_decide (name = key)) keys.

(** The [for] loop of [Document.Project]. *)
Fixpoint Document_Project_loop (keys : list (list byte)) (fuel : nat)
    (b : list byte) (count : nat) (m : gmap types.Name types.Object)
    : option (gmap types.Name types.Object * outcome nat) :=
  match fuel with
  | O => None
  | S fuel' =>
      if length b <? 1 then Some (m, Fail ErrInvalidLength)
      else
        match index b count with
        | Done x =>
            if bool_decide (x = types.EOFType) then Some (m, Done count)
            else
              match rest ← slice_from b count; types.Name_UnmarshalObject rest with
              | Done (name, nameCount) =>
                  let count := count + nameCount in
                  if inKey keys name then
                    match rest ← slice_from b count; types.UnmarshalObject rest with
                    | Done (value, countValue) =>
                        if types.IsInternal (types.Type_ value)
                        then Some (m, Fail ErrInvalidDocument)
                        else
                          Document_Project_loop keys fuel' b
                            (count + countValue) (<[name := value]> m)
                    | Fail err => Some (m, Fail err)
                    | Crash => Some (m, Crash)
                    end
                  else
                    match rest ← slice_from b count; types.UnmarshalObject rest with
                    | Done (_, countValue) =>
                        Document_Project_loop keys fuel' b
                          (count + countValue) m
                    | Fail err => Some (m, Fail err)
                    | Crash => Some (m, Crash)
                    end
              | Fail err => Some (m, Fail err)
              | Crash => Some (m, Crash)
              end
        | _ => Some (m, Crash)
        end
  end.

Definition Document_Project (d : Document) (b : list byte)
    (keys : list (list byte)) : Document * outcome nat :=
  if length keys <? 1 then (d, Done 0)
  else if length b <? 1 then (d, Fail ErrInvalidLength)
  else
    match index b 0 with
    | Done t =>
        if bool_decide (t ≠ Document_Type d) then (d, Fail ErrInvalidType)
        else
          match Document_Project_loop keys (length b) b 1 (kv d) with
          | Some (m, r) => (with_kv d m, r)
          | None => (d, Crash)
          end
    | _ => (d, Crash)
    end.

End storage.

(** ** Vocabulary of the specification *)

Import types storage.

(** The seven scalar types of the wire-layout table. *)
Definition is_scalar (v : Object) : bool :=
  match v with
  | OInt64 _ | OInt32 _ | OFloat _ | OString _ | OBool _ | ONull | OChar _ => true
  | _ => false
  end.

(** Content that a C-string encoding can carry: no embedded [0x00]. *)
Definition NUL_free (s : list byte) : bool :=
  forallb (fun x => negb (bool_decide (x = NullTerm))) s.

(** The values of a Go type: the range of [int64], [int32] and of the 64
    bits of a [float64]; for a string, content without [0x00].  The other
    types carry no constraint. *)
Definition representable (v : Object) : bool :=
  match v with
  | OInt64 i => ((- 2 ^ 63 <=? i) && (i <? 2 ^ 63))%Z
  | OInt32 i => ((- 2 ^ 31 <=? i) && (i <? 2 ^ 31))%Z
  | OFloat bits => ((0 <=? bits) && (bits <? 2 ^ 64))%Z
  | OString s => NUL_free s
  | _ => true
  end.

(** The bytes an encoder returns ([[]] when it fails). *)
Definition bytes_of (r : outcome (list byte)) : list byte :=
  match r with
  | Done b => b
  | _ => []
  end.

(** A field on the wire: the key as a [Name], then the value. *)
Definition field_bytes (f : Name * Object) : list byte :=
  bytes_of (MarshalObject (OName f.1)) ++ bytes_of (MarshalObject f.2).

(** A field whose encoding the decoders read back: the key has no [0x00]
    and the value is a representable scalar. *)
Definition wire_field (f : Name * Object) : bool :=
  NUL_free f.1 && is_scalar f.2 && representable f.2.

(** A well-formed document stream: the [Document] tag, the fields, the
    [EOF] byte. *)
Definition document_stream (fields : list (Name * Object)) : list byte :=
  [DocumentType] ++ concat (map field_bytes fields) ++ [EOFType].

(** [d.kv[name] = value] for each field in turn: the last write wins. *)
Definition insert_fields (fields : list (Name * Object))
    (m : gmap Name Object) : gmap Name Object :=
  fold_left (fun m f => <[f.1 := f.2]> m) fields m.

(** The fields whose key is requested. *)
Definition requested (keys : list (list byte)) (fields : list (Name * Object))
    : list (Name * Object) :=
  List.filter (fun f => inKey keys f.1) fields.

(** The fields of a wrapper in the order [keys]. *)
Definition fields_in_order (d : Document) (keys : list Name)
    : list (Name * Object) :=
  omap (fun k => (fun v => (k, v)) <$> kv d !! k) keys.

(** The name and value pairs that the loop of [Document.UnmarshalObject]
    decodes completely, up to the end of the loop or to the failure. *)
Fixpoint Document_UnmarshalObject_fields (fuel : nat) (b : list byte)
    (count : nat) : list (Name * Object) :=
  match fuel with
  | O => []
  | S fuel' =>
      match index b count with
      | Done x =>
          if bool_decide (x = EOFType) then []
          else
            match rest ← slice_from b count; Name_UnmarshalObject rest with
            | Done (name, nameCount) =>
                match rest ← slice_from b (count + nameCount);
                      UnmarshalObject rest with
                | Done (value, countValue) =>
                    if IsInternal (Type_ value) then []
                    else (name, value) ::
                         Document_UnmarshalObject_fields fuel' b
                           (count + nameCount + countValue)
                | _ => []
                end
            | _ => []
            end
      | _ => []
      end
  end.

(** The same for a whole call: nothing is decoded unless the buffer starts
    with the [Document] tag. *)
Definition decoded_fields (b : list byte) : list (Name * Object) :=
  match b with
  | t :: _ =>
      if bool_decide (t = DocumentType)
      then Document_UnmarshalObject_fields (length b) b 1
      else []
  | [] => []
  end.

(** Fields with keys free of [0x00] and representable scalar values. *)
Definition well_formed_fields (fields : list (Name * Object)) : bool :=
  forallb wire_field fields.

(** No field of the stream is named [key]. *)
Definition lacks_key (key : Name) (fields : list (Name * Object)) : bool :=
  forallb (fun f => negb (bool_decide (f.1 = key))) fields.

(** *** Streams with an array value *)

(** An element of an array as it lies on the wire in front of the first
    [EOF] byte: a representable scalar, a name without [0x00] (the decoder
    of arrays takes names, C4), or the tag of a nested array, written
    [OArray []], whose elements are the items after it. *)
Definition wire_item (v : Object) : bool :=
  match v with
  | OName n => NUL_free n
  | OArray [] => true
  | OArray _ => false
  | _ => is_scalar v && representable v
  end.

Definition items_bytes (items : list Object) : list byte :=
  concat (map (fun v => bytes_of (MarshalObject v)) items).

(** The array that the decoder makes of a run of items: a nested array
    takes all the items that follow its tag. *)
Fixpoint read_items (items : list Object) : list Object :=
  match items with
  | [] => []
  | OArray _ :: rest => [OArray (read_items rest)]
  | v :: rest => v :: read_items rest
  end.

(** A field with an array value: the key as a [Name], the [Array] tag, the
    items. *)
Definition array_field_bytes (arr : option (Name * list Object)) : list byte :=
  match arr with
  | Some (k, items) =>
      bytes_of (MarshalObject (OName k)) ++ [ArrayType] ++ items_bytes items
  | None => []
  end.

Definition well_formed_array_field (arr : option (Name * list Object)) : bool :=
  match arr with
  | Some (k, items) => NUL_free k && forallb wire_item items
  | None => true
  end.

(** A document stream up to its first [EOF] byte, and what follows it: the
    [Document] tag, fields with scalar values, at most one field with an
    array value, the [EOF] byte, any bytes. *)
Definition wire_stream (fields : list (Name * Object))
    (arr : option (Name * list Object)) (trailing : list byte) : list byte :=
  [DocumentType] ++ concat (map field_bytes fields) ++ array_field_bytes arr
  ++ [EOFType] ++ trailing.

(** The fields of such a stream, as the decoders read them. *)
Definition read_fields (fields : list (Name * Object))
    (arr : option (Name * list Object)) : list (Name * Object) :=
  fields ++ match arr with
            | Some (k, items) => [(k, OArray (read_items items))]
            | None => []
            end.

(** *** Concrete wrappers and buffers *)

(** A new writable wrapper, with nil database, collection and
    transaction. *)
Definition new_document : Document := NewDocument None None None.

(** [{id: Int64(1)}]. *)
Definition doc_id_1 : Document := (Document_Set new_document id_key (OInt64 1)).1.

(** [{id: Array{}, a: Array{}}]. *)
Definition doc_two_arrays : Document :=
  (Document_Set (Document_Set new_document id_key (OArray [])).1 [x61] (OArray [])).1.

(** [{id: Int64(1), a: Array{}}]. *)
Definition doc_id_and_array : Document :=
  (Document_Set (Document_Set new_document id_key (OInt64 1)).1
     [x61] (OArray [])).1.

(** The [Document] tag, [id: Null], the key [a], and a byte that is no tag
    of a decodable value. *)
Definition truncated_after_id : list byte :=
  [x0a; x19; x69; x64; x00; x00; x19; x61; x00; x07].

(** The [Array] tag, a [Name] ["x"], the [EOF] byte. *)
Definition array_with_name : list byte := [x09; x19; x78; x00; x18].

(** *** Vocabulary for the rest of the code *)

(** What the decoders can return: integers in the range of their type,
    strings and names without [0x00], arrays without [EOF] element, all
    the way down, and no value of a foreign type. *)
Fixpoint well_decoded (v : Object) : bool :=
  match v with
  | OInt64 i => ((- 2 ^ 63 <=? i) && (i <? 2 ^ 63))%Z
  | OInt32 i => ((- 2 ^ 31 <=? i) && (i <? 2 ^ 31))%Z
  | OFloat bits => ((0 <=? bits) && (bits <? 2 ^ 64))%Z
  | OString s => NUL_free s
  | OName n => NUL_free n
  | OArray a =>
      forallb (fun e => negb (bool_decide (Type_ e = EOFType)) && well_decoded e) a
  | OOther _ => false
  | _ => true
  end.

(** Values built from the types of package [types] only. *)
Fixpoint no_foreign (v : Object) : bool :=
  match v with
  | OArray a => forallb no_foreign a
  | OOther _ => false
  | _ => true
  end.

(** ** Package [lexer] *)

Module lexer.

(** What a function of the lexer returns: a value, an error created by
    [errors.New] (carried as its message), or a run-time panic. *)
Inductive result (A : Type) : Type :=
| Ok (a : A)
| Err (msg : list byte)
| Panic.

Arguments Ok {A} a.
Arguments Err {A} msg.
Arguments Panic {A}.

#[global] Instance result_ret : MRet result := fun A a => Ok a.

#[global] Instance result_bind : MBind result := fun A B f m =>
  match m with
  | Ok a => f a
  | Err msg => Err msg
  | Panic => Panic
  end.

(** [s[i]] on a string: panics when [i] is out of range. *)
Definition char_at (s : list byte) (i : nat) : result byte :=
  match s !! i with
  | Some c => Ok c
  | None => Panic
  end.

(** [s[lo:hi]] on a string: panics unless [lo <= hi <= len(s)]. *)
Definition substring (s : list byte) (lo hi : nat) : result (list byte) :=
  if (lo <=? hi) && (hi <=? length s) then Ok (take (hi - lo) (drop lo s))
  else Panic.

(** [string(c)] for a byte [c]: the conversion of an integer to a string
    yields the UTF-8 encoding of that code point, one byte below 0x80 and
    two bytes from there on. *)
Definition string_of_byte (c : byte) : list byte :=
  if (Z_of_byte c <? 128)%Z then [c]
  else [byte_of_Z (192 + Z_of_byte c / 64); byte_of_Z (128 + Z_of_byte c mod 64)].

(** The token types: a [const] block counted by [iota] from [TokenEOF = 0]. *)
Definition TokenEOF : nat := 0.
Definition TokenError : nat := 1.
Definition TokenOpenParen : nat := 2.
Definition TokenCloseParen : nat := 3.
Definition TokenOpenBracket : nat := 4.
Definition TokenCloseBracket : nat := 5.
Definition TokenOpenBrace : nat := 6.
Definition TokenCloseBrace : nat := 7.
Definition TokenComma : nat := 8.
Definition TokenColon : nat := 9.
Definition TokenSemicolon : nat := 10.
Definition TokenDot : nat := 11.
Definition TokenDoubleColon : nat := 12.
Definition TokenPipe : nat := 13.
Definition TokenPercent : nat := 14.
Definition TokenPlus : nat := 15.
Definition TokenMinus : nat := 16.
Definition TokenAsterisk : nat := 17.
Definition TokenSlash : nat := 18.
Definition TokenDoubleSlash : nat := 19.
Definition TokenDoubleAsterisk : nat := 20.
Definition TokenBang : nat := 21.
Definition TokenAnd : nat := 22.
Definition TokenOr : nat := 23.
Definition TokenEqual : nat := 24.
Definition TokenNotEqual : nat := 25.
Definition TokenLessThan : nat := 26.
Definition TokenLessThanEqual : nat := 27.
Definition TokenGreaterThan : nat := 28.
Definition TokenGreaterThanEqual : nat := 29.
Definition TokenInc : nat := 30.
Definition TokenDec : nat := 31.
Definition TokenNumber : nat := 32.
Definition TokenParam : nat := 33.
Definition TokenIdent : nat := 34.
Definition TokenString : nat := 35.
Definition TokenBool : nat := 36.
Definition TokenNull : nat := 37.
Definition TokenLet : nat := 38.

(** The map [tokenNames]; a type that is not a key reads as the empty
    string. *)
Definition tokenNames (t : nat) : list byte :=
  if t =? TokenEOF then ["E"; "O"; "F"]%byte
  else if t =? TokenError then ["E"; "r"; "r"; "o"; "r"]%byte
  else if t =? TokenOpenParen then ["O"; "p"; "e"; "n"; "P"; "a"; "r"; "e"; "n"]%byte
  else if t =? TokenCloseParen then ["C"; "l"; "o"; "s"; "e"; "P"; "a"; "r"; "e"; "n"]%byte
  else if t =? TokenOpenBracket then ["O"; "p"; "e"; "n"; "B"; "r"; "a"; "c"; "k"; "e"; "t"]%byte
  else if t =? TokenCloseBracket then ["C"; "l"; "o"; "s"; "e"; "B"; "r"; "a"; "c"; "k"; "e"; "t"]%byte
  else if t =? TokenOpenBrace then ["O"; "p"; "e"; "n"; "B"; "r"; "a"; "c"; "e"]%byte
  else if t =? TokenCloseBrace then ["C"; "l"; "o"; "s"; "e"; "B"; "r"; "a"; "c"; "e"]%byte
  else if t =? TokenComma then ["C"; "o"; "m"; "m"; "a"]%byte
  else if t =? TokenColon then ["C"; "o"; "l"; "o"; "n"]%byte
  else if t =? TokenSemicolon then ["S"; "e"; "m"; "i"; "c"; "o"; "l"; "o"; "n"]%byte
  else if t =? TokenDot then ["D"; "o"; "t"]%byte
  else if t =? TokenDoubleColon then ["D"; "o"; "u"; "b"; "l"; "e"; "C"; "o"; "l"; "o"; "n"]%byte
  else if t =? TokenPipe then ["P"; "i"; "p"; "e"]%byte
  else if t =? TokenPercent then ["P"; "e"; "r"; "c"; "e"; "n"; "t"]%byte
  else if t =? TokenPlus then ["P"; "l"; "u"; "s"]%byte
  else if t =? TokenMinus then ["M"; "i"; "n"; "u"; "s"]%byte
  else if t =? TokenAsterisk then ["A"; "s"; "t"; "e"; "r"; "i"; "s"; "k"]%byte
  else if t =? TokenSlash then ["S"; "l"; "a"; "s"; "h"]%byte
  else if t =? TokenDoubleSlash then ["D"; "o"; "u"; "b"; "l"; "e"; "S"; "l"; "a"; "s"; "h"]%byte
  else if t =? TokenDoubleAsterisk then ["D"; "o"; "u"; "b"; "l"; "e"; "A"; "s"; "t"; "e"; "r"; "i"; "s"; "k"]%byte
  else if t =? TokenBang then ["B"; "a"; "n"; "g"]%byte
  else if t =? TokenAnd then ["A"; "n"; "d"]%byte
  else if t =? TokenOr then ["O"; "r"]%byte
  else if t =? TokenEqual then ["E"; "q"; "u"; "a"; "l"]%byte
  else if t =? TokenNotEqual then ["N"; "o"; "t"; "E"; "q"; "u"; "a"; "l"]%byte
  else if t =? TokenLessThan then ["L"; "e"; "s"; "s"; "T"; "h"; "a"; "n"]%byte
  else if t =? TokenLessThanEqual then ["L"; "e"; "s"; "s"; "T"; "h"; "a"; "n"; "E"; "q"; "u"; "a"; "l"]%byte
  else if t =? TokenGreaterThan then ["G"; "r"; "e"; "a"; "t"; "e"; "r"; "T"; "h"; "a"; "n"]%byte
  else if t =? TokenGreaterThanEqual then ["G"; "r"; "e"; "a"; "t"; "e"; "r"; "T"; "h"; "a"; "n"; "E"; "q"; "u"; "a"; "l"]%byte
  else if t =? TokenInc then ["I"; "n"; "c"]%byte
  else if t =? TokenDec then ["D"; "e"; "c"]%byte
  else if t =? TokenNumber then ["N"; "u"; "m"; "b"; "e"; "r"]%byte
  else if t =? TokenParam then ["P"; "a"; "r"; "a"; "m"]%byte
  else if t =? TokenIdent then ["I"; "d"; "e"; "n"; "t"]%byte
  else if t =? TokenString then ["S"; "t"; "r"; "i"; "n"; "g"]%byte
  else if t =? TokenBool then ["B"; "o"; "o"; "l"]%byte
  else if t =? TokenNull then ["N"; "u"; "l"; "l"]%byte
  else if t =? TokenLet then ["L"; "e"; "t"]%byte
  else [].

Record Token : Type := NewToken {
  Type_ : nat;
  Value : list byte;
  Pos : nat;
}.

Definition Token_String (t : Token) : list byte := tokenNames (Type_ t).

Record Lexer : Type := mkLexer {
  input : list byte;
  pos : nat;
}.

Definition NewLexer (input : list byte) : Lexer := mkLexer input 0.

Definition set_pos (l : Lexer) (p : nat) : Lexer := mkLexer (input l) p.

(** The loops [for l.pos < len(l.input) { if !p(l.input[l.pos]) { break };
    l.pos++ }]: [rest] is [l.input[pos:]], the result the position at
    which the loop stops. *)
Fixpoint scan_while (p : byte → bool) (rest : list byte) (pos : nat) : nat :=
  match rest with
  | [] => pos
  | c :: rest' => if p c then scan_while p rest' (S pos) else pos
  end.

Definition isSpace (c : byte) : bool :=
  bool_decide (c = " "%byte) || bool_decide (c = x09)
  || bool_decide (c = x0a) || bool_decide (c = x0d).

Definition consumeWhitespace (l : Lexer) : Lexer :=
  set_pos l (scan_while isSpace (drop (pos l) (input l)) (pos l)).

Definition peek (l : Lexer) : result byte := char_at (input l) (pos l).

Definition consume (l : Lexer) : Lexer * result byte :=
  match char_at (input l) (pos l) with
  | Ok b => (set_pos l (pos l + 1), Ok b)
  | r => (l, r)
  end.

Definition consumeToken (l : Lexer) (typ : nat) (value : list byte)
    : Lexer * Token :=
  let t := NewToken typ value (pos l) in
  (set_pos l (pos l + length value), t).

(** What [unescapeString] appends for the character after a backslash;
    the [switch] has no default, so any other character is dropped. *)
Definition unescape_char (e : byte) : list byte :=
  if bool_decide (e = "n"%byte) then [x0a]
  else if bool_decide (e = "r"%byte) then [x0d]
  else if bool_decide (e = "t"%byte) then [x09]
  else if bool_decide (e = "\"%byte) then ["\"%byte]
  else if bool_decide (e = "'"%byte) then ["'"%byte]
  else if bool_decide (e = x22) then [x22]
  else [].

(** The loop of [unescapeString] from index [i] on: [s] is what is left
    of the string, [str] the result so far.  After a backslash the loop
    reads [s[i]] for the next index without a bound check. *)
Fixpoint unescapeString_loop (s : list byte) (str : list byte)
    : result (list byte) :=
  match s with
  | [] => Ok str
  | c :: s' =>
      if bool_decide (c = "\"%byte) then
        match s' with
        | [] => Panic
        | e :: s'' => unescapeString_loop s'' (str ++ unescape_char e)
        end
      else unescapeString_loop s' (str ++ string_of_byte c)
  end.

Definition unescapeString (s : list byte) : result (list byte) :=
  unescapeString_loop s [].

(** The loop of [consumeString]: [rest] is [l.input[pos:]].  It returns
    the position at which it stops and whether it stopped on the
    delimiter. *)
Fixpoint consumeString_loop (delim : byte) (rest : list byte) (pos : nat)
    : nat * bool :=
  match rest with
  | [] => (pos, false)
  | c :: rest' =>
      if bool_decide (c = delim) then (pos, true)
      else if bool_decide (c = "\"%byte) then
        match rest' with
        | [] => (pos + 1 + 1, false)
        | _ :: rest'' => consumeString_loop delim rest'' (pos + 1 + 1)
        end
      else consumeString_loop delim rest' (pos + 1)
  end.

Definition Unterminated_string : list byte :=
  ["U"; "n"; "t"; "e"; "r"; "m"; "i"; "n"; "a"; "t"; "e"; "d"; " ";
   "s"; "t"; "r"; "i"; "n"; "g"]%byte.

Definition consumeString (l : Lexer) (delim : byte) : Lexer * result Token :=
  let l := set_pos l (pos l + 1) in
  let start := pos l in
  match consumeString_loop delim (drop (pos l) (input l)) (pos l) with
  | (p, true) =>
      let l := set_pos l p in
      match s ← substring (input l) start (pos l); unescapeString s with
      | Ok value =>
          let t := NewToken TokenString value start in
          (set_pos l (pos l + 1), Ok t)
      | Err msg => (l, Err msg)
      | Panic => (l, Panic)
      end
  | (p, false) => (set_pos l p, Err Unterminated_string)
  end.

Definition isDigit (b : byte) : bool :=
  (Z_of_byte "0" <=? Z_of_byte b)%Z && (Z_of_byte b <=? Z_of_byte "9")%Z.

Definition consumeNumber (l : Lexer) : Lexer * result Token :=
  let start := pos l in
  let l := set_pos l (scan_while (fun c => isDigit c) (drop (pos l) (input l)) (pos l)) in
  let l :=
    if (pos l <? length (input l))
       && bool_decide (input l !! pos l = Some "."%byte)
    then
      let l := set_pos l (pos l + 1) in
      set_pos l (scan_while (fun c => isDigit c) (drop (pos l) (input l)) (pos l))
    else l in
  match substring (input l) start (pos l) with
  | Ok value => (l, Ok (NewToken TokenNumber value start))
  | Err msg => (l, Err msg)
  | Panic => (l, Panic)
  end.

Definition isIdentStart (b : byte) : bool :=
  ((Z_of_byte "a" <=? Z_of_byte b)%Z && (Z_of_byte b <=? Z_of_byte "z")%Z)
  || ((Z_of_byte "A" <=? Z_of_byte b)%Z && (Z_of_byte b <=? Z_of_byte "Z")%Z)
  || bool_decide (b = "_"%byte).

Definition isIdent (b : byte) : bool := isIdentStart b || isDigit b.

Definition consumeIdent (l : Lexer) : Lexer * result Token :=
  let start := pos l in
  let l := set_pos l (scan_while isIdent (drop (pos l) (input l)) (pos l)) in
  match substring (input l) start (pos l) with
  | Ok value =>
      if bool_decide (value = ["n"; "u"; "l"; "l"]%byte)
      then (l, Ok (NewToken TokenNull value start))
      else if bool_decide (value = ["t"; "r"; "u"; "e"]%byte)
              || bool_decide (value = ["f"; "a"; "l"; "s"; "e"]%byte)
      then (l, Ok (NewToken TokenBool value start))
      else if bool_decide (value = ["l"; "e"; "t"]%byte)
      then (l, Ok (NewToken TokenLet value start))
      else
        match substring (input l) start (pos l) with
        | Ok value' => (l, Ok (NewToken TokenIdent value' start))
        | Err msg => (l, Err msg)
        | Panic => (l, Panic)
        end
  | Err msg => (l, Err msg)
  | Panic => (l, Panic)
  end.

Definition Expected_identifier : list byte :=
  ["E"; "x"; "p"; "e"; "c"; "t"; "e"; "d"; " "; "i"; "d"; "e"; "n"; "t";
   "i"; "f"; "i"; "e"; "r"; " "; "a"; "f"; "t"; "e"; "r"; " "; "$"]%byte.

Definition consumeParam (l : Lexer) : Lexer * result Token :=
  if length (input l) <=? pos l + 1 then (l, Err Expected_identifier)
  else
    match char_at (input l) (pos l + 1) with
    | Ok c =>
        if negb (isIdentStart c) then (l, Err Expected_identifier)
        else
          let l := set_pos l (pos l + 1) in
          let start := pos l in
          let l := set_pos l (scan_while isIdent (drop (pos l) (input l)) (pos l)) in
          match substring (input l) start (pos l) with
          | Ok value => (l, Ok (NewToken TokenParam value start))
          | Err msg => (l, Err msg)
          | Panic => (l, Panic)
          end
    | Err msg => (l, Err msg)
    | Panic => (l, Panic)
    end.

Definition Unexpected_character : list byte :=
  ["U"; "n"; "e"; "x"; "p"; "e"; "c"; "t"; "e"; "d"; " "; "c"; "h"; "a";
   "r"; "a"; "c"; "t"; "e"; "r"; ":"; " "]%byte.

(** A [case] of [NextToken] that returns one token whatever follows. *)
Definition one (l : Lexer) (typ : nat) (value : list byte)
    : Lexer * result Token :=
  let (l', t) := consumeToken l typ value in (l', Ok t).

(** A [case] of [NextToken] that tests [l.peek() == c]. *)
Definition on_peek (l : Lexer) (c : byte)
    (yes no : Lexer * result Token) : Lexer * result Token :=
  match peek l with
  | Ok p => if bool_decide (p = c) then yes else no
  | Err msg => (l, Err msg)
  | Panic => (l, Panic)
  end.

(** The [switch] of [NextToken] on [c = l.input[l.pos]], with the
    [return] that follows it. *)
Definition NextToken_switch (l : Lexer) (c : byte) : Lexer * result Token :=
  if bool_decide (c = "("%byte) then one l TokenOpenParen ["("]%byte
  else if bool_decide (c = ")"%byte) then one l TokenCloseParen [")"]%byte
  else if bool_decide (c = "["%byte) then one l TokenOpenBracket ["["]%byte
  else if bool_decide (c = "]"%byte) then one l TokenCloseBracket ["]"]%byte
  else if bool_decide (c = "{"%byte) then one l TokenOpenBrace ["{"]%byte
  else if bool_decide (c = "}"%byte) then one l TokenCloseBrace ["}"]%byte
  else if bool_decide (c = ","%byte) then one l TokenComma [","]%byte
  else if bool_decide (c = ":"%byte) then
    on_peek l ":" (one l TokenDoubleColon [":"; ":"]%byte)
                  (one l TokenColon [":"]%byte)
  else if bool_decide (c = ";"%byte) then one l TokenSemicolon [";"]%byte
  else if bool_decide (c = "."%byte) then one l TokenDot ["."]%byte
  else if bool_decide (c = "|"%byte) then
    on_peek l "|" (one l TokenOr ["|"; "|"]%byte)
                  (one l TokenPipe ["|"]%byte)
  else if bool_decide (c = "%"%byte) then one l TokenPercent ["%"]%byte
  else if bool_decide (c = "+"%byte) then
    on_peek l "+" (one l TokenInc ["+"; "+"]%byte)
                  (one l TokenPlus ["+"]%byte)
  else if bool_decide (c = "-"%byte) then
    on_peek l "-" (one l TokenDec ["-"; "-"]%byte)
                  (one l TokenMinus ["-"]%byte)
  else if bool_decide (c = "*"%byte) then
    on_peek l "*" (one l TokenDoubleAsterisk ["*"; "*"]%byte)
                  (one l TokenAsterisk ["*"]%byte)
  else if bool_decide (c = "/"%byte) then
    on_peek l "/" (one l TokenDoubleSlash ["/"; "/"]%byte)
                  (one l TokenSlash ["/"]%byte)
  else if bool_decide (c = "!"%byte) then
    on_peek l "=" (one l TokenNotEqual ["!"; "="]%byte)
                  (one l TokenBang ["!"]%byte)
  else if bool_decide (c = "="%byte) then
    on_peek l "=" (one l TokenEqual ["="; "="]%byte)
                  (one l TokenEqual ["="]%byte)
  else if bool_decide (c = "<"%byte) then
    on_peek l "=" (one l TokenLessThanEqual ["<"; "="]%byte)
                  (one l TokenLessThan ["<"]%byte)
  else if bool_decide (c = ">"%byte) then
    on_peek l "=" (one l TokenGreaterThanEqual [">"; "="]%byte)
                  (one l TokenGreaterThan [">"]%byte)
  else if bool_decide (c = "&"%byte) then
    on_peek l "&" (one l TokenAnd ["&"; "&"]%byte)
                  (l, Err (Unexpected_character ++ ["&"]%byte))
  else if bool_decide (c = x22) then consumeString l x22
  else if bool_decide (c = "'"%byte) then consumeString l "'"
  else if bool_decide (c = "$"%byte) then consumeParam l
  else if isDigit c then consumeNumber l
  else if isIdentStart c then consumeIdent l
  else (l, Err (Unexpected_character ++ string_of_byte c)).

Definition NextToken (l : Lexer) : Lexer * result Token :=
  let l := consumeWhitespace l in
  if length (input l) <=? pos l then one l TokenEOF []
  else
    match char_at (input l) (pos l) with
    | Ok c => NextToken_switch l c
    | Err msg => (l, Err msg)
    | Panic => (l, Panic)
    end.

(** The loop of [main] over a lexer: the lines it prints, and how it
    ends: [Ok ()] at the [EOF] token, [Err] when it panics with the error
    of [NextToken].  One unit of fuel per token. *)
Fixpoint main_loop (fuel : nat) (l : Lexer) (printed : list (list byte))
    : option (list (list byte) * result ()) :=
  match fuel with
  | O => None
  | S fuel' =>
      match NextToken l with
      | (l', Ok token) =>
          if Type_ token =? TokenEOF then Some (printed, Ok ())
          else
            main_loop fuel' l'
              (printed ++ [Token_String token ++ [":"; " "]%byte ++ Value token])
      | (_, Err msg) => Some (printed, Err msg)
      | (_, Panic) => Some (printed, Panic)
      end
  end.

End lexer.

(** ** Package [storage]: the advisory lock registry *)

Module storage_lock.

(** How a call ends when one goroutine runs it: it returns, it blocks for
    ever on a mutex that is held, or the run time stops the program
    (unlock of an unlocked mutex). *)
Inductive run (A : Type) : Type :=
| Returns (a : A)
| Blocks
| Fatal.

Arguments Returns {A} a.
Arguments Blocks {A}.
Arguments Fatal {A}.

#[global] Instance run_ret : MRet run := fun A a => Returns a.

#[global] Instance run_bind : MBind run := fun A B f m =>
  match m with
  | Returns a => f a
  | Blocks => Blocks
  | Fatal => Fatal
  end.

(** [mu] tells whether the mutex is held; [locks] is the Go map. *)
Record Lock : Type := mkLock {
  mu : bool;
  locks : gmap (list byte) bool;
}.

Definition NewLocks : Lock := mkLock false ∅.

Definition mu_Lock (l : Lock) : run Lock :=
  if mu l then Blocks else Returns (mkLock true (locks l)).

Definition mu_Unlock (l : Lock) : run Lock :=
  if mu l then Returns (mkLock false (locks l)) else Fatal.

Definition Lock_Lock (l : Lock) (key : list byte) : run Lock :=
  l ← mu_Lock l;
  let l := mkLock (mu l) (<[key := true]> (locks l)) in
  mu_Unlock l.

Definition Lock_Unlock (l : Lock) (key : list byte) : run Lock :=
  l ← mu_Lock l;
  let l := mkLock (mu l) (delete key (locks l)) in
  mu_Unlock l.

(** [IsLocked]: the deferred unlock runs after the result is read; a key
    that is not in the map reads as [false]. *)
Definition Lock_IsLocked (l : Lock) (key : list byte) : run (Lock * bool) :=
  l ← mu_Lock l;
  let r := default false (locks l !! key) in
  l ← mu_Unlock l;
  Returns (l, r).

End storage_lock.

(** The token types that [lexer.NextToken] returns before the end of the
    input. *)
Definition produced_types : list nat :=
  [lexer.TokenOpenParen; lexer.TokenCloseParen; lexer.TokenOpenBracket;
   lexer.TokenCloseBracket; lexer.TokenOpenBrace; lexer.TokenCloseBrace;
   lexer.TokenComma; lexer.TokenSemicolon; lexer.TokenDot;
   lexer.TokenDoubleColon; lexer.TokenPercent; lexer.TokenDoubleSlash;
   lexer.TokenDoubleAsterisk; lexer.TokenBang; lexer.TokenAnd; lexer.TokenOr;
   lexer.TokenEqual; lexer.TokenLessThan; lexer.TokenGreaterThan;
   lexer.TokenInc; lexer.TokenDec; lexer.TokenNumber; lexer.TokenParam;
   lexer.TokenIdent; lexer.TokenString; lexer.TokenBool; lexer.TokenNull;
   lexer.TokenLet].

(** *** Concrete inputs of the lexer and of the codec *)

(** A static wrapper with a nil database. *)
Definition static_document : Document := NewStaticDocument None.

(** The stream of the single field [id: Int64(1)]. *)
Definition stream_id_1 : list byte := document_stream [(id_key, OInt64 1)].

(** The encoding of the string ["a"], followed by one more byte. *)
Definition string_a_then_b : list byte := [StringType; x61; x00; x62].

(** Lexers at the start of [:b], [<=], [let x], [1.2.3], ['ab'], [$a)]
    and [#]. *)
Definition lexer_colon_b : lexer.Lexer := lexer.NewLexer [":"; "b"]%byte.
Definition lexer_less_equal : lexer.Lexer := lexer.NewLexer ["<"; "="]%byte.
Definition lexer_let_x : lexer.Lexer := lexer.NewLexer ["l"; "e"; "t"; " "; "x"]%byte.
Definition lexer_1_2_3 : lexer.Lexer := lexer.NewLexer ["1"; "."; "2"; "."; "3"]%byte.
Definition lexer_quoted_ab : lexer.Lexer := lexer.NewLexer ["'"; "a"; "b"; "'"]%byte.
Definition lexer_param_a : lexer.Lexer := lexer.NewLexer ["$"; "a"; ")"]%byte.
Definition lexer_hash : lexer.Lexer := lexer.NewLexer ["#"]%byte.

(** ** Bytes and big-endian integers *)

Section bytes.
Local Open Scope Z_scope.

Lemma Z_of_byte_range (x : byte) : 0 ≤ Z_of_byte x < 256.
Proof.
  unfold Z_of_byte. pose proof (Byte.to_N_bounded x) as H.
  lia.
Qed.

Lemma Z_of_byte_of_Z (z : Z) : Z_of_byte (byte_of_Z z) = z mod 256.
Proof.
  unfold Z_of_byte, byte_of_Z.
  pose proof (Z.mod_pos_bound z 256 ltac:(lia)) as Hz.
  destruct (Byte.of_N (Z.to_N (z mod 256))) as [x|] eqn:E.
  - apply Byte.to_of_N in E. rewrite E. lia.
  - apply Byte.of_N_None_iff in E. lia.
Qed.

Lemma byte_of_Z_of_byte (x : byte) : byte_of_Z (Z_of_byte x) = x.
Proof.
  unfold byte_of_Z. pose proof (Z_of_byte_range x) as H.
  rewrite Z.mod_small by lia. unfold Z_of_byte.
  rewrite N2Z.id, Byte.of_to_N. reflexivity.
Qed.

(** Shifting the accumulator left by a byte and or-ing the next byte in
    is multiplying by 256 and adding: the two operands share no bit. *)
Lemma lor_shiftl_byte (acc x : Z) :
  0 ≤ x < 256 → Z.lor (Z.shiftl acc 8) x = acc * 256 + x.
Proof.
  intros Hx.
  rewrite Z.shiftl_mul_pow2 by lia. change (2 ^ 8) with 256.
  assert (Hland : Z.land (acc * 256) x = 0).
  { apply Z.bits_inj'. intros n Hn. rewrite Z.land_spec, Z.bits_0.
    destruct (Z.ltb_spec n 8).
    - change 256 with (2 ^ 8). rewrite Z.mul_pow2_bits_low by lia. reflexivity.
    - assert (Z.testbit x n = false) as ->; [|apply andb_false_r].
      destruct (Z.eq_dec x 0) as [->|]; [apply Z.bits_0|].
      apply Z.bits_above_log2; [lia|].
      assert (Z.log2 x < 8); [|lia].
      apply Z.log2_lt_pow2; lia. }
  rewrite <- Z.lxor_lor by exact Hland.
  symmetry. apply Z.add_nocarry_lxor. exact Hland.
Qed.

Lemma be_value_acc (n : nat) (v acc : Z) :
  fold_left (fun a x => Z.lor (Z.shiftl a 8) (Z_of_byte x)) (be_bytes n v) acc
  = acc * 2 ^ (8 * Z.of_nat n) + v mod 2 ^ (8 * Z.of_nat n).
Proof.
  revert acc. induction n as [|k IH]; intros acc.
  - simpl. rewrite Z.mod_1_r. lia.
  - cbn [be_bytes fold_left]. rewrite IH.
    rewrite lor_shiftl_byte by apply Z_of_byte_range.
    rewrite Z_of_byte_of_Z, Z.shiftr_div_pow2 by lia.
    replace (8 * Z.of_nat (S k)) with (8 * Z.of_nat k + 8) by lia.
    rewrite Z.pow_add_r by lia. change (2 ^ 8) with 256.
    assert (0 < 2 ^ (8 * Z.of_nat k)) by (apply Z.pow_pos_nonneg; lia).
    rewrite (Z.rem_mul_r v (2 ^ (8 * Z.of_nat k)) 256) by lia.
    lia.
Qed.

Lemma be_value_be_bytes (n : nat) (v : Z) :
  be_value (be_bytes n v) = v mod 2 ^ (8 * Z.of_nat n).
Proof. unfold be_value. rewrite be_value_acc. lia. Qed.

Lemma length_be_bytes (n : nat) (v : Z) : length (be_bytes n v) = n.
Proof. induction n; simpl; congruence. Qed.

Lemma signed_wrap (w i : Z) :
  0 < w → - w ≤ i < w →
  (if i mod (2 * w) <? w then i mod (2 * w) else i mod (2 * w) - 2 * w) = i.
Proof.
  intros Hw Hi.
  destruct (Z.ltb_spec i 0) as [Hneg|Hpos].
  - assert (i mod (2 * w) = i + 2 * w) as ->.
    { rewrite <- (Z.mod_add i 1) by lia. rewrite Z.mod_small; lia. }
    destruct (Z.ltb_spec (i + 2 * w) w); lia.
  - rewrite Z.mod_small by lia.
    destruct (Z.ltb_spec i w); lia.
Qed.

Lemma int64_roundtrip (i : Z) :
  - 2 ^ 63 ≤ i < 2 ^ 63 → to_int64 (Uint64 (PutUint64 (to_uint64 i))) = i.
Proof.
  intros Hi. unfold Uint64, PutUint64, to_int64, to_uint64.
  rewrite be_value_be_bytes. change (2 ^ (8 * Z.of_nat 8)) with (2 ^ 64).
  rewrite !Z.mod_mod by lia.
  change (2 ^ 64) with (2 * 2 ^ 63). apply signed_wrap; lia.
Qed.

Lemma int32_roundtrip (i : Z) :
  - 2 ^ 31 ≤ i < 2 ^ 31 → to_int32 (Uint32 (PutUint32 (to_uint32 i))) = i.
Proof.
  intros Hi. unfold Uint32, PutUint32, to_int32, to_uint32.
  rewrite be_value_be_bytes. change (2 ^ (8 * Z.of_nat 4)) with (2 ^ 32).
  rewrite !Z.mod_mod by lia.
  change (2 ^ 32) with (2 * 2 ^ 31). apply signed_wrap; lia.
Qed.

Lemma float_bits_roundtrip (bits : Z) :
  0 ≤ bits < 2 ^ 64 → Uint64 (PutUint64 bits) = bits.
Proof.
  intros Hb. unfold Uint64, PutUint64. rewrite be_value_be_bytes.
  change (2 ^ (8 * Z.of_nat 8)) with (2 ^ 64). apply Z.mod_small. lia.
Qed.

End bytes.

(** ** Slices *)

Lemma slice_middle (t : byte) (s rest : list byte) :
  slice (t :: s ++ rest) 1 (1 + length s) = Done s.
Proof.
  unfold slice. simpl length. rewrite length_app.
  replace (1 <=? 1 + length s) with true by (symmetry; apply Nat.leb_le; lia).
  replace (1 + length s <=? S (length s + length rest)) with true
    by (symmetry; apply Nat.leb_le; lia).
  simpl. rewrite drop_0.
  replace (length s - 0) with (length s) by lia.
  rewrite take_app_length. reflexivity.
Qed.

Lemma slice_from_app (pre rest : list byte) :
  slice_from (pre ++ rest) (length pre) = Done rest.
Proof.
  unfold slice_from, slice. rewrite length_app.
  replace (length pre <=? length pre + length rest) with true
    by (symmetry; apply Nat.leb_le; lia).
  rewrite Nat.leb_refl. simpl.
  rewrite drop_app_length.
  replace (length pre + length rest - length pre) with (length rest) by lia.
  rewrite firstn_all. reflexivity.
Qed.

Lemma slice_from_length b count rest :
  slice_from b count = Done rest → length rest = length b - count.
Proof.
  unfold slice_from, slice. intros H. case_match; simplify_eq.
  rewrite length_take, length_drop. lia.
Qed.

Lemma index_Done b i x : index b i = Done x → i < length b.
Proof.
  unfold index. intros H. case_match eqn:E; simplify_eq.
  eapply lookup_lt_Some; eauto.
Qed.

Lemma index_app_head (pre : list byte) (x : byte) (tail : list byte) :
  index (pre ++ x :: tail) (length pre) = Done x.
Proof. unfold index. rewrite list_lookup_middle by reflexivity. reflexivity. Qed.

Lemma length_ltb_1_app (pre : list byte) (x : byte) (tail : list byte) :
  (length (pre ++ x :: tail) <? 1) = false.
Proof. apply Nat.ltb_ge. rewrite length_app. simpl. lia. Qed.

Lemma bind_Done {A B} (m : outcome A) (f : A → outcome B) (y : B) :
  m ≫= f = Done y → ∃ x, m = Done x ∧ f x = Done y.
Proof. destruct m; simpl; intros; simplify_eq; eauto. Qed.

(** ** Scalar codec *)

Lemma find_NullTerm_app (s rest : list byte) (i : nat) :
  NUL_free s = true →
  find_NullTerm (s ++ NullTerm :: rest) i = Some (i + length s).
Proof.
  revert i. induction s as [|x s IH]; intros i Hs; simpl.
  - f_equal. lia.
  - simpl in Hs. apply andb_prop in Hs as [Hx Hs].
    apply negb_true_iff in Hx. rewrite Hx, IH by exact Hs. f_equal. lia.
Qed.

Lemma String_UnmarshalObject_app (s rest : list byte) :
  NUL_free s = true →
  String_UnmarshalObject ((StringType :: s ++ [NullTerm]) ++ rest)
  = Done (s, length s + 2).
Proof.
  intros Hs. unfold String_UnmarshalObject.
  rewrite <- app_comm_cons, <- app_assoc. simpl app.
  replace (length (StringType :: s ++ NullTerm :: rest) <? 2) with false
    by (symmetry; apply Nat.ltb_ge; simpl; rewrite length_app; simpl; lia).
  cbn [index lookup list_lookup mbind outcome_bind].
  rewrite bool_decide_eq_false_2 by (intros H; apply H; reflexivity).
  simpl drop. rewrite drop_0.
  rewrite find_NullTerm_app by exact Hs.
  rewrite (slice_middle StringType s (NullTerm :: rest)).
  simpl. do 2 f_equal. lia.
Qed.

Lemma Name_UnmarshalObject_app (n rest : list byte) :
  NUL_free n = true →
  Name_UnmarshalObject ((([NameType] ++ n) ++ [NullTerm]) ++ rest)
  = Done (n, length n + 2).
Proof.
  intros Hs. unfold Name_UnmarshalObject.
  rewrite <- !app_assoc. simpl app.
  replace (length (NameType :: n ++ NullTerm :: rest) <? 2) with false
    by (symmetry; apply Nat.ltb_ge; simpl; rewrite length_app; simpl; lia).
  cbn [index lookup list_lookup mbind outcome_bind].
  rewrite bool_decide_eq_false_2 by (intros H; apply H; reflexivity).
  simpl drop. rewrite drop_0.
  rewrite find_NullTerm_app by exact Hs.
  rewrite (slice_middle NameType n (NullTerm :: rest)).
  simpl. do 2 f_equal. lia.
Qed.

Lemma UnmarshalObject_Int64 (b : list byte) :
  UnmarshalObject (Int64Type :: b) = UnmarshalInt64 (Int64Type :: b).
Proof. reflexivity. Qed.

Lemma UnmarshalObject_Int32 (b : list byte) :
  UnmarshalObject (Int32Type :: b) = UnmarshalInt32 (Int32Type :: b).
Proof. reflexivity. Qed.

Lemma UnmarshalObject_Float (b : list byte) :
  UnmarshalObject (FloatType :: b) = UnmarshalFloat (FloatType :: b).
Proof. reflexivity. Qed.

Lemma UnmarshalObject_String (b : list byte) :
  UnmarshalObject (StringType :: b) = UnmarshalString (StringType :: b).
Proof. reflexivity. Qed.

Lemma UnmarshalObject_Bool (b : list byte) :
  UnmarshalObject (BoolType :: b) = UnmarshalBool (BoolType :: b).
Proof. reflexivity. Qed.

Lemma UnmarshalObject_Null (b : list byte) :
  UnmarshalObject (NullType :: b) = UnmarshalNull (NullType :: b).
Proof. reflexivity. Qed.

Lemma UnmarshalObject_Char (b : list byte) :
  UnmarshalObject (CharType :: b) = UnmarshalChar (CharType :: b).
Proof. reflexivity. Qed.

Lemma fixed_width_decode (t : byte) (p rest : list byte) (n : nat) :
  length p = n →
  (length (t :: p ++ rest) <? S n) = false ∧
  slice (t :: p ++ rest) 1 (S n) = Done p.
Proof.
  intros Hp. split.
  - apply Nat.ltb_ge. simpl. rewrite length_app. lia.
  - subst n. apply (slice_middle t p rest).
Qed.

Lemma Int64_UnmarshalObject_app (p rest : list byte) :
  length p = 8 →
  Int64_UnmarshalObject (Int64Type :: p ++ rest) = Done (to_int64 (Uint64 p), 9).
Proof.
  intros Hp. unfold Int64_UnmarshalObject.
  destruct (fixed_width_decode Int64Type p rest 8 Hp) as [-> ->].
  reflexivity.
Qed.

Lemma Int32_UnmarshalObject_app (p rest : list byte) :
  length p = 4 →
  Int32_UnmarshalObject (Int32Type :: p ++ rest) = Done (to_int32 (Uint32 p), 5).
Proof.
  intros Hp. unfold Int32_UnmarshalObject.
  destruct (fixed_width_decode Int32Type p rest 4 Hp) as [-> ->].
  reflexivity.
Qed.

Lemma Float_UnmarshalObject_app (p rest : list byte) :
  length p = 8 →
  Float_UnmarshalObject (FloatType :: p ++ rest) = Done (Uint64 p, 9).
Proof.
  intros Hp. unfold Float_UnmarshalObject.
  destruct (fixed_width_decode FloatType p rest 8 Hp) as [-> ->].
  reflexivity.
Qed.

Lemma byteToBool_boolToByte (b : bool) : byteToBool (boolToByte b) = b.
Proof. destruct b; reflexivity. Qed.

(** Every representable scalar has an encoding, and the generic decoder
    reads it back, whatever follows it in the buffer. *)
Lemma scalar_decode (v : Object) :
  is_scalar v = true → representable v = true →
  ∃ vb, MarshalObject v = Done vb ∧
        ∀ rest, UnmarshalObject (vb ++ rest) = Done (v, length vb).
Proof.
  intros Hs Hr. destruct v as [i|i|f|s|b| |c| |n|a|t]; try discriminate Hs;
    cbn [representable] in Hr; eexists; (split; [reflexivity|]); intros rest.
  - apply andb_prop in Hr as [H1%Z.leb_le H2%Z.ltb_lt].
    rewrite <- app_comm_cons, UnmarshalObject_Int64. unfold UnmarshalInt64.
    rewrite Int64_UnmarshalObject_app by apply length_be_bytes.
    cbn [mbind outcome_bind]. rewrite int64_roundtrip by lia.
    cbn [length]. unfold PutUint64. rewrite length_be_bytes. reflexivity.
  - apply andb_prop in Hr as [H1%Z.leb_le H2%Z.ltb_lt].
    rewrite <- app_comm_cons, UnmarshalObject_Int32. unfold UnmarshalInt32.
    rewrite Int32_UnmarshalObject_app by apply length_be_bytes.
    cbn [mbind outcome_bind]. rewrite int32_roundtrip by lia.
    cbn [length]. unfold PutUint32. rewrite length_be_bytes. reflexivity.
  - apply andb_prop in Hr as [H1%Z.leb_le H2%Z.ltb_lt].
    rewrite <- app_comm_cons, UnmarshalObject_Float. unfold UnmarshalFloat.
    rewrite Float_UnmarshalObject_app by apply length_be_bytes.
    cbn [mbind outcome_bind]. rewrite float_bits_roundtrip by lia.
    cbn [length]. unfold PutUint64. rewrite length_be_bytes. reflexivity.
  - rewrite <- app_comm_cons, UnmarshalObject_String. unfold UnmarshalString.
    rewrite (app_comm_cons (s ++ [NullTerm]) rest StringType).
    rewrite String_UnmarshalObject_app by exact Hr.
    cbn [mbind outcome_bind]. do 2 f_equal.
    cbn [length]. rewrite length_app. simpl. lia.
  - rewrite <- app_comm_cons, UnmarshalObject_Bool.
    unfold UnmarshalBool, Bool_UnmarshalObject. simpl.
    rewrite byteToBool_boolToByte. reflexivity.
  - reflexivity.
  - reflexivity.
Qed.

Lemma scalar_not_internal (v : Object) :
  is_scalar v = true → IsInternal (Type_ v) = false.
Proof. destruct v; try discriminate; reflexivity. Qed.

(** C7. For every scalar type (Null, Bool, Char, Int32, Int64, Float,
    String) and every representable value [v] of it, encoding succeeds and
    decoding the encoding returns [v] together with the length of the
    encoding.  (A [Float] is its bit pattern; a representable [String] has
    no embedded [0x00].) *)
Theorem scalar_roundtrip (v : Object) :
  is_scalar v = true → representable v = true →
  ∃ bs, MarshalObject v = Done bs ∧ UnmarshalObject bs = Done (v, length bs).
Proof.
  intros Hs Hr. destruct (scalar_decode v Hs Hr) as (bs & Hbs & Hdec).
  exists bs. split; [exact Hbs|].
  specialize (Hdec []). rewrite app_nil_r in Hdec. exact Hdec.
Qed.

(** The round trip at the string ["ab"]. *)
Lemma scalar_roundtrip_witness :
  is_scalar (OString [x61; x62]) = true ∧
  representable (OString [x61; x62]) = true ∧
  ∃ bs, MarshalObject (OString [x61; x62]) = Done bs ∧
        UnmarshalObject bs = Done (OString [x61; x62], length bs).
Proof.
  split; [reflexivity|]. split; [reflexivity|].
  apply (scalar_roundtrip (OString [x61; x62])); reflexivity.
Defined.

(** ** The fuel of the decoders is enough *)

Ltac unfold_scalars :=
  unfold UnmarshalInt64, UnmarshalInt32, UnmarshalFloat, UnmarshalString,
    UnmarshalBool, UnmarshalNull, UnmarshalChar, UnmarshalEOF, UnmarshalName,
    Int64_UnmarshalObject, Int32_UnmarshalObject, Float_UnmarshalObject,
    String_UnmarshalObject, Bool_UnmarshalObject, Null_UnmarshalObject,
    Char_UnmarshalObject, EOF_UnmarshalObject, Name_UnmarshalObject,
    mbind, outcome_bind in *.

Lemma Name_UnmarshalObject_pos (b : list byte) (name : Name) (n : nat) :
  Name_UnmarshalObject b = Done (name, n) → 1 ≤ n.
Proof.
  unfold_scalars. intros H. repeat case_match; simplify_eq; lia.
Qed.

Lemma Array_UnmarshalObject_loop_count unmarshal fuel b count a a' c :
  Array_UnmarshalObject_loop unmarshal fuel b count a = Some (a', Done c) →
  count ≤ c.
Proof.
  revert count a. induction fuel as [|fuel IH]; intros count a H; [done|].
  simpl in H. repeat case_match; simplify_eq; try lia.
  apply IH in H. lia.
Qed.

Lemma UnmarshalObject_fuel_pos fuel b v n :
  UnmarshalObject_fuel fuel b = Some (Done (v, n)) → 1 ≤ n.
Proof.
  destruct fuel as [|fuel]; [done|]. simpl.
  intros H. repeat case_match; simplify_eq; try done.
  all: try (unfold_scalars; repeat case_match; simplify_eq; lia).
  unfold UnmarshalArray_with, Array_UnmarshalObject_with in H.
  repeat case_match; simplify_eq.
  eapply Array_UnmarshalObject_loop_count; eauto.
Qed.

Lemma Array_UnmarshalObject_loop_enough unmarshal fuel b count a :
  (∀ rest, length rest < length b → is_Some (unmarshal rest)) →
  (∀ rest v n, unmarshal rest = Some (Done (v, n)) → 1 ≤ n) →
  1 ≤ count → length b - count < fuel →
  is_Some (Array_UnmarshalObject_loop unmarshal fuel b count a).
Proof.
  intros Hsome Hpos. revert count a.
  induction fuel as [|fuel IH]; intros count a Hc Hf; [lia|].
  simpl. destruct (length b <? 1); [done|].
  destruct (index b count) as [x| |] eqn:Hx; try done.
  apply index_Done in Hx.
  destruct (bool_decide (x = EOFType)); [done|].
  destruct (slice_from b count) as [rest| |] eqn:Hrest; try done.
  apply slice_from_length in Hrest.
  destruct (Hsome rest ltac:(lia)) as [r Hr]. rewrite Hr.
  destruct r as [[v n]| |]; try done.
  apply Hpos in Hr. apply IH; lia.
Qed.

Lemma UnmarshalObject_fuel_is_Some fuel b :
  length b < fuel → is_Some (UnmarshalObject_fuel fuel b).
Proof.
  revert b. induction fuel as [|fuel IH]; intros b Hb; [lia|].
  simpl. repeat case_match; try done.
  unfold UnmarshalArray_with, Array_UnmarshalObject_with.
  repeat case_match; simplify_eq; try done.
  all: match goal with
       | H : Array_UnmarshalObject_loop _ _ _ _ _ = _ |- _ => rename H into Hl
       end.
  all: assert (Hsome : is_Some (Array_UnmarshalObject_loop
         (UnmarshalObject_fuel fuel) (length b) b 1 []));
    [|rewrite Hl in Hsome; try done; by destruct Hsome].
  all: apply Array_UnmarshalObject_loop_enough;
    [intros; apply IH; lia | intros ???; apply UnmarshalObject_fuel_pos
    | lia | destruct b; simpl in *; try done; lia].
Qed.

Lemma UnmarshalObject_fuel_enough (b : list byte) :
  UnmarshalObject_fuel (S (length b)) b = Some (UnmarshalObject b).
Proof.
  unfold UnmarshalObject.
  destruct (UnmarshalObject_fuel_is_Some (S (length b)) b ltac:(lia)) as [r ->].
  reflexivity.
Qed.

Lemma UnmarshalObject_pos b v n : UnmarshalObject b = Done (v, n) → 1 ≤ n.
Proof.
  intros H. eapply (UnmarshalObject_fuel_pos (S (length b)) b).
  rewrite UnmarshalObject_fuel_enough, H. reflexivity.
Qed.

Lemma Array_UnmarshalObject_enough (a : list Object) (b : list byte) :
  is_Some (Array_UnmarshalObject_with
             (fun rest => Some (UnmarshalObject rest)) a b).
Proof.
  unfold Array_UnmarshalObject_with.
  destruct (length b <? 1) eqn:Hlen; [done|].
  destruct (index b 0) as [t| |]; try done.
  destruct (bool_decide (t ≠ ArrayType)); [done|].
  apply Nat.ltb_ge in Hlen.
  apply Array_UnmarshalObject_loop_enough; try done; try lia.
  intros rest v n [= H]. eapply UnmarshalObject_pos; eauto.
Qed.

Lemma Document_UnmarshalObject_loop_fuel fuel b count m :
  length b - count < fuel →
  is_Some (Document_UnmarshalObject_loop fuel b count m).
Proof.
  revert count m. induction fuel as [|fuel IH]; intros count m Hf; [lia|].
  simpl. destruct (length b <? 1); [done|].
  destruct (index b count) as [x| |] eqn:Hx; try done.
  apply index_Done in Hx.
  destruct (bool_decide (x = EOFType)); [done|].
  destruct (slice_from b count ≫= Name_UnmarshalObject) as [[name nc]| |] eqn:Hn;
    try done.
  destruct (slice_from b (count + nc) ≫= UnmarshalObject) as [[v vc]| |];
    try done.
  destruct (IsInternal (Type_ v)); [done|].
  apply bind_Done in Hn as (rest & _ & Hn%Name_UnmarshalObject_pos).
  apply IH. lia.
Qed.

Lemma Document_Project_loop_fuel keys fuel b count m :
  length b - count < fuel →
  is_Some (Document_Project_loop keys fuel b count m).
Proof.
  revert count m. induction fuel as [|fuel IH]; intros count m Hf; [lia|].
  simpl. destruct (length b <? 1); [done|].
  destruct (index b count) as [x| |] eqn:Hx; try done.
  apply index_Done in Hx.
  destruct (bool_decide (x = EOFType)); [done|].
  destruct (slice_from b count ≫= Name_UnmarshalObject) as [[name nc]| |] eqn:Hn;
    try done.
  apply bind_Done in Hn as (rest & _ & Hn%Name_UnmarshalObject_pos).
  destruct (inKey keys name);
    destruct (slice_from b (count + nc) ≫= UnmarshalObject) as [[v vc]| |];
    try done.
  - destruct (IsInternal (Type_ v)); [done|]. apply IH. lia.
  - apply IH. lia.
Qed.

(** The array loop only decodes proper suffixes of [b]: two element
    decoders that agree on shorter buffers give the same loop. *)
Lemma Array_UnmarshalObject_loop_ext u1 u2 fuel b :
  (∀ rest, length rest < length b → u1 rest = u2 rest) →
  ∀ count a, 1 ≤ count →
    Array_UnmarshalObject_loop u1 fuel b count a
    = Array_UnmarshalObject_loop u2 fuel b count a.
Proof.
  intros Hu. induction fuel as [|fuel IH]; intros count a Hc; [done|].
  simpl. destruct (length b <? 1); [done|].
  destruct (index b count) as [x| |] eqn:Hx; try done.
  apply index_Done in Hx.
  destruct (bool_decide (x = EOFType)); [done|].
  destruct (slice_from b count) as [rest| |] eqn:Hrest; try done.
  apply slice_from_length in Hrest.
  rewrite (Hu rest) by lia.
  destruct (u2 rest) as [[[v n]| |]|]; try done.
  apply IH. lia.
Qed.

Lemma Array_UnmarshalObject_loop_mono u1 u2 fuel b :
  (∀ rest r, u1 rest = Some r → u2 rest = Some r) →
  ∀ count a r,
    Array_UnmarshalObject_loop u1 fuel b count a = Some r →
    Array_UnmarshalObject_loop u2 fuel b count a = Some r.
Proof.
  intros Hu. induction fuel as [|fuel IH]; intros count a r H; [done|].
  simpl in *. destruct (length b <? 1); [done|].
  destruct (index b count) as [x| |]; try done.
  destruct (bool_decide (x = EOFType)); [done|].
  destruct (slice_from b count) as [rest| |]; try done.
  destruct (u1 rest) as [r1|] eqn:Hr; [|done].
  rewrite (Hu rest r1 Hr).
  destruct r1 as [[v n]| |]; try done.
  apply IH. exact H.
Qed.

Lemma UnmarshalArray_with_mono u1 u2 b r :
  (∀ rest r, u1 rest = Some r → u2 rest = Some r) →
  UnmarshalArray_with u1 b = Some r → UnmarshalArray_with u2 b = Some r.
Proof.
  intros Hu. unfold UnmarshalArray_with, Array_UnmarshalObject_with.
  destruct (length b <? 1); [done|].
  destruct (index b 0) as [t| |]; try done.
  destruct (bool_decide (t ≠ ArrayType)); [done|].
  destruct (Array_UnmarshalObject_loop u1 (length b) b 1 []) as [p|] eqn:Hl;
    [|done].
  rewrite (Array_UnmarshalObject_loop_mono u1 u2 _ _ Hu _ _ _ Hl). done.
Qed.

Lemma UnmarshalObject_fuel_mono fuel :
  ∀ fuel' b r, fuel ≤ fuel' →
    UnmarshalObject_fuel fuel b = Some r → UnmarshalObject_fuel fuel' b = Some r.
Proof.
  induction fuel as [|fuel IH]; intros fuel' b r Hle H; [done|].
  destruct fuel' as [|fuel']; [lia|].
  cbn [UnmarshalObject_fuel] in *.
  destruct (length b <? 1); [done|].
  destruct (index b 0) as [t| |]; try done.
  repeat (destruct (bool_decide (t = _)); [done|]).
  destruct (bool_decide (t = ArrayType)); [|done].
  revert H. apply UnmarshalArray_with_mono.
  intros rest r'. apply IH. lia.
Qed.

Lemma UnmarshalObject_fuel_any (fuel : nat) (b : list byte) :
  length b < fuel → UnmarshalObject_fuel fuel b = Some (UnmarshalObject b).
Proof.
  intros H. apply (UnmarshalObject_fuel_mono (S (length b))); [lia|].
  apply UnmarshalObject_fuel_enough.
Qed.

(** The dispatcher and [UnmarshalArray] agree on a buffer that starts
    with the [Array] tag. *)
Lemma UnmarshalObject_Array (b : list byte) :
  UnmarshalObject (ArrayType :: b) = UnmarshalArray (ArrayType :: b).
Proof.
  unfold UnmarshalObject, UnmarshalArray, Array_UnmarshalObject.
  cbn [UnmarshalObject_fuel length Nat.ltb Nat.leb index lookup list_lookup].
  repeat (rewrite bool_decide_eq_false_2 by discriminate).
  rewrite bool_decide_eq_true_2 by reflexivity.
  unfold UnmarshalArray_with, Array_UnmarshalObject_with.
  cbn [length Nat.ltb Nat.leb index lookup list_lookup].
  rewrite (bool_decide_eq_false_2 (ArrayType ≠ ArrayType)) by tauto.
  rewrite (Array_UnmarshalObject_loop_ext
             (UnmarshalObject_fuel (S (length b)))
             (fun rest => Some (UnmarshalObject rest)));
    [|intros rest Hr; apply UnmarshalObject_fuel_any; simpl in Hr; lia | lia].
  destruct (Array_UnmarshalObject_loop _ _ _ _ _) as [[a [c| |]]|]; reflexivity.
Qed.

(** The fuel that the two entry points hand to their loop is enough. *)
Lemma Document_loops_enough (keys : list (list byte)) (b : list byte)
    (m : gmap Name Object) :
  1 ≤ length b →
  is_Some (Document_UnmarshalObject_loop (length b) b 1 m) ∧
  is_Some (Document_Project_loop keys (length b) b 1 m).
Proof.
  intros Hb. split.
  - apply Document_UnmarshalObject_loop_fuel. lia.
  - apply Document_Project_loop_fuel. lia.
Qed.

(** ** Arrays *)

(** What [Array.MarshalObject] returns: the bytes so far, then the
    encodings of the elements in order, and nothing after them. *)
Lemma Array_MarshalObject_range_Done marshal (a : list Object) :
  ∀ b bs, Array_MarshalObject_range marshal a b = Done bs →
          bs = b ++ concat (map (fun v => bytes_of (marshal v)) a).
Proof.
  induction a as [|v a IH]; intros b bs H; simpl in H.
  - simplify_eq. simpl. rewrite app_nil_r. reflexivity.
  - destruct (marshal v) as [mv| |] eqn:Hv; simplify_eq. cbn [mbind outcome_bind] in H.
    apply IH in H. subst bs. simpl. rewrite Hv. simpl.
    rewrite app_assoc. reflexivity.
Qed.

Lemma Array_MarshalObject_omits_EOF (a : list Object) :
  Array_MarshalObject a
  ≠ Done ([ArrayType] ++ concat (map (fun v => bytes_of (MarshalObject v)) a)
          ++ bytes_of EOF_MarshalObject).
Proof.
  intros H. pose proof (Array_MarshalObject_range_Done _ _ _ _ H) as Heq.
  apply (f_equal length) in Heq. rewrite !length_app in Heq. simpl in Heq. lia.
Qed.

(** The first byte of the encoding of a scalar is its type tag. *)
Lemma scalar_bytes_head (v : Object) :
  is_scalar v = true →
  ∃ tl, MarshalObject v = Done (Type_ v :: tl).
Proof. destruct v; try discriminate; intros _; eexists; reflexivity. Qed.

(** The array loop over the encodings of scalar elements: it decodes them
    one after the other and arrives, with the elements appended, at the
    byte that follows them. *)
Lemma Array_UnmarshalObject_loop_scalars (elems : list Object) :
  ∀ (pre tail : list byte) (fuel : nat) (a : list Object),
    Forall (fun v => is_scalar v = true ∧ representable v = true) elems →
    pre ≠ [] →
    Array_UnmarshalObject_loop (fun rest => Some (UnmarshalObject rest))
      (length elems + fuel)
      (pre ++ concat (map (fun v => bytes_of (MarshalObject v)) elems) ++ tail)
      (length pre) a
    = Array_UnmarshalObject_loop (fun rest => Some (UnmarshalObject rest))
        fuel
        (pre ++ concat (map (fun v => bytes_of (MarshalObject v)) elems) ++ tail)
        (length pre
         + length (concat (map (fun v => bytes_of (MarshalObject v)) elems)))
        (a ++ elems).
Proof.
  induction elems as [|v elems IH]; intros pre tail fuel a Hwf Hpre.
  - simpl. rewrite Nat.add_0_r, app_nil_r. reflexivity.
  - apply Forall_cons in Hwf as [[Hs Hr] Hwf].
    destruct (scalar_decode v Hs Hr) as (vb & Hvb & Hdec).
    destruct (scalar_bytes_head v Hs) as (tl & Htl).
    rewrite Hvb in Htl. injection Htl as ->.
    cbn [map concat length Nat.add]. rewrite Hvb. cbn [bytes_of].
    set (enc := concat (map (fun v => bytes_of (MarshalObject v)) elems)).
    rewrite <- (app_assoc (Type_ v :: tl) enc tail).
    cbn [Array_UnmarshalObject_loop].
    assert (Hlen : (length (pre ++ (Type_ v :: tl) ++ enc ++ tail) <? 1) = false).
    { apply Nat.ltb_ge. rewrite length_app. destruct pre; [done|simpl; lia]. }
    rewrite Hlen. rewrite <- (app_comm_cons tl (enc ++ tail) (Type_ v)).
    rewrite index_app_head.
    rewrite bool_decide_eq_false_2
      by (destruct v; try discriminate Hs; discriminate).
    rewrite slice_from_app.
    rewrite (app_comm_cons tl (enc ++ tail) (Type_ v)), Hdec.
    replace (length pre + length (Type_ v :: tl))
      with (length (pre ++ Type_ v :: tl)) by (rewrite length_app; reflexivity).
    rewrite (app_assoc pre (Type_ v :: tl) (enc ++ tail)).
    rewrite IH; [|exact Hwf|by destruct pre].
    rewrite <- (app_assoc a [v] elems). rewrite !length_app.
    unfold enc. cbn [app]. f_equal. lia.
Qed.

Lemma Array_MarshalObject_scalars (elems : list Object) :
  Forall (fun v => is_scalar v = true ∧ representable v = true) elems →
  Array_MarshalObject elems
  = Done ([ArrayType] ++ concat (map (fun v => bytes_of (MarshalObject v)) elems)).
Proof.
  intros Hwf. unfold Array_MarshalObject. generalize [ArrayType].
  induction Hwf as [|v elems [Hs _] _ IH]; intros b; simpl.
  - rewrite app_nil_r. reflexivity.
  - destruct (scalar_bytes_head v Hs) as (tl & ->). cbn [mbind outcome_bind].
    rewrite IH. cbn [bytes_of]. rewrite <- app_assoc. reflexivity.
Qed.

Lemma length_scalars_le_encoding (elems : list Object) :
  Forall (fun v => is_scalar v = true ∧ representable v = true) elems →
  length elems ≤ length (concat (map (fun v => bytes_of (MarshalObject v)) elems)).
Proof.
  induction 1 as [|v elems [Hs _] _ IH]; simpl; [lia|].
  destruct (scalar_bytes_head v Hs) as (tl & ->). rewrite length_app. simpl. lia.
Qed.

(** With the [EOF] byte after the elements, as the specification lays an
    array out, the decoder returns the array. *)
Lemma Array_decode_with_EOF (elems : list Object) (tail : list byte) :
  Forall (fun v => is_scalar v = true ∧ representable v = true) elems →
  UnmarshalArray (bytes_of (Array_MarshalObject elems) ++ EOFType :: tail)
  = Done (OArray elems, length (bytes_of (Array_MarshalObject elems))).
Proof.
  intros Hwf. rewrite Array_MarshalObject_scalars by exact Hwf. cbn [bytes_of].
  set (enc := concat (map (fun v => bytes_of (MarshalObject v)) elems)).
  unfold UnmarshalArray, Array_UnmarshalObject, Array_UnmarshalObject_with.
  rewrite <- app_assoc.
  cbn [app length Nat.ltb Nat.leb index lookup list_lookup].
  rewrite (bool_decide_eq_false_2 (ArrayType ≠ ArrayType)) by tauto.
  pose proof (Array_UnmarshalObject_loop_scalars elems [ArrayType]
                (EOFType :: tail)
                (S (length (enc ++ EOFType :: tail)) - length elems) []
                Hwf ltac:(done)) as Hloop.
  fold enc in Hloop. cbn [app length] in Hloop.
  pose proof (length_scalars_le_encoding elems Hwf) as Hfuel. fold enc in Hfuel.
  rewrite length_app in *. cbn [length] in *.
  replace (length elems + (S (length enc + S (length tail)) - length elems))
    with (S (length enc + S (length tail))) in Hloop by lia.
  rewrite Hloop. clear Hloop.
  replace (S (length enc + S (length tail)) - length elems)
    with (S (length enc + S (length tail) - length elems)) by lia.
  cbn [Array_UnmarshalObject_loop length Nat.ltb Nat.leb].
  change (ArrayType :: enc ++ EOFType :: tail)
    with ([ArrayType] ++ enc ++ EOFType :: tail).
  rewrite (app_assoc [ArrayType] enc).
  replace (1 + length enc) with (length ([ArrayType] ++ enc))
    by (rewrite length_app; reflexivity).
  rewrite index_app_head. rewrite bool_decide_eq_true_2 by reflexivity.
  rewrite length_app. reflexivity.
Qed.

(** On its own encoding, which has no [EOF] byte, the decoder runs off
    the end of the buffer. *)
Lemma Array_decode_own_encoding (elems : list Object) :
  Forall (fun v => is_scalar v = true ∧ representable v = true) elems →
  UnmarshalArray (bytes_of (Array_MarshalObject elems)) = Crash.
Proof.
  intros Hwf. rewrite Array_MarshalObject_scalars by exact Hwf. cbn [bytes_of].
  set (enc := concat (map (fun v => bytes_of (MarshalObject v)) elems)).
  unfold UnmarshalArray, Array_UnmarshalObject, Array_UnmarshalObject_with.
  cbn [app length Nat.ltb Nat.leb index lookup list_lookup].
  rewrite (bool_decide_eq_false_2 (ArrayType ≠ ArrayType)) by tauto.
  pose proof (Array_UnmarshalObject_loop_scalars elems [ArrayType] []
                (S (length enc) - length elems) []
                Hwf ltac:(done)) as Hloop.
  fold enc in Hloop. rewrite app_nil_r in Hloop. cbn [app length] in Hloop.
  pose proof (length_scalars_le_encoding elems Hwf) as Hfuel. fold enc in Hfuel.
  replace (length elems + (S (length enc) - length elems))
    with (S (length enc)) in Hloop by lia.
  rewrite Hloop. clear Hloop.
  replace (S (length enc) - length elems)
    with (S (length enc - length elems)) by lia.
  cbn [Array_UnmarshalObject_loop length Nat.ltb Nat.leb].
  unfold index. rewrite lookup_ge_None_2 by (simpl; lia). reflexivity.
Qed.

(** C1 (evaluated on the code).  [Array.MarshalObject] returns the [Array]
    tag followed by the encodings of the elements and stops there: for the
    empty array the tag alone, for [[Int32(1), Int32(2)]] eleven bytes, in
    neither case followed by the byte that encodes [EOF]; the decoder, which
    looks for that byte, runs off the end of the eleven bytes. *)
Theorem Array_MarshalObject_without_EOF :
  Array_MarshalObject [] = Done [ArrayType] ∧
  Array_MarshalObject [OInt32 1; OInt32 2]
  = Done [x09; x03; x00; x00; x00; x01; x03; x00; x00; x00; x02] ∧
  MarshalObject OEOF = Done [x18] ∧
  UnmarshalObject [x09; x03; x00; x00; x00; x01; x03; x00; x00; x00; x02]
  = Crash.
Proof. repeat split; vm_compute; reflexivity. Qed.

(** C4 (evaluated on the code).  On the buffer made of the [Array] tag,
    the encoding of the [Name] ["x"] and the [EOF] byte, array decode
    returns, without error, an array whose only element is that internal
    marker. *)
Theorem Array_decode_keeps_Name_element :
  UnmarshalArray array_with_name = Done (OArray [OName [x78]], 4) ∧
  Array_UnmarshalObject [] array_with_name = ([OName [x78]], Done 4) ∧
  UnmarshalObject array_with_name = Done (OArray [OName [x78]], 4) ∧
  IsInternal (Type_ (OName [x78])) = true.
Proof. repeat split; vm_compute; reflexivity. Qed.

(** Apart from [Bool], the scalar decoders return or fail on every buffer. *)
Lemma scalar_decoders_never_crash (b : list byte) :
  Int64_UnmarshalObject b ≠ Crash ∧ Int32_UnmarshalObject b ≠ Crash ∧
  Float_UnmarshalObject b ≠ Crash ∧ String_UnmarshalObject b ≠ Crash ∧
  Null_UnmarshalObject b ≠ Crash ∧ Char_UnmarshalObject b ≠ Crash ∧
  EOF_UnmarshalObject b ≠ Crash ∧ Name_UnmarshalObject b ≠ Crash.
Proof.
  assert (Hidx : ∀ n, n < length b → ∃ x, index b n = Done x).
  { intros n Hn. unfold index. destruct (lookup_lt_is_Some_2 b n Hn) as [x ->].
    eauto. }
  assert (Hsl : ∀ lo hi, lo ≤ hi → hi ≤ length b → ∃ p, slice b lo hi = Done p).
  { intros lo hi H1 H2. unfold slice.
    apply Nat.leb_le in H1, H2. rewrite H1, H2. simpl. eauto. }
  assert (Hfind : ∀ l i j, find_NullTerm l i = Some j → i ≤ j < i + length l).
  { induction l as [|x l IH]; intros i j H; simpl in H; [done|].
    case_bool_decide; simplify_eq; simpl; [lia|]. apply IH in H. lia. }
  unfold Int64_UnmarshalObject, Int32_UnmarshalObject, Float_UnmarshalObject,
    String_UnmarshalObject, Null_UnmarshalObject, Char_UnmarshalObject,
    EOF_UnmarshalObject, Name_UnmarshalObject.
  repeat split.
  all: match goal with |- context [length ?l <? ?n] =>
         destruct (Nat.ltb_spec (length l) n) as [Hlt|Hge]; [discriminate|] end.
  all: destruct (Hidx 0 ltac:(lia)) as [t ->]; cbn [mbind outcome_bind].
  all: case_bool_decide; [discriminate|].
  all: try discriminate.
  all: try (destruct (Hsl 1 9 ltac:(lia) ltac:(lia)) as [p ->]; discriminate).
  all: try (destruct (Hsl 1 5 ltac:(lia) ltac:(lia)) as [p ->]; discriminate).
  all: try (destruct (Hidx 1 ltac:(lia)) as [c ->]; discriminate).
  all: destruct (find_NullTerm (drop 1 b) 1) as [i|] eqn:Hi; [|discriminate].
  all: apply Hfind in Hi; rewrite length_drop in Hi.
  all: destruct (Hsl 1 i ltac:(lia) ltac:(lia)) as [p ->]; discriminate.
Qed.

(** [Bool.UnmarshalObject] panics exactly on the buffer that holds its tag
    and nothing else. *)
Lemma Bool_UnmarshalObject_Crash (b : list byte) :
  Bool_UnmarshalObject b = Crash ↔ b = [BoolType].
Proof.
  unfold Bool_UnmarshalObject. destruct b as [|t [|v b]]; simpl.
  - split; discriminate.
  - unfold index. simpl. case_bool_decide as Ht; simpl.
    + split; [discriminate|]. intros [= ->]. done.
    + subst t. done.
  - unfold index. simpl. case_bool_decide; simpl; split; discriminate.
Qed.

(** C5 (evaluated on the code).  On the one-byte buffer that holds the
    [Bool] tag, [Bool.UnmarshalObject] indexes [by[1]] and panics instead of
    returning [ErrInvalidLength], which [Char.UnmarshalObject] does return
    on the same shape of input; an [Array] and a [Document] whose stream
    ends without the [EOF] byte panic as well, while a [String] without
    terminator is rejected with [ErrInvalidLength]. *)
Theorem short_buffers_crash :
  Bool_UnmarshalObject [BoolType] = Crash ∧
  UnmarshalObject [BoolType] = Crash ∧
  Char_UnmarshalObject [CharType] = Fail ErrInvalidLength ∧
  UnmarshalArray [ArrayType; NullType] = Crash ∧
  (Document_UnmarshalObject new_document [x0a; x19; x69; x64; x00; x00]).2 = Crash ∧
  UnmarshalObject [StringType; x61; x62] = Fail ErrInvalidLength.
Proof. repeat split; vm_compute; reflexivity. Qed.

(** ** The document wrapper *)

Lemma with_kv_id (d : Document) : with_kv d (kv d) = d.
Proof. destruct d; reflexivity. Qed.

(** C9. On a wrapper whose [static] flag is set, as [NewStaticDocument]
    sets it, [Set] and [Del] fail with [ErrStaticDocument] for every key and
    value and return the wrapper as it was, field map included. *)
Theorem static_document_rejects_mutation (d : Document) (key : Name)
    (value : Object) :
  static d = true →
  Document_Set d key value = (d, Fail ErrStaticDocument) ∧
  Document_Del d key = (d, Fail ErrStaticDocument).
Proof.
  intros Hs. unfold Document_Set, Document_Del. rewrite Hs. split; reflexivity.
Qed.

(** The wrapper that [NewStaticDocument] returns. *)
Lemma static_document_rejects_mutation_witness :
  static (NewStaticDocument None) = true ∧
  Document_Set (NewStaticDocument None) id_key ONull
    = (NewStaticDocument None, Fail ErrStaticDocument) ∧
  Document_Del (NewStaticDocument None) id_key
    = (NewStaticDocument None, Fail ErrStaticDocument).
Proof.
  split; [reflexivity|].
  apply (static_document_rejects_mutation (NewStaticDocument None) id_key ONull).
  reflexivity.
Defined.

(** ** Well-formed streams: full decode and projection *)

Lemma wire_field_inv (f : Name * Object) :
  wire_field f = true →
  NUL_free f.1 = true ∧ is_scalar f.2 = true ∧ representable f.2 = true.
Proof.
  unfold wire_field. intros H.
  apply andb_prop in H as [H H3]. apply andb_prop in H as [H1 H2]. done.
Qed.

Lemma well_formed_fields_Forall (fields : list (Name * Object)) :
  well_formed_fields fields = true →
  Forall (fun f => wire_field f = true) fields.
Proof.
  unfold well_formed_fields. rewrite forallb_forall, Forall_forall.
  intros H f Hf. apply H. apply list_elem_of_In. exact Hf.
Qed.

(** One round of either loop on a well-formed field: the peeked byte is
    the [Name] tag, the key and the value decode, and the cursor ends
    right after the field. *)
Lemma field_step (f : Name * Object) (pre tail : list byte) :
  wire_field f = true →
  let b := pre ++ field_bytes f ++ tail in
  index b (length pre) = Done NameType ∧
  ∃ nameCount countValue,
    (rest ← slice_from b (length pre); Name_UnmarshalObject rest)
      = Done (f.1, nameCount) ∧
    (rest ← slice_from b (length pre + nameCount); UnmarshalObject rest)
      = Done (f.2, countValue) ∧
    length pre + nameCount + countValue = length (pre ++ field_bytes f) ∧
    IsInternal (Type_ f.2) = false.
Proof.
  intros (Hk & Hs & Hr)%wire_field_inv. destruct f as [k v].
  cbn [fst snd] in *. cbv zeta.
  destruct (scalar_decode v Hs Hr) as (vb & Hvb & Hdec).
  set (nb := ([NameType] ++ k) ++ [NullTerm]).
  assert (Hfb : field_bytes (k, v) = nb ++ vb).
  { unfold field_bytes, nb. simpl. rewrite Hvb. reflexivity. }
  assert (Hnb : length nb = length k + 2).
  { unfold nb. rewrite !length_app. simpl. lia. }
  rewrite Hfb. clear Hfb. split.
  - unfold nb. rewrite <- !app_assoc. apply index_app_head.
  - exists (length k + 2), (length vb). repeat split.
    + rewrite slice_from_app. cbn [mbind outcome_bind].
      rewrite <- app_assoc. apply Name_UnmarshalObject_app. exact Hk.
    + rewrite <- Hnb, <- length_app.
      rewrite <- (app_assoc nb vb tail), (app_assoc pre nb).
      rewrite slice_from_app. cbn [mbind outcome_bind]. apply Hdec.
    + rewrite !length_app. lia.
    + apply scalar_not_internal. exact Hs.
Qed.

Lemma Document_UnmarshalObject_loop_stream (fields : list (Name * Object)) :
  ∀ (pre rest : list byte) (fuel : nat) (m : gmap Name Object),
    Forall (fun f => wire_field f = true) fields →
    length fields < fuel →
    Document_UnmarshalObject_loop fuel
      (pre ++ concat (map field_bytes fields) ++ EOFType :: rest)
      (length pre) m
    = Some (insert_fields fields m,
            Done (length pre + length (concat (map field_bytes fields)))).
Proof.
  induction fields as [|f fs IH]; intros pre rest fuel m Hwf Hfuel;
    (destruct fuel as [|fuel]; [simpl in Hfuel; lia|]).
  - simpl. rewrite length_ltb_1_app, index_app_head.
    rewrite bool_decide_eq_true_2 by reflexivity.
    do 3 f_equal. lia.
  - apply Forall_cons in Hwf as [Hf Hfs].
    cbn [map concat]. rewrite <- (app_assoc (field_bytes f)).
    set (tail := concat (map field_bytes fs) ++ EOFType :: rest).
    destruct (field_step f pre tail Hf) as (Hx & nc & vc & Hn & Hv & Hlen & Hint).
    cbn [Document_UnmarshalObject_loop].
    assert (Hlt : (length (pre ++ field_bytes f ++ tail) <? 1) = false).
    { unfold tail. rewrite !app_assoc. apply length_ltb_1_app. }
    rewrite Hlt, Hx.
    rewrite bool_decide_eq_false_2 by discriminate.
    rewrite Hn. cbn zeta. rewrite Hv, Hint, Hlen.
    rewrite (app_assoc pre (field_bytes f) tail). unfold tail.
    rewrite IH by (try done; simpl in Hfuel; lia).
    cbn [insert_fields fold_left]. do 3 f_equal.
    rewrite !length_app. lia.
Qed.

Lemma Document_Project_loop_stream (keys : list (list byte))
    (fields : list (Name * Object)) :
  ∀ (pre rest : list byte) (fuel : nat) (m : gmap Name Object),
    Forall (fun f => wire_field f = true) fields →
    length fields < fuel →
    Document_Project_loop keys fuel
      (pre ++ concat (map field_bytes fields) ++ EOFType :: rest)
      (length pre) m
    = Some (insert_fields (requested keys fields) m,
            Done (length pre + length (concat (map field_bytes fields)))).
Proof.
  induction fields as [|f fs IH]; intros pre rest fuel m Hwf Hfuel;
    (destruct fuel as [|fuel]; [simpl in Hfuel; lia|]).
  - simpl. rewrite length_ltb_1_app, index_app_head.
    rewrite bool_decide_eq_true_2 by reflexivity.
    do 3 f_equal. lia.
  - apply Forall_cons in Hwf as [Hf Hfs].
    cbn [map concat]. rewrite <- (app_assoc (field_bytes f)).
    set (tail := concat (map field_bytes fs) ++ EOFType :: rest).
    destruct (field_step f pre tail Hf) as (Hx & nc & vc & Hn & Hv & Hlen & Hint).
    cbn [Document_Project_loop].
    assert (Hlt : (length (pre ++ field_bytes f ++ tail) <? 1) = false).
    { unfold tail. rewrite !app_assoc. apply length_ltb_1_app. }
    rewrite Hlt, Hx.
    rewrite bool_decide_eq_false_2 by discriminate.
    rewrite Hn. cbn zeta. unfold requested. cbn [List.filter].
    destruct (inKey keys f.1); rewrite Hv, ?Hint, Hlen;
      rewrite (app_assoc pre (field_bytes f) tail); unfold tail;
      (rewrite IH by (try done; simpl in Hfuel; lia));
      cbn [insert_fields fold_left]; do 3 f_equal;
      rewrite !length_app; lia.
Qed.

Lemma length_document_stream (fields : list (Name * Object)) :
  length (document_stream fields)
  = S (S (length (concat (map field_bytes fields)))).
Proof. unfold document_stream. simpl. rewrite length_app. simpl. lia. Qed.

Lemma length_field_bytes (f : Name * Object) : 2 ≤ length (field_bytes f).
Proof.
  unfold field_bytes. simpl. rewrite !length_app. simpl. lia.
Qed.

Lemma length_fields_lt_stream (fields : list (Name * Object)) :
  length fields < length (document_stream fields).
Proof.
  rewrite length_document_stream.
  induction fields as [|f fs IH]; simpl; [lia|].
  rewrite length_app. pose proof (length_field_bytes f). lia.
Qed.

(** Full decode of a well-formed stream. *)
Lemma Document_UnmarshalObject_stream (d : Document)
    (fields : list (Name * Object)) :
  Forall (fun f => wire_field f = true) fields →
  Document_UnmarshalObject d (document_stream fields)
  = (with_kv d (insert_fields fields (kv d)),
     match insert_fields fields (kv d) !! id_key with
     | None => Fail ErrInvalidDocument
     | Some _ => Done (length (document_stream fields) - 1)
     end).
Proof.
  intros Hwf. unfold Document_UnmarshalObject.
  pose proof (length_fields_lt_stream fields) as Hfuel.
  rewrite length_document_stream in *.
  unfold document_stream. cbn [app length Nat.ltb Nat.leb index lookup list_lookup].
  change (bool_decide (DocumentType ≠ Document_Type d)) with false. cbv iota.
  pose proof (Document_UnmarshalObject_loop_stream fields [DocumentType] []
                (S (S (length (concat (map field_bytes fields)))))
                (kv d) Hwf Hfuel) as Hloop.
  cbn [app length] in Hloop. rewrite Hloop.
  destruct (insert_fields fields (kv d) !! id_key); repeat f_equal; lia.
Qed.

Lemma Document_Project_stream (d : Document) (keys : list (list byte))
    (fields : list (Name * Object)) :
  Forall (fun f => wire_field f = true) fields →
  keys ≠ [] →
  Document_Project d (document_stream fields) keys
  = (with_kv d (insert_fields (requested keys fields) (kv d)),
     Done (length (document_stream fields) - 1)).
Proof.
  intros Hwf Hkeys. unfold Document_Project.
  destruct keys as [|key keys]; [done|]. cbn [length Nat.ltb Nat.leb].
  pose proof (length_fields_lt_stream fields) as Hfuel.
  rewrite length_document_stream in *.
  unfold document_stream. cbn [app length Nat.ltb Nat.leb index lookup list_lookup].
  change (bool_decide (DocumentType ≠ Document_Type d)) with false. cbv iota.
  pose proof (Document_Project_loop_stream (key :: keys) fields [DocumentType] []
                (S (S (length (concat (map field_bytes fields)))))
                (kv d) Hwf Hfuel) as Hloop.
  cbn [app length] in Hloop. rewrite Hloop.
  repeat f_equal; lia.
Qed.

Lemma insert_fields_lacks_key (key : Name) (fields : list (Name * Object))
    (m : gmap Name Object) :
  lacks_key key fields = true → insert_fields fields m !! key = m !! key.
Proof.
  revert m. induction fields as [|f fs IH]; intros m H; [done|].
  simpl in H. apply andb_prop in H as [Hf Hfs].
  apply negb_true_iff, bool_decide_eq_false in Hf.
  cbn [insert_fields fold_left]. fold (insert_fields fs (<[f.1:=f.2]> m)).
  rewrite IH by exact Hfs. apply lookup_insert_ne. exact Hf.
Qed.

(** What [insert_fields] binds at a key depends on the map only through
    that key. *)
Lemma insert_fields_lookup_ext (fields : list (Name * Object))
    (m1 m2 : gmap Name Object) (k : Name) :
  m1 !! k = m2 !! k →
  insert_fields fields m1 !! k = insert_fields fields m2 !! k.
Proof.
  revert m1 m2. induction fields as [|f fs IH]; intros m1 m2 H; [exact H|].
  cbn [insert_fields fold_left]. apply IH.
  destruct (decide (f.1 = k)) as [->|Hne].
  - rewrite !lookup_insert_eq. reflexivity.
  - rewrite !lookup_insert_ne by exact Hne. exact H.
Qed.

(** Projection inserts exactly the requested fields: at a requested key
    the map reads as after a full decode, at any other key as before. *)
Lemma insert_fields_requested (keys : list (list byte))
    (fields : list (Name * Object)) (m : gmap Name Object) (k : Name) :
  insert_fields (requested keys fields) m !! k
  = if inKey keys k then insert_fields fields m !! k else m !! k.
Proof.
  revert m. induction fields as [|f fs IH]; intros m.
  - simpl. destruct (inKey keys k); reflexivity.
  - unfold requested. cbn [List.filter]. fold (requested keys fs).
    destruct (inKey keys f.1) eqn:Hf.
    + cbn [insert_fields fold_left].
      fold (insert_fields (requested keys fs) (<[f.1:=f.2]> m)).
      fold (insert_fields fs (<[f.1:=f.2]> m)).
      rewrite IH. destruct (inKey keys k) eqn:Hk; [reflexivity|].
      apply lookup_insert_ne. intros Heq. rewrite Heq in Hf. congruence.
    + rewrite IH. cbn [insert_fields fold_left].
      fold (insert_fields fs (<[f.1:=f.2]> m)).
      destruct (inKey keys k) eqn:Hk; [|reflexivity].
      apply insert_fields_lookup_ext. symmetry.
      apply lookup_insert_ne. intros Heq. rewrite Heq in Hf. congruence.
Qed.

(** C3 (evaluated on the code).  The document [{id: Int64(1)}] encodes to
    fifteen bytes; projecting ["id"] out of them inserts that field and
    returns fourteen, the offset of the [EOF] byte, as the full decode
    does: one less than the length of the encoding. *)
Theorem Project_count_stops_before_EOF :
  Document_MarshalObject doc_id_1
  = Done [x0a; x19; x69; x64; x00;
          x02; x00; x00; x00; x00; x00; x00; x00; x01; x18] ∧
  (Document_Project new_document
     [x0a; x19; x69; x64; x00;
      x02; x00; x00; x00; x00; x00; x00; x00; x01; x18] [id_key]).2 = Done 14 ∧
  kv (Document_Project new_document
        [x0a; x19; x69; x64; x00;
         x02; x00; x00; x00; x00; x00; x00; x00; x01; x18] [id_key]).1
  = {[ id_key := OInt64 1 ]} ∧
  (Document_UnmarshalObject new_document
     [x0a; x19; x69; x64; x00;
      x02; x00; x00; x00; x00; x00; x00; x00; x01; x18]).2 = Done 14.
Proof. repeat split; vm_compute; reflexivity. Qed.

(** ** Decode failures *)

(** The loop leaves in the map the fields it decoded, whatever its
    outcome. *)
Lemma Document_UnmarshalObject_loop_fields (fuel : nat) (b : list byte) :
  ∀ (count : nat) (m m' : gmap Name Object) (r : outcome nat),
    Document_UnmarshalObject_loop fuel b count m = Some (m', r) →
    m' = insert_fields (Document_UnmarshalObject_fields fuel b count) m.
Proof.
  induction fuel as [|fuel IH]; intros count m m' r H; [done|].
  cbn [Document_UnmarshalObject_loop Document_UnmarshalObject_fields] in *.
  destruct (length b <? 1) eqn:Hlen.
  { apply Nat.ltb_lt in Hlen. destruct b; [|simpl in Hlen; lia].
    simplify_eq. reflexivity. }
  destruct (index b count) as [x| |]; simplify_eq; try done.
  destruct (bool_decide (x = EOFType)); simplify_eq; [done|].
  destruct (rest ← slice_from b count; Name_UnmarshalObject rest)
    as [[name nc]| |]; simplify_eq; try done.
  cbn zeta in H.
  destruct (rest ← slice_from b (count + nc); UnmarshalObject rest)
    as [[v vc]| |]; simplify_eq; try done.
  destruct (IsInternal (Type_ v)); simplify_eq; [done|].
  apply IH in H. exact H.
Qed.

(** Whatever the outcome, the wrapper ends with the decoded fields inserted. *)
Lemma Document_UnmarshalObject_state (d : Document) (b : list byte) :
  (Document_UnmarshalObject d b).1
  = with_kv d (insert_fields (decoded_fields b) (kv d)).
Proof.
  unfold Document_UnmarshalObject, decoded_fields.
  destruct b as [|t b']; [symmetry; apply with_kv_id|].
  cbn [length Nat.ltb Nat.leb index lookup list_lookup].
  change (Document_Type d) with DocumentType.
  destruct (decide (t = DocumentType)) as [->|Ht].
  - rewrite (bool_decide_eq_false_2 (DocumentType ≠ DocumentType)) by tauto.
    rewrite bool_decide_eq_true_2 by reflexivity.
    destruct (Document_UnmarshalObject_loop_fuel (S (length b'))
                (DocumentType :: b') 1 (kv d)) as [[m r] Hl];
      [simpl; lia|].
    rewrite Hl. apply Document_UnmarshalObject_loop_fields in Hl. subst m.
    destruct r; [destruct (_ !! id_key)|..]; reflexivity.
  - rewrite (bool_decide_eq_true_2 (t ≠ DocumentType)) by exact Ht.
    rewrite bool_decide_eq_false_2 by exact Ht.
    symmetry. apply with_kv_id.
Qed.

Lemma Document_UnmarshalObject_fields_stream (fields : list (Name * Object)) :
  ∀ (pre rest : list byte) (fuel : nat),
    Forall (fun f => wire_field f = true) fields →
    length fields < fuel →
    Document_UnmarshalObject_fields fuel
      (pre ++ concat (map field_bytes fields) ++ EOFType :: rest) (length pre)
    = fields.
Proof.
  induction fields as [|f fs IH]; intros pre rest fuel Hwf Hfuel;
    (destruct fuel as [|fuel]; [simpl in Hfuel; lia|]).
  - simpl. rewrite index_app_head.
    rewrite bool_decide_eq_true_2 by reflexivity. reflexivity.
  - apply Forall_cons in Hwf as [Hf Hfs].
    cbn [map concat]. rewrite <- (app_assoc (field_bytes f)).
    set (tail := concat (map field_bytes fs) ++ EOFType :: rest).
    destruct (field_step f pre tail Hf) as (Hx & nc & vc & Hn & Hv & Hlen & Hint).
    cbn [Document_UnmarshalObject_fields].
    rewrite Hx. rewrite bool_decide_eq_false_2 by discriminate.
    rewrite Hn, Hv, Hint, Hlen.
    rewrite (app_assoc pre (field_bytes f) tail). unfold tail.
    rewrite IH by (try done; simpl in Hfuel; lia).
    destruct f; reflexivity.
Qed.

(** On a well-formed stream the decoded fields are the fields of the
    stream. *)
Lemma decoded_fields_stream (fields : list (Name * Object)) :
  well_formed_fields fields = true →
  decoded_fields (document_stream fields) = fields.
Proof.
  intros Hwf%well_formed_fields_Forall. unfold decoded_fields, document_stream.
  cbn [app]. rewrite bool_decide_eq_true_2 by reflexivity.
  apply (Document_UnmarshalObject_fields_stream fields [DocumentType] []);
    [exact Hwf|].
  pose proof (length_fields_lt_stream fields) as H.
  unfold document_stream in H. exact H.
Qed.

(** C2, counterexample.  The buffer holds [id: Null] and then a field
    whose value has an unknown tag: decoding it into a new wrapper fails
    with [ErrInvalidType] and leaves ["id"] bound in the field map, which
    was empty before the call. *)
Lemma Deserialize_not_atomic :
  (Document_UnmarshalObject new_document truncated_after_id).2 = Fail ErrInvalidType ∧
  kv (Document_UnmarshalObject new_document truncated_after_id).1 !! id_key = Some ONull ∧
  kv new_document !! id_key = None ∧
  kv (Document_UnmarshalObject new_document truncated_after_id).1 ≠ kv new_document.
Proof.
  assert (H : kv (Document_UnmarshalObject new_document truncated_after_id).1 !! id_key
              = Some ONull) by (vm_compute; reflexivity).
  repeat split; try (vm_compute; reflexivity).
  intros Heq. rewrite Heq in H. discriminate H.
Qed.

(** C2, amended.  When [Deserialize] returns an error, the field map is
    the map before the call with the fields decoded before the failure
    inserted; the wrapper is unchanged when no field was decoded before the
    failure. *)
Theorem Deserialize_error_keeps_decoded_fields (d : Document) (b : list byte)
    (e : error) :
  (Document_UnmarshalObject d b).2 = Fail e →
  (Document_UnmarshalObject d b).1
    = with_kv d (insert_fields (decoded_fields b) (kv d)) ∧
  (decoded_fields b = [] → (Document_UnmarshalObject d b).1 = d).
Proof.
  intros _. split; [apply Document_UnmarshalObject_state|].
  intros Hnil. rewrite Document_UnmarshalObject_state, Hnil. apply with_kv_id.
Qed.

(** The failing decode of the counterexample. *)
Lemma Deserialize_error_keeps_decoded_fields_witness :
  (Document_UnmarshalObject new_document truncated_after_id).2 = Fail ErrInvalidType ∧
  (Document_UnmarshalObject new_document truncated_after_id).1
    = with_kv new_document (insert_fields (decoded_fields truncated_after_id) (kv new_document)) ∧
  (decoded_fields truncated_after_id = [] →
   (Document_UnmarshalObject new_document truncated_after_id).1 = new_document).
Proof.
  split; [reflexivity|].
  apply (Deserialize_error_keeps_decoded_fields new_document truncated_after_id
           ErrInvalidType).
  reflexivity.
Defined.

(** ** Streams with an array value *)

Lemma UnmarshalObject_Name (b : list byte) :
  UnmarshalObject (NameType :: b) = UnmarshalName (NameType :: b).
Proof. reflexivity. Qed.

(** An item that is no array tag decodes to itself, whatever follows. *)
Lemma wire_item_decode (v : Object) :
  wire_item v = true → (∀ a, v ≠ OArray a) →
  ∃ t tl, MarshalObject v = Done (t :: tl) ∧ t ≠ EOFType ∧
          ∀ rest, UnmarshalObject ((t :: tl) ++ rest) = Done (v, length (t :: tl)).
Proof.
  intros Hw Ha.
  destruct (is_scalar v) eqn:Hs.
  - assert (Hr : representable v = true).
    { destruct v; try discriminate Hs; cbn [wire_item is_scalar andb] in Hw;
        exact Hw. }
    destruct (scalar_decode v Hs Hr) as (vb & Hvb & Hdec).
    destruct (scalar_bytes_head v Hs) as (tl & Htl).
    rewrite Hvb in Htl. injection Htl as ->.
    exists (Type_ v), tl. split; [exact Hvb|]. split; [|exact Hdec].
    destruct v; try discriminate Hs; discriminate.
  - destruct v as [i|i|f|s|x| |c| |n|a|t]; try discriminate Hs;
      try discriminate Hw.
    + exists NameType, (n ++ [NullTerm]). split; [reflexivity|].
      split; [discriminate|]. intros rest.
      rewrite <- app_comm_cons, UnmarshalObject_Name. unfold UnmarshalName.
      rewrite (app_comm_cons (n ++ [NullTerm]) rest NameType).
      change (NameType :: n ++ [NullTerm]) with (([NameType] ++ n) ++ [NullTerm]).
      rewrite Name_UnmarshalObject_app by exact Hw.
      cbn [mbind outcome_bind]. do 2 f_equal.
      rewrite !length_app. simpl. lia.
    + by destruct (Ha a).
Qed.

Lemma length_items_le_bytes (items : list Object) :
  Forall (fun v => wire_item v = true) items →
  length items ≤ length (items_bytes items).
Proof.
  unfold items_bytes.
  induction 1 as [|v items Hv _ IH]; [simpl; lia|].
  cbn [map concat length]. rewrite length_app.
  assert (1 ≤ length (bytes_of (MarshalObject v))); [|lia].
  destruct v as [i|i|f|s|x| |c| |n|[|e a]|t]; try discriminate Hv;
    simpl; rewrite ?length_app; simpl; lia.
Qed.

(** The array loop over a run of items closed by the [EOF] byte. *)
Lemma Array_UnmarshalObject_loop_items (items : list Object) :
  ∀ (pre tail : list byte) (fuel : nat) (a : list Object),
    Forall (fun v => wire_item v = true) items →
    pre ≠ [] →
    length items < fuel →
    Array_UnmarshalObject_loop (fun rest => Some (UnmarshalObject rest)) fuel
      (pre ++ items_bytes items ++ EOFType :: tail) (length pre) a
    = Some (a ++ read_items items,
            Done (length pre + length (items_bytes items))).
Proof.
  induction items as [|v items IH]; intros pre tail fuel a Hwf Hpre Hfuel;
    (destruct fuel as [|fuel]; [simpl in Hfuel; lia|]).
  - cbn [items_bytes map concat app read_items Array_UnmarshalObject_loop].
    rewrite length_ltb_1_app, index_app_head.
    rewrite bool_decide_eq_true_2 by reflexivity.
    rewrite app_nil_r. do 3 f_equal. simpl. lia.
  - apply Forall_cons in Hwf as [Hv Hwf].
    assert (Hlen : ∀ l, (length (pre ++ l) <? 1) = false).
    { intros l. apply Nat.ltb_ge. rewrite length_app. destruct pre; [done|simpl; lia]. }
    destruct v as [i|i|f|s|x| |c| |n|[|e arr]|t] eqn:Ev;
      try discriminate Hv.
    9: {
      (* the tag of a nested array *)
      change (items_bytes (OArray [] :: items)) with ([ArrayType] ++ items_bytes items).
      cbn [Array_UnmarshalObject_loop read_items].
      rewrite Hlen. rewrite <- (app_assoc [ArrayType]). cbn [app].
      rewrite index_app_head.
      rewrite bool_decide_eq_false_2 by discriminate.
      rewrite slice_from_app, UnmarshalObject_Array.
      unfold UnmarshalArray, Array_UnmarshalObject, Array_UnmarshalObject_with.
      cbn [length Nat.ltb Nat.leb index lookup list_lookup].
      rewrite (bool_decide_eq_false_2 (ArrayType ≠ ArrayType)) by tauto.
      pose proof (length_items_le_bytes items Hwf) as Hle.
      rewrite (IH [ArrayType] tail _ [] Hwf ltac:(done)).
      2: { rewrite length_app. simpl. lia. }
      cbn [app length].
      destruct fuel as [|fuel]; [simpl in Hfuel; lia|].
      cbn [Array_UnmarshalObject_loop].
      change (pre ++ ArrayType :: items_bytes items ++ EOFType :: tail)
        with (pre ++ [ArrayType] ++ items_bytes items ++ EOFType :: tail).
      rewrite !app_assoc. rewrite <- (app_assoc pre).
      rewrite length_ltb_1_app.
      replace (length pre + length (items_bytes (OArray [] :: items)))
        with (length pre + (1 + length (items_bytes items))) by reflexivity.
      replace (length pre + (1 + length (items_bytes items)))
        with (length (pre ++ [ArrayType] ++ items_bytes items))
        by (rewrite !length_app; simpl; lia).
      rewrite index_app_head.
      rewrite bool_decide_eq_true_2 by reflexivity.
      do 3 f_equal. rewrite !length_app. simpl. lia. }
    all: destruct (wire_item_decode v) as (t0 & tl & Hvb & Ht & Hdec);
      [subst v; exact Hv|subst v; discriminate|].
    all: rewrite <- Ev.
    all: change (items_bytes (v :: items))
           with (bytes_of (MarshalObject v) ++ items_bytes items).
    all: rewrite Hvb; cbn [bytes_of].
    all: replace (read_items (v :: items)) with (v :: read_items items)
           by (subst v; reflexivity).
    all: clear Ev Hv.
    all: cbn [Array_UnmarshalObject_loop].
    all: rewrite Hlen, <- (app_assoc (t0 :: tl)), <- (app_comm_cons tl _ t0).
    all: rewrite index_app_head.
    all: rewrite bool_decide_eq_false_2 by exact Ht.
    all: rewrite slice_from_app.
    all: rewrite (app_comm_cons tl _ t0), Hdec.
    all: replace (length pre + length (t0 :: tl))
           with (length (pre ++ t0 :: tl)) by (rewrite length_app; reflexivity).
    all: rewrite (app_assoc pre (t0 :: tl)).
    all: rewrite IH; [|exact Hwf|by destruct pre|simpl in Hfuel; lia].
    all: rewrite <- (app_assoc a [v]); rewrite !length_app.
    all: cbn [app]; do 3 f_equal; lia.
Qed.

(** An array value closed by the [EOF] byte, through the generic decoder. *)
Lemma UnmarshalObject_items (items : list Object) (tail : list byte) :
  Forall (fun v => wire_item v = true) items →
  UnmarshalObject ([ArrayType] ++ items_bytes items ++ EOFType :: tail)
  = Done (OArray (read_items items), length ([ArrayType] ++ items_bytes items)).
Proof.
  intros Hwf. cbn [app]. rewrite UnmarshalObject_Array.
  unfold UnmarshalArray, Array_UnmarshalObject, Array_UnmarshalObject_with.
  cbn [length Nat.ltb Nat.leb index lookup list_lookup].
  rewrite (bool_decide_eq_false_2 (ArrayType ≠ ArrayType)) by tauto.
  pose proof (length_items_le_bytes items Hwf) as Hle.
  rewrite (Array_UnmarshalObject_loop_items items [ArrayType] tail _ [] Hwf ltac:(done)).
  2: { rewrite length_app. simpl. lia. }
  reflexivity.
Qed.

Lemma wire_stream_document_stream (fields : list (Name * Object)) :
  wire_stream fields None [] = document_stream fields.
Proof. reflexivity. Qed.

(** The encoding of a wrapper whose last field in key order holds an
    array of scalars is such a stream, and the array of a run of scalars is
    that run. *)
Lemma wire_stream_array_last (fields : list (Name * Object)) (k : Name)
    (elems : list Object) :
  Forall (fun v => is_scalar v = true ∧ representable v = true) elems →
  document_stream (fields ++ [(k, OArray elems)])
  = wire_stream fields (Some (k, elems)) [] ∧
  read_items elems = elems.
Proof.
  intros Hwf. split.
  - unfold document_stream, wire_stream. rewrite map_app, concat_app.
    cbn [map concat array_field_bytes]. rewrite app_nil_r.
    unfold field_bytes at 2. cbn [fst snd].
    change (MarshalObject (OArray elems)) with (Array_MarshalObject elems).
    rewrite Array_MarshalObject_scalars by exact Hwf.
    cbn [bytes_of]. unfold items_bytes. rewrite <- !app_assoc. reflexivity.
  - induction Hwf as [|v elems [Hs _] _ IH]; [reflexivity|].
    destruct v; try discriminate Hs; cbn [read_items]; by rewrite IH.
Qed.

Lemma insert_fields_app (f1 f2 : list (Name * Object)) (m : gmap Name Object) :
  insert_fields (f1 ++ f2) m = insert_fields f2 (insert_fields f1 m).
Proof. unfold insert_fields. apply fold_left_app. Qed.

Lemma requested_app (keys : list (list byte)) (f1 f2 : list (Name * Object)) :
  requested keys (f1 ++ f2) = requested keys f1 ++ requested keys f2.
Proof. unfold requested. apply List.filter_app. Qed.

(** Either loop over fields with scalar values, whatever follows them. *)
Lemma Document_UnmarshalObject_loop_prefix (fields : list (Name * Object)) :
  ∀ (pre tail : list byte) (fuel : nat) (m : gmap Name Object),
    Forall (fun f => wire_field f = true) fields →
    pre ≠ [] →
    Document_UnmarshalObject_loop (length fields + fuel)
      (pre ++ concat (map field_bytes fields) ++ tail) (length pre) m
    = Document_UnmarshalObject_loop fuel
        (pre ++ concat (map field_bytes fields) ++ tail)
        (length pre + length (concat (map field_bytes fields)))
        (insert_fields fields m).
Proof.
  induction fields as [|f fs IH]; intros pre tail fuel m Hwf Hpre.
  - simpl. rewrite Nat.add_0_r. reflexivity.
  - apply Forall_cons in Hwf as [Hf Hfs].
    cbn [map concat length Nat.add]. rewrite <- (app_assoc (field_bytes f)).
    set (rest := concat (map field_bytes fs) ++ tail).
    destruct (field_step f pre rest Hf) as (Hx & nc & vc & Hn & Hv & Hlen & Hint).
    cbn [Document_UnmarshalObject_loop].
    assert (Hlt : (length (pre ++ field_bytes f ++ rest) <? 1) = false).
    { apply Nat.ltb_ge. rewrite length_app. destruct pre; [done|simpl; lia]. }
    rewrite Hlt, Hx.
    rewrite bool_decide_eq_false_2 by discriminate.
    rewrite Hn. cbn zeta. rewrite Hv, Hint, Hlen.
    rewrite (app_assoc pre (field_bytes f) rest). unfold rest.
    rewrite IH; [|exact Hfs|by destruct pre].
    cbn [insert_fields fold_left]. f_equal.
    rewrite !length_app. lia.
Qed.

Lemma Document_Project_loop_prefix (keys : list (list byte))
    (fields : list (Name * Object)) :
  ∀ (pre tail : list byte) (fuel : nat) (m : gmap Name Object),
    Forall (fun f => wire_field f = true) fields →
    pre ≠ [] →
    Document_Project_loop keys (length fields + fuel)
      (pre ++ concat (map field_bytes fields) ++ tail) (length pre) m
    = Document_Project_loop keys fuel
        (pre ++ concat (map field_bytes fields) ++ tail)
        (length pre + length (concat (map field_bytes fields)))
        (insert_fields (requested keys fields) m).
Proof.
  induction fields as [|f fs IH]; intros pre tail fuel m Hwf Hpre.
  - simpl. rewrite Nat.add_0_r. reflexivity.
  - apply Forall_cons in Hwf as [Hf Hfs].
    cbn [map concat length Nat.add]. rewrite <- (app_assoc (field_bytes f)).
    set (rest := concat (map field_bytes fs) ++ tail).
    destruct (field_step f pre rest Hf) as (Hx & nc & vc & Hn & Hv & Hlen & Hint).
    cbn [Document_Project_loop].
    assert (Hlt : (length (pre ++ field_bytes f ++ rest) <? 1) = false).
    { apply Nat.ltb_ge. rewrite length_app. destruct pre; [done|simpl; lia]. }
    rewrite Hlt, Hx.
    rewrite bool_decide_eq_false_2 by discriminate.
    rewrite Hn. cbn zeta. unfold requested. cbn [List.filter].
    destruct (inKey keys f.1); rewrite Hv, ?Hint, Hlen;
      rewrite (app_assoc pre (field_bytes f) rest); unfold rest;
      (rewrite IH; [|exact Hfs|by destruct pre]);
      cbn [insert_fields fold_left]; f_equal;
      rewrite !length_app; lia.
Qed.

(** One round of either loop on a field with an array value, closed by
    the [EOF] byte. *)
Lemma array_field_step (k : Name) (items : list Object) (pre trailing : list byte) :
  NUL_free k = true →
  Forall (fun v => wire_item v = true) items →
  let b := pre ++ array_field_bytes (Some (k, items)) ++ EOFType :: trailing in
  index b (length pre) = Done NameType ∧
  ∃ nameCount countValue,
    (rest ← slice_from b (length pre); Name_UnmarshalObject rest)
      = Done (k, nameCount) ∧
    (rest ← slice_from b (length pre + nameCount); UnmarshalObject rest)
      = Done (OArray (read_items items), countValue) ∧
    length pre + nameCount + countValue
      = length (pre ++ array_field_bytes (Some (k, items))) ∧
    index b (length pre + nameCount + countValue) = Done EOFType.
Proof.
  intros Hk Hwf. cbv zeta. cbn [array_field_bytes MarshalObject Name_MarshalObject bytes_of].
  set (nb := ([NameType] ++ k) ++ [NullTerm]).
  set (vb := [ArrayType] ++ items_bytes items).
  assert (Hnb : length nb = length k + 2).
  { unfold nb. rewrite !length_app. simpl. lia. }
  split.
  - unfold nb. rewrite <- !app_assoc. apply index_app_head.
  - exists (length k + 2), (length vb). split; [|split; [|split]].
    + rewrite slice_from_app. cbn [mbind outcome_bind].
      rewrite <- (app_assoc nb vb).
      apply Name_UnmarshalObject_app. exact Hk.
    + rewrite <- Hnb, <- length_app.
      rewrite <- (app_assoc nb vb), (app_assoc pre nb).
      rewrite slice_from_app. cbn [mbind outcome_bind].
      unfold vb. rewrite <- app_assoc.
      apply UnmarshalObject_items. exact Hwf.
    + rewrite !length_app. lia.
    + replace (length pre + (length k + 2) + length vb)
        with (length (pre ++ nb ++ vb)) by (rewrite !length_app; lia).
      rewrite (app_assoc pre (nb ++ vb)). apply index_app_head.
Qed.

Lemma well_formed_array_field_inv (k : Name) (items : list Object) :
  well_formed_array_field (Some (k, items)) = true →
  NUL_free k = true ∧ Forall (fun v => wire_item v = true) items.
Proof.
  cbn [well_formed_array_field]. intros [Hk Hi]%andb_prop. split; [exact Hk|].
  rewrite forallb_forall in Hi. apply Forall_forall. intros v Hv.
  apply Hi, list_elem_of_In, Hv.
Qed.

(** The end of a stream: the field with an array value, if any, and the
    [EOF] byte. *)
Lemma Document_UnmarshalObject_loop_end (arr : option (Name * list Object))
    (pre trailing : list byte) (fuel : nat) (m : gmap Name Object) :
  well_formed_array_field arr = true →
  pre ≠ [] →
  Document_UnmarshalObject_loop (S (S fuel))
    (pre ++ array_field_bytes arr ++ EOFType :: trailing) (length pre) m
  = Some (insert_fields (read_fields [] arr) m,
          Done (length pre + length (array_field_bytes arr))).
Proof.
  intros Hwf Hpre.
  assert (Hlt : ∀ l, (length (pre ++ l) <? 1) = false).
  { intros l. apply Nat.ltb_ge. rewrite length_app. destruct pre; [done|simpl; lia]. }
  destruct arr as [[k items]|].
  - apply well_formed_array_field_inv in Hwf as [Hk Hi].
    destruct (array_field_step k items pre trailing Hk Hi)
      as (Hx & nc & vc & Hn & Hv & Hlen & Heof).
    cbn zeta in *. cbn [Document_UnmarshalObject_loop].
    rewrite Hlt, Hx. rewrite bool_decide_eq_false_2 by discriminate.
    rewrite Hn. cbn zeta. rewrite Hv. cbn [Type_].
    change (IsInternal ArrayType) with false. cbv iota.
    rewrite Heof. rewrite bool_decide_eq_true_2 by reflexivity.
    rewrite Hlen, length_app. reflexivity.
  - cbn [array_field_bytes app read_fields insert_fields fold_left length].
    cbn [Document_UnmarshalObject_loop].
    rewrite Hlt, index_app_head. rewrite bool_decide_eq_true_2 by reflexivity.
    do 3 f_equal. lia.
Qed.

Lemma Document_Project_loop_end (keys : list (list byte))
    (arr : option (Name * list Object))
    (pre trailing : list byte) (fuel : nat) (m : gmap Name Object) :
  well_formed_array_field arr = true →
  pre ≠ [] →
  Document_Project_loop keys (S (S fuel))
    (pre ++ array_field_bytes arr ++ EOFType :: trailing) (length pre) m
  = Some (insert_fields (requested keys (read_fields [] arr)) m,
          Done (length pre + length (array_field_bytes arr))).
Proof.
  intros Hwf Hpre.
  assert (Hlt : ∀ l, (length (pre ++ l) <? 1) = false).
  { intros l. apply Nat.ltb_ge. rewrite length_app. destruct pre; [done|simpl; lia]. }
  destruct arr as [[k items]|].
  - apply well_formed_array_field_inv in Hwf as [Hk Hi].
    destruct (array_field_step k items pre trailing Hk Hi)
      as (Hx & nc & vc & Hn & Hv & Hlen & Heof).
    cbn zeta in *. cbn [Document_Project_loop].
    rewrite Hlt, Hx. rewrite bool_decide_eq_false_2 by discriminate.
    rewrite Hn. cbn zeta. rewrite Hv. cbn [Type_].
    change (IsInternal ArrayType) with false. cbv iota.
    unfold requested. cbn [read_fields app List.filter fst].
    destruct (inKey keys k); rewrite Heof;
      rewrite bool_decide_eq_true_2 by reflexivity;
      rewrite Hlen, length_app; reflexivity.
  - cbn [array_field_bytes app read_fields insert_fields fold_left length].
    cbn [Document_Project_loop].
    rewrite Hlt, index_app_head. rewrite bool_decide_eq_true_2 by reflexivity.
    do 3 f_equal. lia.
Qed.

Lemma length_fields_le_bytes (fields : list (Name * Object)) :
  length fields ≤ length (concat (map field_bytes fields)).
Proof.
  induction fields as [|f fs IH]; simpl; [lia|].
  rewrite length_app. pose proof (length_field_bytes f). lia.
Qed.

Lemma length_wire_stream (fields : list (Name * Object))
    (arr : option (Name * list Object)) (trailing : list byte) :
  length (wire_stream fields arr trailing)
  = S (length (concat (map field_bytes fields)) + length (array_field_bytes arr)
       + S (length trailing)).
Proof. unfold wire_stream. rewrite !length_app. simpl. lia. Qed.

(** Full decode of a stream: the fields are bound as they are read, and
    the count is the offset of the first [EOF] byte. *)
Lemma Document_UnmarshalObject_wire_stream (d : Document)
    (fields : list (Name * Object)) (arr : option (Name * list Object))
    (trailing : list byte) :
  Forall (fun f => wire_field f = true) fields →
  well_formed_array_field arr = true →
  Document_UnmarshalObject d (wire_stream fields arr trailing)
  = (with_kv d (insert_fields (read_fields fields arr) (kv d)),
     match insert_fields (read_fields fields arr) (kv d) !! id_key with
     | None => Fail ErrInvalidDocument
     | Some _ => Done (length (wire_stream fields arr []) - 1)
     end).
Proof.
  intros Hwf Harr. unfold Document_UnmarshalObject.
  rewrite !length_wire_stream.
  pose proof (length_fields_le_bytes fields) as Hle.
  unfold wire_stream. cbn [app length Nat.ltb Nat.leb index lookup list_lookup].
  change (bool_decide (DocumentType ≠ Document_Type d)) with false. cbv iota.
  replace (S (length (concat (map field_bytes fields))
              + length (array_field_bytes arr) + S (length trailing)))
    with (length fields
          + S (S (length (concat (map field_bytes fields)) - length fields
                  + length (array_field_bytes arr) + length trailing)))
    by lia.
  change (DocumentType
          :: concat (map field_bytes fields) ++ array_field_bytes arr
             ++ EOFType :: trailing)
    with ([DocumentType] ++ concat (map field_bytes fields)
          ++ array_field_bytes arr ++ EOFType :: trailing).
  rewrite (Document_UnmarshalObject_loop_prefix fields [DocumentType]) by done.
  rewrite (app_assoc [DocumentType]).
  replace (length [DocumentType] + length (concat (map field_bytes fields)))
    with (length ([DocumentType] ++ concat (map field_bytes fields)))
    by (rewrite length_app; reflexivity).
  rewrite Document_UnmarshalObject_loop_end by done.
  rewrite <- insert_fields_app. change (fields ++ read_fields [] arr)
    with (read_fields fields arr).
  destruct (insert_fields (read_fields fields arr) (kv d) !! id_key);
    repeat f_equal; rewrite !length_app; simpl; lia.
Qed.

Lemma Document_Project_wire_stream (d : Document) (keys : list (list byte))
    (fields : list (Name * Object)) (arr : option (Name * list Object))
    (trailing : list byte) :
  Forall (fun f => wire_field f = true) fields →
  well_formed_array_field arr = true →
  keys ≠ [] →
  Document_Project d (wire_stream fields arr trailing) keys
  = (with_kv d (insert_fields (requested keys (read_fields fields arr)) (kv d)),
     Done (length (wire_stream fields arr []) - 1)).
Proof.
  intros Hwf Harr Hkeys. unfold Document_Project.
  destruct keys as [|key keys]; [done|]. cbn [length Nat.ltb Nat.leb].
  rewrite !length_wire_stream.
  pose proof (length_fields_le_bytes fields) as Hle.
  unfold wire_stream. cbn [app length Nat.ltb Nat.leb index lookup list_lookup].
  change (bool_decide (DocumentType ≠ Document_Type d)) with false. cbv iota.
  replace (S (length (concat (map field_bytes fields))
              + length (array_field_bytes arr) + S (length trailing)))
    with (length fields
          + S (S (length (concat (map field_bytes fields)) - length fields
                  + length (array_field_bytes arr) + length trailing)))
    by lia.
  change (DocumentType
          :: concat (map field_bytes fields) ++ array_field_bytes arr
             ++ EOFType :: trailing)
    with ([DocumentType] ++ concat (map field_bytes fields)
          ++ array_field_bytes arr ++ EOFType :: trailing).
  rewrite (Document_Project_loop_prefix (key :: keys) fields [DocumentType]) by done.
  rewrite (app_assoc [DocumentType]).
  replace (length [DocumentType] + length (concat (map field_bytes fields)))
    with (length ([DocumentType] ++ concat (map field_bytes fields)))
    by (rewrite length_app; reflexivity).
  rewrite Document_Project_loop_end by done.
  rewrite <- insert_fields_app, <- requested_app.
  change (fields ++ read_fields [] arr) with (read_fields fields arr).
  repeat f_equal. rewrite !length_app. simpl. lia.
Qed.

(** ** Any buffer: what a successful decode and a successful projection
    tell *)

(** A decode that succeeds has found ["id"] among the fields it read or
    in the wrapper. *)
Lemma Document_UnmarshalObject_Done_id (d : Document) (b : list byte) (n : nat) :
  (Document_UnmarshalObject d b).2 = Done n →
  is_Some (insert_fields (decoded_fields b) (kv d) !! id_key).
Proof.
  intros H.
  pose proof (Document_UnmarshalObject_state d b) as Hst.
  unfold Document_UnmarshalObject in *.
  destruct (length b <? 1); [done|].
  destruct (index b 0) as [t| |]; try done.
  destruct (bool_decide (t ≠ Document_Type d)); [done|].
  destruct (Document_UnmarshalObject_loop (length b) b 1 (kv d))
    as [[m [c| |]]|]; try done.
  destruct (m !! id_key) as [v|] eqn:Hid; [|done].
  cbn [fst] in Hst. apply (f_equal kv) in Hst. cbn [kv with_kv] in Hst.
  rewrite <- Hst, Hid. eauto.
Qed.

Lemma Document_UnmarshalObject_never_Done (d : Document) (b : list byte) (n : nat) :
  Document_ID d = None →
  lacks_key id_key (decoded_fields b) = true →
  (Document_UnmarshalObject d b).2 ≠ Done n.
Proof.
  intros Hd Hb H. apply Document_UnmarshalObject_Done_id in H as [v Hv].
  rewrite insert_fields_lacks_key in Hv by exact Hb.
  unfold Document_ID in Hd. congruence.
Qed.

(** Where the loop of [Project] comes to the [EOF] byte, the loop of the
    full decode comes to it as well, with the same count, or stops at a
    value of an internal type that [Project] was not asked for. *)
Lemma Document_UnmarshalObject_loop_after_Project (keys : list (list byte))
    (b : list byte) :
  ∀ fuel count mp mp' n m,
    Document_Project_loop keys fuel b count mp = Some (mp', Done n) →
    ∃ m', Document_UnmarshalObject_loop fuel b count m = Some (m', Done n) ∨
          Document_UnmarshalObject_loop fuel b count m
          = Some (m', Fail ErrInvalidDocument).
Proof.
  induction fuel as [|fuel IH]; intros count mp mp' n m H; [done|].
  cbn [Document_Project_loop Document_UnmarshalObject_loop] in *.
  destruct (length b <? 1); [done|].
  destruct (index b count) as [x| |]; try done.
  destruct (bool_decide (x = EOFType)).
  { simplify_eq. exists m. left. reflexivity. }
  destruct (rest ← slice_from b count; Name_UnmarshalObject rest)
    as [[name nc]| |]; try done.
  cbn zeta in *.
  destruct (rest ← slice_from b (count + nc); UnmarshalObject rest)
    as [[v vc]| |]; [|by destruct (inKey keys name)..].
  destruct (IsInternal (Type_ v)).
  { exists m. right. reflexivity. }
  destruct (inKey keys name); eapply IH; exact H.
Qed.

Lemma Document_UnmarshalObject_after_Project (d : Document) (b : list byte)
    (keys : list (list byte)) (n : nat) :
  keys ≠ [] →
  (Document_Project d b keys).2 = Done n →
  (Document_UnmarshalObject d b).2 = Done n ∨
  (Document_UnmarshalObject d b).2 = Fail ErrInvalidDocument.
Proof.
  intros Hkeys H. unfold Document_Project, Document_UnmarshalObject in *.
  destruct keys as [|key keys]; [done|].
  change (length (key :: keys) <? 1) with false in H. cbv iota in H.
  destruct (length b <? 1); [discriminate H|].
  destruct (index b 0) as [t| |]; try discriminate H.
  destruct (bool_decide (t ≠ Document_Type d)); [discriminate H|].
  destruct (Document_Project_loop (key :: keys) (length b) b 1 (kv d))
    as [[mp r]|] eqn:Hp; [|discriminate H].
  cbn [snd] in H. subst r.
  destruct (Document_UnmarshalObject_loop_after_Project _ _ _ _ _ _ _ (kv d) Hp)
    as [m' [-> | ->]]; [|by right].
  destruct (m' !! id_key); [by left|by right].
Qed.

(** ** The check of ["id"] *)

(** C10, counterexample.  The stream made of the [Document] tag and the
    [EOF] byte has no ["id"] field; on a wrapper in which ["id"] is bound
    [Project] succeeds on it and the full decode of the same bytes
    succeeds too, with the same count. *)
Lemma Project_and_Deserialize_succeed_on_bound_wrapper :
  lacks_key id_key [] = true ∧
  Document_ID doc_id_1 = Some (OInt64 1) ∧
  (Document_Project doc_id_1 (document_stream []) [[x61]]).2 = Done 1 ∧
  (Document_UnmarshalObject doc_id_1 (document_stream [])).2 = Done 1.
Proof. repeat split; reflexivity. Qed.

(** C10, amended.  On every well-formed stream in which no field is named
    ["id"] (the [Document] tag, fields with scalar values, at most one
    field with an array value, the [EOF] byte, any bytes after it) and for
    every non-empty list of requested keys, [Project] succeeds on any
    wrapper: it returns the offset of the [EOF] byte and no error, with the
    requested fields inserted.  The full decode of the same bytes into a
    wrapper that has no ["id"] bound fails with [ErrInvalidDocument].  More
    generally, on any buffer at all on which [Project] succeeds and in
    which the decoder reads no field named ["id"], the full decode into a
    wrapper that has no ["id"] bound fails with [ErrInvalidDocument]. *)
Theorem Project_skips_id_check (d : Document) (fields : list (Name * Object))
    (arr : option (Name * list Object)) (trailing : list byte)
    (keys : list (list byte)) :
  well_formed_fields fields = true →
  well_formed_array_field arr = true →
  lacks_key id_key (read_fields fields arr) = true →
  keys ≠ [] →
  Document_Project d (wire_stream fields arr trailing) keys
  = (with_kv d (insert_fields (requested keys (read_fields fields arr)) (kv d)),
     Done (length (wire_stream fields arr []) - 1)) ∧
  (Document_ID d = None →
   (Document_UnmarshalObject d (wire_stream fields arr trailing)).2
   = Fail ErrInvalidDocument) ∧
  (∀ (b : list byte) (n : nat),
     (Document_Project d b keys).2 = Done n →
     lacks_key id_key (decoded_fields b) = true →
     Document_ID d = None →
     (Document_UnmarshalObject d b).2 = Fail ErrInvalidDocument).
Proof.
  intros Hwf%well_formed_fields_Forall Harr Hid Hkeys. split; [|split].
  - apply Document_Project_wire_stream; assumption.
  - intros Hd. rewrite Document_UnmarshalObject_wire_stream by assumption.
    rewrite insert_fields_lacks_key by exact Hid.
    unfold Document_ID in Hd. rewrite Hd. reflexivity.
  - intros b n Hp Hb Hd.
    destruct (Document_UnmarshalObject_after_Project d b keys n Hkeys Hp)
      as [Hdone|Hfail]; [|exact Hfail].
    by apply Document_UnmarshalObject_never_Done in Hdone.
Qed.

(** The stream of the fields [a: Int32(7)] and [b: Array{1}], projected on
    ["b"] into a new wrapper. *)
Lemma Project_skips_id_check_witness :
  well_formed_fields [([x61], OInt32 7)] = true ∧
  well_formed_array_field (Some ([x62], [OInt32 1])) = true ∧
  lacks_key id_key (read_fields [([x61], OInt32 7)] (Some ([x62], [OInt32 1])))
  = true ∧
  [[x62]] ≠ [] ∧
  Document_Project new_document
    (wire_stream [([x61], OInt32 7)] (Some ([x62], [OInt32 1])) []) [[x62]]
  = (with_kv new_document (<[ [x62] := OArray [OInt32 1] ]> (kv new_document)),
     Done 18) ∧
  (Document_UnmarshalObject new_document
     (wire_stream [([x61], OInt32 7)] (Some ([x62], [OInt32 1])) [])).2
  = Fail ErrInvalidDocument.
Proof.
  split; [reflexivity|]. split; [reflexivity|]. split; [reflexivity|].
  split; [discriminate|].
  destruct (Project_skips_id_check new_document [([x61], OInt32 7)]
              (Some ([x62], [OInt32 1])) [] [[x62]])
    as (Hp & Hd & _); [reflexivity | reflexivity | reflexivity | discriminate |].
  split; [exact Hp|]. apply Hd. reflexivity.
Defined.

(** C8, counterexample.  The stream made of the [Document] tag and the
    [EOF] byte has no ["id"] field, yet decoding it into a wrapper in which
    ["id"] is already bound succeeds. *)
Lemma id_check_looks_at_the_wrapper :
  lacks_key id_key [] = true ∧
  Document_ID doc_id_1 = Some (OInt64 1) ∧
  (Document_UnmarshalObject doc_id_1 (document_stream [])).2 = Done 1 ∧
  (Document_UnmarshalObject doc_id_1 (document_stream [])).2
  ≠ Fail ErrInvalidDocument.
Proof. repeat split; try reflexivity. vm_compute. discriminate. Qed.

(** C8, amended.  Into a wrapper in which no ["id"] is bound, decoding a
    well-formed stream in which no field is named ["id"] (the [Document]
    tag, fields with scalar values, at most one field with an array value,
    the [EOF] byte, any bytes after it) fails with [ErrInvalidDocument], and
    on no buffer at all in which the decoder reads no field named ["id"]
    does the decode succeed.  Serializing a wrapper in which no ["id"] is
    bound fails with [ErrInvalidDocument], whatever the order of the
    keys. *)
Theorem id_enforced_on_unbound_wrapper (d : Document)
    (fields : list (Name * Object)) (arr : option (Name * list Object))
    (trailing : list byte) (keys : list Name) :
  well_formed_fields fields = true →
  well_formed_array_field arr = true →
  lacks_key id_key (read_fields fields arr) = true →
  Document_ID d = None →
  (Document_UnmarshalObject d (wire_stream fields arr trailing)).2
    = Fail ErrInvalidDocument ∧
  (∀ (b : list byte) (n : nat),
     lacks_key id_key (decoded_fields b) = true →
     (Document_UnmarshalObject d b).2 ≠ Done n) ∧
  GenericDocumentUnmarshaler_keys d keys = Fail ErrInvalidDocument ∧
  Document_MarshalObject d = Fail ErrInvalidDocument.
Proof.
  intros Hwf%well_formed_fields_Forall Harr Hid Hd. split; [|split; [|split]].
  - rewrite Document_UnmarshalObject_wire_stream by assumption.
    rewrite insert_fields_lacks_key by exact Hid.
    unfold Document_ID in Hd. rewrite Hd. reflexivity.
  - intros b n Hb. by apply Document_UnmarshalObject_never_Done.
  - unfold GenericDocumentUnmarshaler_keys. cbn [doc_ID Document_is_Document].
    rewrite Hd. reflexivity.
  - unfold Document_MarshalObject, GenericDocumentUnmarshaler,
      GenericDocumentUnmarshaler_keys. cbn [doc_ID Document_is_Document].
    rewrite Hd. reflexivity.
Qed.

(** A new wrapper and the stream [0a 19 61 00 09 18 18]: the field
    [a: Array{}], written with a terminator of its own. *)
Lemma id_enforced_on_unbound_wrapper_witness :
  well_formed_fields [] = true ∧
  well_formed_array_field (Some ([x61], [])) = true ∧
  lacks_key id_key (read_fields [] (Some ([x61], []))) = true ∧
  Document_ID new_document = None ∧
  wire_stream [] (Some ([x61], [])) [EOFType]
  = [x0a; x19; x61; x00; x09; x18; x18] ∧
  (Document_UnmarshalObject new_document
     (wire_stream [] (Some ([x61], [])) [EOFType])).2
    = Fail ErrInvalidDocument ∧
  GenericDocumentUnmarshaler_keys new_document [] = Fail ErrInvalidDocument ∧
  Document_MarshalObject new_document = Fail ErrInvalidDocument.
Proof.
  split; [reflexivity|]. split; [reflexivity|]. split; [reflexivity|].
  split; [reflexivity|]. split; [reflexivity|].
  destruct (id_enforced_on_unbound_wrapper new_document [] (Some ([x61], []))
              [EOFType] [])
    as (Hdec & _ & Henc & Hm); [reflexivity..|].
  split; [exact Hdec|]. split; [exact Henc|exact Hm].
Defined.

(** ** Round trip of documents *)

Lemma insert_fields_list_to_map (fields : list (Name * Object))
    (m : gmap Name Object) :
  NoDup fields.*1 → insert_fields fields m = list_to_map fields ∪ m.
Proof.
  revert m. induction fields as [|[k v] fs IH]; intros m Hnd.
  - simpl. rewrite (left_id_L ∅ (∪)). reflexivity.
  - apply NoDup_cons in Hnd as [Hk Hnd].
    cbn [insert_fields fold_left fst snd]. fold (insert_fields fs (<[k:=v]> m)).
    rewrite IH by exact Hnd. cbn [list_to_map foldr]. cbn [fst snd uncurry curry].
    change (foldr (λ p, <[p.1:=p.2]>) ∅ fs) with (list_to_map fs : gmap Name Object).
    rewrite <- insert_union_l. symmetry. apply insert_union_r.
    apply not_elem_of_list_to_map_1. exact Hk.
Qed.

Lemma fields_in_order_map_to_list (d : Document) :
  fields_in_order d (Document_Keys d) = map_to_list (kv d).
Proof.
  unfold fields_in_order, Document_Keys.
  assert (H : ∀ l : list (Name * Object),
             (∀ k v, (k, v) ∈ l → kv d !! k = Some v) →
             omap (fun k => (fun v => (k, v)) <$> kv d !! k) l.*1 = l).
  { induction l as [|[k v] l IH]; intros Hl; [done|].
    cbn [fmap list_fmap omap list_omap fst].
    rewrite (Hl k v) by left. cbn [fmap option_fmap option_map].
    f_equal. apply IH. intros k' v' Hin. apply Hl. right. exact Hin. }
  apply H. intros k v Hin. apply elem_of_map_to_list. exact Hin.
Qed.

Lemma fields_in_order_Permutation (d : Document) (keys : list Name) :
  Keys_order d keys → fields_in_order d keys ≡ₚ map_to_list (kv d).
Proof.
  unfold Keys_order. intros Hp. rewrite <- fields_in_order_map_to_list.
  unfold fields_in_order. rewrite Hp. reflexivity.
Qed.

Lemma GenericDocumentUnmarshaler_range_fields (d : Document) (keys : list Name) :
  ∀ b, Forall (fun k => ∃ v, kv d !! k = Some v ∧ is_scalar v = true) keys →
       GenericDocumentUnmarshaler_range d keys b
       = Done (b ++ concat (map field_bytes (fields_in_order d keys))).
Proof.
  induction keys as [|k keys IH]; intros b Hk.
  - simpl. rewrite app_nil_r. reflexivity.
  - apply Forall_cons in Hk as [(v & Hv & Hs) Hk].
    cbn [GenericDocumentUnmarshaler_range fields_in_order omap list_omap].
    cbn [doc_Get Document_is_Document]. unfold Document_Get.
    fold (fields_in_order d keys).
    rewrite Hv. cbn [fmap option_fmap option_map map concat].
    cbn [MarshalObject Name_MarshalObject mbind outcome_bind MarshalObject_iface].
    assert (∃ vb, MarshalObject v = Done vb) as [vb Hvb]
      by (destruct v; try discriminate Hs; eexists; reflexivity).
    rewrite Hvb. cbn [mbind outcome_bind]. rewrite IH by exact Hk.
    unfold field_bytes. cbn [fst snd MarshalObject Name_MarshalObject bytes_of].
    rewrite Hvb. cbn [bytes_of]. rewrite <- !app_assoc. reflexivity.
Qed.

(** A document with an ["id"] whose keys have no [0x00] and whose values
    are representable scalars survives the round trip, in whatever order
    [Keys] lists the fields: the decoded field map is the original one. *)
Lemma Document_roundtrip_scalars (d : Document) (keys : list Name) :
  Keys_order d keys →
  (∀ k v, kv d !! k = Some v → wire_field (k, v) = true) →
  is_Some (Document_ID d) →
  ∃ bs, GenericDocumentUnmarshaler_keys d keys = Done bs ∧
        Document_UnmarshalObject new_document bs
        = (with_kv new_document (kv d), Done (length bs - 1)).
Proof.
  intros Hkeys Hwire [i Hid].
  pose proof (fields_in_order_Permutation d keys Hkeys) as Hperm.
  assert (Hwf : Forall (fun f => wire_field f = true) (fields_in_order d keys)).
  { rewrite Hperm. apply Forall_forall. intros [k v] Hin.
    apply Hwire. apply elem_of_map_to_list. exact Hin. }
  assert (Hk : Forall (fun k => ∃ v, kv d !! k = Some v ∧ is_scalar v = true) keys).
  { rewrite Hkeys. apply Forall_forall. intros k Hin.
    apply list_elem_of_fmap in Hin as ([k' v] & -> & Hin).
    apply elem_of_map_to_list in Hin. exists v. split; [exact Hin|].
    apply Hwire, wire_field_inv in Hin. apply Hin. }
  exists (document_stream (fields_in_order d keys)). split.
  - unfold GenericDocumentUnmarshaler_keys. cbn [doc_ID doc_Type Document_is_Document].
    rewrite Hid, GenericDocumentUnmarshaler_range_fields by exact Hk.
    cbn [mbind outcome_bind MarshalObject EOF_MarshalObject].
    unfold document_stream, Document_Type. rewrite <- app_assoc. reflexivity.
  - rewrite Document_UnmarshalObject_stream by exact Hwf.
    assert (Hm : insert_fields (fields_in_order d keys) (kv new_document) = kv d).
    { rewrite insert_fields_list_to_map.
      - change (kv new_document) with (∅ : gmap Name Object).
        rewrite (right_id_L ∅ (∪)).
        rewrite <- (list_to_map_proper _ _ (NoDup_fst_map_to_list (kv d))
                      (symmetry Hperm)).
        apply list_to_map_to_list.
      - rewrite Hperm. apply NoDup_fst_map_to_list. }
    rewrite Hm. unfold Document_ID in Hid. rewrite Hid. reflexivity.
Qed.

(** The two orders in which [Keys] can list the fields of
    [doc_two_arrays]. *)
Lemma doc_two_arrays_orders (keys : list Name) :
  Keys_order doc_two_arrays keys →
  keys = [id_key; [x61]] ∨ keys = [[x61]; id_key].
Proof.
  unfold Keys_order.
  assert (Document_Keys doc_two_arrays = [id_key; [x61]]) as ->
    by (vm_compute; reflexivity).
  intros H. symmetry in H. apply Permutation_length_2_inv in H. exact H.
Qed.

(** C6 (evaluated on the code).  The document [{id: Array{}, a: Array{}}]
    does not survive the round trip in either order of its keys: encoded
    as [id, a] it decodes to a map in which ["a"] is gone and ["id"] holds
    a different array, encoded as [a, id] it fails to decode with
    [ErrInvalidDocument].  So does [{id: Int64(1), a: Array{}}] when [Keys]
    lists ["a"] first. *)
Theorem roundtrip_breaks_on_array_fields :
  kv doc_two_arrays !! id_key = Some (OArray []) ∧
  kv doc_two_arrays !! [x61] = Some (OArray []) ∧
  GenericDocumentUnmarshaler_keys doc_two_arrays [id_key; [x61]]
  = Done [x0a; x19; x69; x64; x00; x09; x19; x61; x00; x09; x18] ∧
  (Document_UnmarshalObject new_document
     [x0a; x19; x69; x64; x00; x09; x19; x61; x00; x09; x18]).2 = Done 10 ∧
  kv (Document_UnmarshalObject new_document
        [x0a; x19; x69; x64; x00; x09; x19; x61; x00; x09; x18]).1
  = {[ id_key := OArray [OName [x61]; OArray []] ]} ∧
  GenericDocumentUnmarshaler_keys doc_two_arrays [[x61]; id_key]
  = Done [x0a; x19; x61; x00; x09; x19; x69; x64; x00; x09; x18] ∧
  (Document_UnmarshalObject new_document
     [x0a; x19; x61; x00; x09; x19; x69; x64; x00; x09; x18]).2
  = Fail ErrInvalidDocument ∧
  GenericDocumentUnmarshaler_keys doc_id_and_array [[x61]; id_key]
  = Done [x0a; x19; x61; x00; x09; x19; x69; x64; x00;
          x02; x00; x00; x00; x00; x00; x00; x00; x01; x18] ∧
  (Document_UnmarshalObject new_document
     [x0a; x19; x61; x00; x09; x19; x69; x64; x00;
      x02; x00; x00; x00; x00; x00; x00; x00; x01; x18]).2
  = Fail ErrInvalidDocument.
Proof. repeat split; vm_compute; reflexivity. Qed.

(** * Further properties of the code *)

(** ** The generic decoder *)

Lemma find_NullTerm_bounds (l : list byte) (i j : nat) :
  find_NullTerm l i = Some j → i ≤ j < i + length l.
Proof.
  revert i. induction l as [|x l IH]; intros i H; simpl in H; [done|].
  case_bool_decide; simplify_eq; simpl; [lia|]. apply IH in H. lia.
Qed.

Lemma Array_UnmarshalObject_loop_Done unmarshal fuel b count a a' c :
  Array_UnmarshalObject_loop unmarshal fuel b count a = Some (a', Done c) →
  count ≤ c < length b.
Proof.
  revert count a. induction fuel as [|fuel IH]; intros count a H; [done|].
  simpl in H. destruct (length b <? 1); [done|].
  destruct (index b count) as [x| |] eqn:Hx; try done.
  apply index_Done in Hx.
  destruct (bool_decide (x = EOFType)); [simplify_eq; lia|].
  destruct (slice_from b count) as [rest| |]; try done.
  destruct (unmarshal rest) as [[[v n]| |]|]; try done.
  apply IH in H. lia.
Qed.

Lemma UnmarshalObject_step (t : byte) (b : list byte) :
  UnmarshalObject (t :: b)
  = if bool_decide (t = Int64Type) then UnmarshalInt64 (t :: b)
    else if bool_decide (t = Int32Type) then UnmarshalInt32 (t :: b)
    else if bool_decide (t = FloatType) then UnmarshalFloat (t :: b)
    else if bool_decide (t = StringType) then UnmarshalString (t :: b)
    else if bool_decide (t = BoolType) then UnmarshalBool (t :: b)
    else if bool_decide (t = NullType) then UnmarshalNull (t :: b)
    else if bool_decide (t = CharType) then UnmarshalChar (t :: b)
    else if bool_decide (t = EOFType) then UnmarshalEOF (t :: b)
    else if bool_decide (t = NameType) then UnmarshalName (t :: b)
    else if bool_decide (t = ArrayType) then UnmarshalArray (t :: b)
    else Fail ErrInvalidType.
Proof.
  destruct (bool_decide (t = ArrayType)) eqn:Ht.
  - apply bool_decide_eq_true in Ht. subst t.
    rewrite UnmarshalObject_Array. reflexivity.
  - unfold UnmarshalObject.
    cbn [UnmarshalObject_fuel length Nat.ltb Nat.leb index lookup list_lookup].
    rewrite Ht.
    destruct (bool_decide (t = Int64Type)); [reflexivity|].
    destruct (bool_decide (t = Int32Type)); [reflexivity|].
    destruct (bool_decide (t = FloatType)); [reflexivity|].
    destruct (bool_decide (t = StringType)); [reflexivity|].
    destruct (bool_decide (t = BoolType)); [reflexivity|].
    destruct (bool_decide (t = NullType)); [reflexivity|].
    destruct (bool_decide (t = CharType)); [reflexivity|].
    destruct (bool_decide (t = EOFType)); [reflexivity|].
    destruct (bool_decide (t = NameType)); reflexivity.
Qed.

Lemma UnmarshalObject_nil : UnmarshalObject [] = Fail ErrInvalidLength.
Proof. reflexivity. Qed.

Lemma UnmarshalArray_Done (b : list byte) (v : Object) (n : nat) :
  UnmarshalArray b = Done (v, n) →
  ∃ a, v = OArray a ∧ b !! 0 = Some ArrayType ∧ 1 ≤ n < length b.
Proof.
  unfold UnmarshalArray, Array_UnmarshalObject, Array_UnmarshalObject_with.
  intros H. destruct (length b <? 1); [done|].
  destruct (index b 0) as [t| |] eqn:Ht; try done.
  case_bool_decide as Hne; [done|].
  destruct (Array_UnmarshalObject_loop _ _ _ _ _) as [[a [c| |]]|] eqn:Hl;
    try done.
  simplify_eq. apply Array_UnmarshalObject_loop_Done in Hl.
  exists a. split; [done|]. split; [|lia].
  unfold index in Ht. destruct (b !! 0); by simplify_eq.
Qed.

Lemma UnmarshalObject_Done_inv (b : list byte) (v : Object) (n : nat) :
  UnmarshalObject b = Done (v, n) →
  b !! 0 = Some (Type_ v) ∧ 1 ≤ n ≤ length b.
Proof.
  destruct b as [|t b]; [done|]. rewrite UnmarshalObject_step.
  intros H. repeat case_bool_decide; subst; try done.
  all: try (apply UnmarshalArray_Done in H as (a & -> & Ht & Hn);
            split; [done|lia]).
  all: unfold_scalars; cbn [length] in *.
  all: repeat (case_match; simplify_eq); try done.
  all: cbn [Type_]; split; try done.
  all: repeat match goal with
       | H : (_ <? _) = false |- _ => apply Nat.ltb_ge in H
       | H : find_NullTerm _ _ = Some _ |- _ =>
           apply find_NullTerm_bounds in H; cbn [drop length] in H
       | H : index _ 1 = Done _ |- _ => apply index_Done in H
       end; cbn [length] in *; rewrite ?drop_0 in *; try lia.
Qed.

(** X1. [UnmarshalObject] is self-describing and stays inside the buffer:
    when it succeeds, the value it returns has the type of the first byte,
    and the count is at least one and at most the length of the buffer, so
    that the [b[n:]] its callers take next is in range. *)
Theorem UnmarshalObject_tag_and_count (b : list byte) (v : Object) (n : nat) :
  UnmarshalObject b = Done (v, n) →
  b !! 0 = Some (Type_ v) ∧ 1 ≤ n ≤ length b ∧
  slice_from b n = Done (drop n b).
Proof.
  intros H. apply UnmarshalObject_Done_inv in H as [Htag Hn].
  split; [exact Htag|]. split; [exact Hn|].
  unfold slice_from, slice.
  replace (n <=? length b) with true by (symmetry; apply Nat.leb_le; lia).
  rewrite Nat.leb_refl. cbn [andb]. rewrite take_ge; [reflexivity|].
  rewrite length_drop. lia.
Qed.

(** The string ["a"] read from a buffer that goes on. *)
Lemma UnmarshalObject_tag_and_count_witness :
  UnmarshalObject string_a_then_b = Done (OString [x61], 3) ∧
  string_a_then_b !! 0 = Some (Type_ (OString [x61])) ∧
  1 ≤ 3 ≤ length string_a_then_b ∧
  slice_from string_a_then_b 3 = Done (drop 3 string_a_then_b).
Proof.
  split; [reflexivity|].
  apply (UnmarshalObject_tag_and_count string_a_then_b (OString [x61]) 3).
  reflexivity.
Defined.

(** ** Big-endian integers, the other way round *)

Section more_bytes.
Local Open Scope Z_scope.

Lemma be_value_fold_bound (p : list byte) :
  ∀ acc, 0 ≤ acc →
    0 ≤ fold_left (fun a x => Z.lor (Z.shiftl a 8) (Z_of_byte x)) p acc
      < (acc + 1) * 2 ^ (8 * Z.of_nat (length p)).
Proof.
  induction p as [|x p IH]; intros acc Hacc.
  - simpl. lia.
  - cbn [fold_left length]. pose proof (Z_of_byte_range x) as Hx.
    rewrite lor_shiftl_byte by exact Hx.
    specialize (IH (acc * 256 + Z_of_byte x) ltac:(lia)).
    replace (8 * Z.of_nat (S (length p))) with (8 * Z.of_nat (length p) + 8) by lia.
    rewrite Z.pow_add_r by lia. change (2 ^ 8) with 256.
    assert (0 < 2 ^ (8 * Z.of_nat (length p))) by (apply Z.pow_pos_nonneg; lia).
    nia.
Qed.

Lemma be_value_bound (p : list byte) :
  0 ≤ be_value p < 2 ^ (8 * Z.of_nat (length p)).
Proof.
  pose proof (be_value_fold_bound p 0 ltac:(lia)) as H. unfold be_value. lia.
Qed.

Lemma be_value_cons (x : byte) (p : list byte) :
  be_value (x :: p) = Z_of_byte x * 2 ^ (8 * Z.of_nat (length p)) + be_value p.
Proof.
  unfold be_value. cbn [fold_left].
  pose proof (Z_of_byte_range x) as Hx.
  rewrite lor_shiftl_byte by exact Hx. rewrite Z.mul_0_l, Z.add_0_l.
  generalize (Z_of_byte x) as acc. clear Hx.
  induction p as [|y p IH]; intros acc.
  - simpl. lia.
  - cbn [fold_left length]. pose proof (Z_of_byte_range y) as Hy.
    rewrite !lor_shiftl_byte by exact Hy.
    rewrite (IH (acc * 256 + Z_of_byte y)), (IH (0 * 256 + Z_of_byte y)).
    replace (8 * Z.of_nat (S (length p))) with (8 * Z.of_nat (length p) + 8) by lia.
    rewrite Z.pow_add_r by lia. change (2 ^ 8) with 256. lia.
Qed.

Lemma byte_of_Z_add_multiple (z m : Z) : byte_of_Z (z + m * 256) = byte_of_Z z.
Proof. unfold byte_of_Z. rewrite Z.mod_add by lia. reflexivity. Qed.

Lemma be_bytes_high (j k : nat) (a w : Z) :
  (j ≤ k)%nat →
  be_bytes j (a * 2 ^ (8 * Z.of_nat k) + w) = be_bytes j w.
Proof.
  induction j as [|j IH]; intros Hjk; [reflexivity|].
  cbn [be_bytes]. rewrite IH by lia. f_equal.
  rewrite !Z.shiftr_div_pow2 by lia.
  replace (8 * Z.of_nat k) with (8 * Z.of_nat j + 8 * Z.of_nat (k - j)) by lia.
  rewrite Z.pow_add_r by lia.
  assert (0 < 2 ^ (8 * Z.of_nat j)) by (apply Z.pow_pos_nonneg; lia).
  replace (a * (2 ^ (8 * Z.of_nat j) * 2 ^ (8 * Z.of_nat (k - j))) + w)
    with (w + a * 2 ^ (8 * Z.of_nat (k - j)) * 2 ^ (8 * Z.of_nat j)) by lia.
  rewrite Z.div_add by lia.
  replace (8 * Z.of_nat (k - j)) with (8 * Z.of_nat (k - j - 1) + 8) by lia.
  rewrite Z.pow_add_r by lia. change (2 ^ 8) with 256.
  rewrite Z.mul_assoc. apply byte_of_Z_add_multiple.
Qed.

Lemma be_bytes_be_value (p : list byte) :
  be_bytes (length p) (be_value p) = p.
Proof.
  induction p as [|x p IH]; [reflexivity|].
  cbn [length be_bytes]. rewrite be_value_cons.
  rewrite be_bytes_high by lia. rewrite IH. f_equal.
  rewrite Z.shiftr_div_pow2 by lia.
  pose proof (be_value_bound p) as Hb.
  assert (0 < 2 ^ (8 * Z.of_nat (length p))) by (apply Z.pow_pos_nonneg; lia).
  rewrite Z.add_comm, Z.div_add by lia.
  rewrite Z.div_small by lia. apply byte_of_Z_of_byte.
Qed.

Lemma to_int64_range (u : Z) : - 2 ^ 63 ≤ to_int64 u < 2 ^ 63.
Proof.
  unfold to_int64. pose proof (Z.mod_pos_bound u (2 ^ 64) ltac:(lia)).
  destruct (Z.ltb_spec (u mod 2 ^ 64) (2 ^ 63)); lia.
Qed.

Lemma to_int32_range (u : Z) : - 2 ^ 31 ≤ to_int32 u < 2 ^ 31.
Proof.
  unfold to_int32. pose proof (Z.mod_pos_bound u (2 ^ 32) ltac:(lia)).
  destruct (Z.ltb_spec (u mod 2 ^ 32) (2 ^ 31)); lia.
Qed.

Lemma to_uint64_to_int64 (u : Z) : 0 ≤ u < 2 ^ 64 → to_uint64 (to_int64 u) = u.
Proof.
  intros Hu. unfold to_uint64, to_int64. rewrite (Z.mod_small u) by lia.
  destruct (Z.ltb_spec u (2 ^ 63)).
  - apply Z.mod_small. lia.
  - rewrite <- (Z.mod_add _ 1) by lia. rewrite Z.mod_small; lia.
Qed.

Lemma to_uint32_to_int32 (u : Z) : 0 ≤ u < 2 ^ 32 → to_uint32 (to_int32 u) = u.
Proof.
  intros Hu. unfold to_uint32, to_int32. rewrite (Z.mod_small u) by lia.
  destruct (Z.ltb_spec u (2 ^ 31)).
  - apply Z.mod_small. lia.
  - rewrite <- (Z.mod_add _ 1) by lia. rewrite Z.mod_small; lia.
Qed.

End more_bytes.

Lemma find_NullTerm_prefix (l : list byte) (i j : nat) :
  find_NullTerm l i = Some j →
  NUL_free (take (j - i) l) = true ∧ l !! (j - i) = Some NullTerm.
Proof.
  revert i. induction l as [|x l IH]; intros i H; simpl in H; [done|].
  case_bool_decide as Hx; simplify_eq.
  - rewrite Nat.sub_diag. done.
  - pose proof (find_NullTerm_bounds _ _ _ H) as Hb.
    apply IH in H as [H1 H2].
    replace (j - i) with (S (j - S i)) by lia. simpl.
    rewrite H1, H2. split; [|done].
    rewrite bool_decide_eq_false_2 by exact Hx. done.
Qed.

Lemma slice_Done (b : list byte) (lo hi : nat) (p : list byte) :
  slice b lo hi = Done p →
  p = take (hi - lo) (drop lo b) ∧ lo ≤ hi ≤ length b.
Proof.
  unfold slice. intros H. case_match eqn:E; simplify_eq.
  apply andb_prop in E as [H1%Nat.leb_le H2%Nat.leb_le]. done.
Qed.

(** ** What the decoder returns *)

(** Inversion of the scalar decoders. *)
Lemma fixed_width_Done (b : list byte) (t : byte) (w : nat) (p : list byte) :
  (length b <? S w) = false → slice b 1 (S w) = Done p →
  index b 0 = Done t →
  length p = w ∧ take (S w) b = t :: p.
Proof.
  intros Hlen%Nat.ltb_ge Hsl Ht. apply slice_Done in Hsl as [-> _].
  destruct b as [|t' b]; [simpl in Hlen; lia|].
  unfold index in Ht. simpl in Ht. simplify_eq. simpl in *.
  rewrite drop_0, Nat.sub_0_r. split; [|done].
  rewrite length_take. lia.
Qed.

Lemma String_UnmarshalObject_Done (b s : list byte) (n : nat) :
  String_UnmarshalObject b = Done (s, n) →
  NUL_free s = true ∧ take n b = StringType :: s ++ [NullTerm].
Proof.
  unfold String_UnmarshalObject. intros H.
  destruct (length b <? 2) eqn:Hlen; [done|].
  destruct b as [|t b]; [done|]. cbn [index lookup list_lookup mbind outcome_bind] in H.
  case_bool_decide as Ht; [done|]. cbn [drop] in H. rewrite drop_0 in H.
  destruct (find_NullTerm b 1) as [i|] eqn:Hi; [|done].
  destruct (slice (t :: b) 1 i) as [p| |] eqn:Hp; simplify_eq.
  cbn [mbind outcome_bind] in H. simplify_eq.
  apply slice_Done in Hp as [-> _]. cbn [drop]. rewrite drop_0.
  pose proof (find_NullTerm_bounds _ _ _ Hi) as Hb.
  apply find_NullTerm_prefix in Hi as [H1 H2]. split; [exact H1|].
  replace (i + 1) with (S (S (i - 1))) by lia. cbn [take]. f_equal.
  apply take_S_r. exact H2.
Qed.

Lemma Name_UnmarshalObject_Done (b s : list byte) (n : nat) :
  Name_UnmarshalObject b = Done (s, n) →
  NUL_free s = true ∧ take n b = NameType :: s ++ [NullTerm].
Proof.
  unfold Name_UnmarshalObject. intros H.
  destruct (length b <? 2) eqn:Hlen; [done|].
  destruct b as [|t b]; [done|]. cbn [index lookup list_lookup mbind outcome_bind] in H.
  case_bool_decide as Ht; [done|]. cbn [drop] in H. rewrite drop_0 in H.
  destruct (find_NullTerm b 1) as [i|] eqn:Hi; [|done].
  destruct (slice (t :: b) 1 i) as [p| |] eqn:Hp; simplify_eq.
  cbn [mbind outcome_bind] in H. simplify_eq.
  apply slice_Done in Hp as [-> _]. cbn [drop]. rewrite drop_0.
  pose proof (find_NullTerm_bounds _ _ _ Hi) as Hb.
  apply find_NullTerm_prefix in Hi as [H1 H2]. split; [exact H1|].
  replace (i + 1) with (S (S (i - 1))) by lia. cbn [take]. f_equal.
  apply take_S_r. exact H2.
Qed.

Lemma Int64_UnmarshalObject_Done (b : list byte) (i : Z) (n : nat) :
  Int64_UnmarshalObject b = Done (i, n) →
  ∃ p, length p = 8 ∧ take 9 b = Int64Type :: p ∧
       i = to_int64 (Uint64 p) ∧ n = 9.
Proof.
  unfold Int64_UnmarshalObject. intros H.
  destruct (length b <? 9) eqn:Hlen; [done|].
  destruct (index b 0) as [t| |] eqn:Ht; try done. cbn [mbind outcome_bind] in H.
  case_bool_decide as Hne; [done|].
  destruct (slice b 1 9) as [p| |] eqn:Hp; try done.
  cbn [mbind outcome_bind] in H. simplify_eq.
  destruct (fixed_width_Done _ _ 8 _ Hlen Hp Ht) as [Hw Htk]. eauto.
Qed.

Lemma Int32_UnmarshalObject_Done (b : list byte) (i : Z) (n : nat) :
  Int32_UnmarshalObject b = Done (i, n) →
  ∃ p, length p = 4 ∧ take 5 b = Int32Type :: p ∧
       i = to_int32 (Uint32 p) ∧ n = 5.
Proof.
  unfold Int32_UnmarshalObject. intros H.
  destruct (length b <? 5) eqn:Hlen; [done|].
  destruct (index b 0) as [t| |] eqn:Ht; try done. cbn [mbind outcome_bind] in H.
  case_bool_decide as Hne; [done|].
  destruct (slice b 1 5) as [p| |] eqn:Hp; try done.
  cbn [mbind outcome_bind] in H. simplify_eq.
  destruct (fixed_width_Done _ _ 4 _ Hlen Hp Ht) as [Hw Htk]. eauto.
Qed.

Lemma Float_UnmarshalObject_Done (b : list byte) (f : Z) (n : nat) :
  Float_UnmarshalObject b = Done (f, n) →
  ∃ p, length p = 8 ∧ take 9 b = FloatType :: p ∧ f = Uint64 p ∧ n = 9.
Proof.
  unfold Float_UnmarshalObject. intros H.
  destruct (length b <? 9) eqn:Hlen; [done|].
  destruct (index b 0) as [t| |] eqn:Ht; try done. cbn [mbind outcome_bind] in H.
  case_bool_decide as Hne; [done|].
  destruct (slice b 1 9) as [p| |] eqn:Hp; try done.
  cbn [mbind outcome_bind] in H. simplify_eq.
  destruct (fixed_width_Done _ _ 8 _ Hlen Hp Ht) as [Hw Htk]. eauto.
Qed.

(** A decoded scalar is in the range of its type. *)
Lemma scalar_well_decoded (b : list byte) (v : Object) (n : nat) :
  b !! 0 ≠ Some ArrayType →
  UnmarshalObject b = Done (v, n) → well_decoded v = true.
Proof.
  destruct b as [|t b]; [done|]. rewrite UnmarshalObject_step.
  intros Harr H. repeat case_bool_decide; subst; try done.
  - unfold UnmarshalInt64, mbind, outcome_bind in H.
    destruct (Int64_UnmarshalObject _) as [[i k]| |] eqn:Hd; simplify_eq.
    apply Int64_UnmarshalObject_Done in Hd as (p & _ & _ & -> & _).
    cbn [well_decoded].
    pose proof (to_int64_range (Uint64 p)). apply andb_true_intro.
    split; [apply Z.leb_le|apply Z.ltb_lt]; lia.
  - unfold UnmarshalInt32, mbind, outcome_bind in H.
    destruct (Int32_UnmarshalObject _) as [[i k]| |] eqn:Hd; simplify_eq.
    apply Int32_UnmarshalObject_Done in Hd as (p & _ & _ & -> & _).
    cbn [well_decoded].
    pose proof (to_int32_range (Uint32 p)). apply andb_true_intro.
    split; [apply Z.leb_le|apply Z.ltb_lt]; lia.
  - unfold UnmarshalFloat, mbind, outcome_bind in H.
    destruct (Float_UnmarshalObject _) as [[f k]| |] eqn:Hd; simplify_eq.
    apply Float_UnmarshalObject_Done in Hd as (p & Hw & _ & -> & _).
    cbn [well_decoded].
    pose proof (be_value_bound p) as Hb. rewrite Hw in Hb.
    change (2 ^ (8 * Z.of_nat 8))%Z with (2 ^ 64)%Z in Hb.
    unfold Uint64. apply andb_true_intro.
    split; [apply Z.leb_le|apply Z.ltb_lt]; lia.
  - unfold UnmarshalString, mbind, outcome_bind in H.
    destruct (String_UnmarshalObject _) as [[s k]| |] eqn:Hs; simplify_eq.
    apply String_UnmarshalObject_Done in Hs as [Hs _]. exact Hs.
  - unfold UnmarshalBool, Bool_UnmarshalObject, mbind, outcome_bind in H.
    repeat (case_match; simplify_eq). reflexivity.
  - unfold UnmarshalNull, Null_UnmarshalObject, mbind, outcome_bind in H.
    repeat (case_match; simplify_eq). reflexivity.
  - unfold UnmarshalChar, Char_UnmarshalObject, mbind, outcome_bind in H.
    repeat (case_match; simplify_eq). reflexivity.
  - unfold UnmarshalEOF, EOF_UnmarshalObject, mbind, outcome_bind in H.
    repeat (case_match; simplify_eq). reflexivity.
  - unfold UnmarshalName, mbind, outcome_bind in H.
    destruct (Name_UnmarshalObject _) as [[s k]| |] eqn:Hs; simplify_eq.
    apply Name_UnmarshalObject_Done in Hs as [Hs _]. exact Hs.
Qed.

(** What the array loop appends satisfies whatever every decoded element
    satisfies. *)
Lemma Array_UnmarshalObject_loop_Forall (P : Object → Prop) (b : list byte) :
  (∀ rest v n, length rest < length b → rest !! 0 ≠ Some EOFType →
               UnmarshalObject rest = Done (v, n) → P v) →
  ∀ fuel count a a' r,
    1 ≤ count → Forall P a →
    Array_UnmarshalObject_loop (fun rest => Some (UnmarshalObject rest))
      fuel b count a = Some (a', r) →
    Forall P a'.
Proof.
  intros HP. induction fuel as [|fuel IH]; intros count a a' r Hc Ha H; [done|].
  simpl in H. destruct (length b <? 1); [by simplify_eq|].
  destruct (index b count) as [x| |] eqn:Hx; simplify_eq; try done.
  case_bool_decide as Hne; [by simplify_eq|].
  destruct (slice_from b count) as [rest| |] eqn:Hrest; simplify_eq; try done.
  destruct (UnmarshalObject rest) as [[v n]| |] eqn:Hv; simplify_eq; try done.
  eapply IH; [| |exact H]; [lia|].
  apply Forall_app. split; [done|]. apply Forall_singleton.
  pose proof (slice_from_length _ _ _ Hrest) as Hlen.
  apply index_Done in Hx as Hlt.
  apply (HP rest v n); [lia| |done].
  unfold slice_from in Hrest. apply slice_Done in Hrest as [-> _].
  rewrite lookup_take_lt by lia. rewrite lookup_drop, Nat.add_0_r.
  unfold index in Hx. destruct (b !! count); simplify_eq. congruence.
Qed.

Lemma forallb_of_Forall {A} (f : A → bool) (l : list A) :
  Forall (fun x => f x = true) l → forallb f l = true.
Proof. induction 1 as [|x l Hx _ IH]; simpl; [done|]. by rewrite Hx, IH. Qed.

Lemma UnmarshalObject_well_decoded_lt (k : nat) :
  ∀ b v n, length b < k → UnmarshalObject b = Done (v, n) →
           well_decoded v = true.
Proof.
  induction k as [|k IH]; intros b v n Hk H; [lia|].
  destruct (decide (b !! 0 = Some ArrayType)) as [Harr|Harr];
    [|by eapply scalar_well_decoded].
  destruct b as [|t b]; [done|]. simpl in Harr. simplify_eq.
  rewrite UnmarshalObject_Array in H.
  unfold UnmarshalArray, Array_UnmarshalObject, Array_UnmarshalObject_with in H.
  cbn [length Nat.ltb Nat.leb index lookup list_lookup] in H.
  rewrite (bool_decide_eq_false_2 (ArrayType ≠ ArrayType)) in H by tauto.
  destruct (Array_UnmarshalObject_loop _ _ _ _ _) as [[a r]|] eqn:Hl; [|done].
  destruct r; simplify_eq. cbn [well_decoded].
  apply forallb_of_Forall.
  eapply (Array_UnmarshalObject_loop_Forall
            (fun e => negb (bool_decide (Type_ e = EOFType)) && well_decoded e = true));
    [|reflexivity|apply Forall_nil_2|exact Hl].
  intros rest v m Hlen Hhead Hv. apply andb_true_intro. split.
  - apply negb_true_iff, bool_decide_eq_false. intros Heq.
    apply UnmarshalObject_Done_inv in Hv as [Htag _]. congruence.
  - apply (IH rest v m); [simpl in *; lia|exact Hv].
Qed.

(** X2. Every value that [UnmarshalObject] returns is well formed: an
    integer is in the range of its type, a [String] or [Name] holds no
    [0x00], an [Array] holds no [EOF] element and only well-formed
    elements, and no foreign value is ever made. *)
Theorem UnmarshalObject_well_decoded (b : list byte) (v : Object) (n : nat) :
  UnmarshalObject b = Done (v, n) → well_decoded v = true.
Proof.
  intros H. apply (UnmarshalObject_well_decoded_lt (S (length b)) b v n); [lia|].
  exact H.
Qed.

Lemma UnmarshalObject_well_decoded_witness :
  UnmarshalObject string_a_then_b = Done (OString [x61], 3) ∧
  well_decoded (OString [x61]) = true.
Proof.
  split; [reflexivity|].
  apply (UnmarshalObject_well_decoded string_a_then_b (OString [x61]) 3).
  reflexivity.
Defined.

(** X3. A tag that has no [case] in the two switches ([Document],
    [Collection], any unassigned byte) is rejected both ways:
    [UnmarshalObject] on a buffer that starts with it and [MarshalObject]
    on a value of that type return [ErrInvalidType]. *)
Theorem unhandled_tag_rejected (t : byte) (b : list byte) (o : Object) :
  marshal_case t = false → Type_ o = t →
  UnmarshalObject (t :: b) = Fail ErrInvalidType ∧
  MarshalObject o = Fail ErrInvalidType.
Proof.
  intros Ht Ho. split.
  - rewrite UnmarshalObject_step.
    unfold marshal_case in Ht. apply bool_decide_eq_false in Ht.
    repeat (case_bool_decide as Heq;
            [exfalso; apply Ht; rewrite Heq; set_solver|clear Heq]).
    reflexivity.
  - destruct o; cbn [Type_] in Ho; subst t; try discriminate Ht.
    cbn [MarshalObject]. rewrite Ht. reflexivity.
Qed.

(** The tag of documents has no [case] in either switch. *)
Lemma unhandled_tag_rejected_witness :
  marshal_case DocumentType = false ∧
  Type_ (OOther DocumentType) = DocumentType ∧
  UnmarshalObject (DocumentType :: [EOFType]) = Fail ErrInvalidType ∧
  MarshalObject (OOther DocumentType) = Fail ErrInvalidType.
Proof.
  split; [reflexivity|]. split; [reflexivity|].
  apply (unhandled_tag_rejected DocumentType [EOFType] (OOther DocumentType));
    reflexivity.
Defined.

(** X4. [String.MarshalObject] does not look at the content: a string with
    an embedded [0x00] is written as it is, and [UnmarshalObject] reads the
    result back up to the first [0x00] only, with the count of that
    shorter string. *)
Theorem String_with_NUL_is_truncated (p q : list byte) :
  NUL_free p = true →
  MarshalObject (OString (p ++ NullTerm :: q))
  = Done (StringType :: (p ++ NullTerm :: q) ++ [NullTerm]) ∧
  UnmarshalObject (StringType :: (p ++ NullTerm :: q) ++ [NullTerm])
  = Done (OString p, length p + 2).
Proof.
  intros Hp. split; [reflexivity|].
  rewrite UnmarshalObject_String. unfold UnmarshalString.
  replace (StringType :: (p ++ NullTerm :: q) ++ [NullTerm])
    with ((StringType :: p ++ [NullTerm]) ++ (q ++ [NullTerm]))
    by (simpl; rewrite <- !app_assoc; reflexivity).
  rewrite String_UnmarshalObject_app by exact Hp. reflexivity.
Qed.

(** The string ["a\000b"]. *)
Lemma String_with_NUL_is_truncated_witness :
  NUL_free [x61] = true ∧
  MarshalObject (OString ([x61] ++ NullTerm :: [x62]))
  = Done (StringType :: ([x61] ++ NullTerm :: [x62]) ++ [NullTerm]) ∧
  UnmarshalObject (StringType :: ([x61] ++ NullTerm :: [x62]) ++ [NullTerm])
  = Done (OString [x61], length [x61] + 2).
Proof.
  split; [reflexivity|].
  apply (String_with_NUL_is_truncated [x61] [x62]). reflexivity.
Defined.

(** X5. The other direction of the scalar round trip: when
    [UnmarshalObject] returns a scalar after reading [n] bytes, encoding
    that scalar gives back exactly these [n] bytes, provided a [Bool] was
    stored as the byte 0 or 1 (any other byte reads as [false]). *)
Theorem scalar_reencode (b : list byte) (v : Object) (n : nat) :
  UnmarshalObject b = Done (v, n) →
  is_scalar v = true →
  (∀ x, v = OBool x → b !! 1 = Some (boolToByte x)) →
  MarshalObject v = Done (take n b).
Proof.
  destruct b as [|t b]; [done|]. rewrite UnmarshalObject_step.
  intros H Hs Hbool. repeat case_bool_decide; subst; try done.
  - unfold UnmarshalInt64, mbind, outcome_bind in H.
    destruct (Int64_UnmarshalObject _) as [[i k]| |] eqn:Hd; simplify_eq.
    apply Int64_UnmarshalObject_Done in Hd as (p & Hw & Htk & -> & ->).
    rewrite Htk. cbn [MarshalObject]. unfold Int64_MarshalObject, PutUint64, Uint64.
    pose proof (be_value_bound p) as Hb. rewrite Hw in Hb.
    rewrite to_uint64_to_int64 by exact Hb.
    rewrite <- Hw at 1. rewrite be_bytes_be_value. reflexivity.
  - unfold UnmarshalInt32, mbind, outcome_bind in H.
    destruct (Int32_UnmarshalObject _) as [[i k]| |] eqn:Hd; simplify_eq.
    apply Int32_UnmarshalObject_Done in Hd as (p & Hw & Htk & -> & ->).
    rewrite Htk. cbn [MarshalObject]. unfold Int32_MarshalObject, PutUint32, Uint32.
    pose proof (be_value_bound p) as Hb. rewrite Hw in Hb.
    rewrite to_uint32_to_int32 by exact Hb.
    rewrite <- Hw at 1. rewrite be_bytes_be_value. reflexivity.
  - unfold UnmarshalFloat, mbind, outcome_bind in H.
    destruct (Float_UnmarshalObject _) as [[f k]| |] eqn:Hd; simplify_eq.
    apply Float_UnmarshalObject_Done in Hd as (p & Hw & Htk & -> & ->).
    rewrite Htk. cbn [MarshalObject]. unfold Float_MarshalObject, PutUint64, Uint64.
    rewrite <- Hw at 1. rewrite be_bytes_be_value. reflexivity.
  - unfold UnmarshalString, mbind, outcome_bind in H.
    destruct (String_UnmarshalObject _) as [[s k]| |] eqn:Hd; simplify_eq.
    apply String_UnmarshalObject_Done in Hd as [_ ->]. reflexivity.
  - unfold UnmarshalBool, Bool_UnmarshalObject, mbind, outcome_bind in H.
    cbn [length Nat.ltb Nat.leb index lookup list_lookup] in H.
    rewrite (bool_decide_eq_false_2 (BoolType ≠ BoolType)) in H by tauto.
    destruct b as [|x b]; [done|]. cbn [index lookup list_lookup] in H.
    simplify_eq. specialize (Hbool _ eq_refl). simpl in Hbool. simplify_eq.
    cbn [MarshalObject take]. unfold Bool_MarshalObject. by rewrite <- Hbool.
  - unfold UnmarshalNull, Null_UnmarshalObject, mbind, outcome_bind in H.
    repeat (case_match; simplify_eq). reflexivity.
  - unfold UnmarshalChar, Char_UnmarshalObject, mbind, outcome_bind in H.
    cbn [length index lookup list_lookup] in H.
    destruct (S (length b) <? 2); [done|].
    rewrite (bool_decide_eq_false_2 (CharType ≠ CharType)) in H by tauto.
    destruct b as [|x b]; [done|]. cbn [index lookup list_lookup] in H.
    simplify_eq. reflexivity.
  - unfold UnmarshalEOF, mbind, outcome_bind in H.
    repeat (case_match; simplify_eq); done.
  - unfold UnmarshalName, mbind, outcome_bind in H.
    repeat (case_match; simplify_eq); done.
  - apply UnmarshalArray_Done in H as (a & -> & _). done.
Qed.

Lemma scalar_reencode_witness :
  UnmarshalObject string_a_then_b = Done (OString [x61], 3) ∧
  is_scalar (OString [x61]) = true ∧
  MarshalObject (OString [x61]) = Done (take 3 string_a_then_b).
Proof.
  split; [reflexivity|]. split; [reflexivity|].
  apply (scalar_reencode string_a_then_b (OString [x61]) 3);
    [reflexivity | reflexivity | discriminate].
Defined.

(** [append] in the array loop: decoding into an array that has elements
    keeps them and appends. *)
Lemma Array_UnmarshalObject_loop_app unmarshal fuel b :
  ∀ count a0 a,
    Array_UnmarshalObject_loop unmarshal fuel b count (a0 ++ a)
    = (fun ar => (a0 ++ ar.1, ar.2)) <$> Array_UnmarshalObject_loop unmarshal fuel b count a.
Proof.
  induction fuel as [|fuel IH]; intros count a0 a; [done|].
  simpl. destruct (length b <? 1); [done|].
  destruct (index b count) as [x| |]; try done.
  destruct (bool_decide (x = EOFType)); [done|].
  destruct (slice_from b count) as [rest| |]; try done.
  destruct (unmarshal rest) as [[[v n]| |]|]; try done.
  rewrite <- app_assoc. apply IH.
Qed.

(** X6. [Array.UnmarshalObject] appends to its receiver: decoding into an
    array that already holds [a] gives [a] followed by what decoding into
    an empty array gives, with the same count or error. *)
Theorem Array_UnmarshalObject_appends (a : list Object) (b : list byte) :
  Array_UnmarshalObject a b
  = (a ++ (Array_UnmarshalObject [] b).1, (Array_UnmarshalObject [] b).2).
Proof.
  unfold Array_UnmarshalObject, Array_UnmarshalObject_with.
  destruct (length b <? 1); [by rewrite app_nil_r|].
  destruct (index b 0) as [t| |]; try by rewrite app_nil_r.
  destruct (bool_decide (t ≠ ArrayType)); [by rewrite app_nil_r|].
  rewrite <- (app_nil_r a) at 1. rewrite Array_UnmarshalObject_loop_app.
  destruct (Array_UnmarshalObject_loop _ _ _ _ _) as [[a' r]|]; simpl;
    [done|by rewrite !app_nil_r].
Qed.

(** ** Laws of the document wrapper *)

(** X7. [Set], [Get] and [Del] on a wrapper that is not static: [Set] and
    [Del] succeed, mark the wrapper modified and leave it writable; [Get]
    returns the value just set, and nothing after [Del]; the other keys
    are not touched; deleting an unbound key, or a key just set on top of
    an unbound one, leaves the map as it was. *)
Theorem writable_document_laws (d : Document) (k k' : Name) (v : Object) :
  static d = false →
  let d1 := (Document_Set d k v).1 in
  let d2 := (Document_Del d k).1 in
  (Document_Set d k v).2 = Done () ∧
  Document_Get d1 k = Done (Some v) ∧
  (k' ≠ k → Document_Get d1 k' = Document_Get d k') ∧
  modified d1 = true ∧ static d1 = false ∧
  (Document_Del d k).2 = Done () ∧
  Document_Get d2 k = Done None ∧
  (k' ≠ k → Document_Get d2 k' = Document_Get d k') ∧
  modified d2 = true ∧ static d2 = false ∧
  (kv d !! k = None → kv d2 = kv d ∧ kv (Document_Del d1 k).1 = kv d).
Proof.
  intros Hs. unfold Document_Set, Document_Del, Document_Get. rewrite Hs.
  cbn [fst snd kv with_kv with_modified modified static]. rewrite Hs.
  cbn [fst snd kv with_kv with_modified modified static].
  repeat split; try reflexivity.
  - by rewrite lookup_insert_eq.
  - intros Hne. by rewrite lookup_insert_ne.
  - by rewrite lookup_delete_eq.
  - intros Hne. by rewrite lookup_delete_ne.
  - by apply delete_id.
  - rewrite delete_insert_eq. by apply delete_id.
Qed.

Lemma writable_document_laws_witness :
  static new_document = false ∧
  Document_Get (Document_Set new_document [x61] ONull).1 [x61] = Done (Some ONull) ∧
  Document_Get (Document_Del new_document [x61]).1 [x61] = Done None.
Proof.
  split; [reflexivity|].
  pose proof (writable_document_laws new_document [x61] [x62] ONull eq_refl) as H.
  cbv zeta in H. destruct H as (_ & Hget & _ & _ & _ & _ & Hdel & _).
  split; [exact Hget|exact Hdel].
Defined.

(** X8. [Keys] lists exactly the bound keys, each once, and [Set] on an
    unbound key of a writable wrapper adds that key to the list. *)
Theorem Keys_are_the_bound_keys (d : Document) (k : Name) (v : Object) :
  NoDup (Document_Keys d) ∧
  (∀ k', k' ∈ Document_Keys d ↔ is_Some (kv d !! k')) ∧
  length (Document_Keys d) = size (kv d) ∧
  (static d = false → kv d !! k = None →
   Document_Keys (Document_Set d k v).1 ≡ₚ k :: Document_Keys d).
Proof.
  unfold Document_Keys. repeat split.
  - apply NoDup_fst_map_to_list.
  - intros Hin. apply list_elem_of_fmap in Hin as ([k1 v1] & -> & Hin).
    apply elem_of_map_to_list in Hin. eauto.
  - intros [v' Hv]. apply list_elem_of_fmap. exists (k', v'). split; [done|].
    by apply elem_of_map_to_list.
  - rewrite length_fmap. apply length_map_to_list.
  - intros Hs Hk. unfold Document_Set. rewrite Hs.
    cbn [fst kv with_kv with_modified].
    rewrite map_to_list_insert by exact Hk. reflexivity.
Qed.

Lemma Document_Project_state (d : Document) (b : list byte)
    (keys : list (list byte)) :
  ∃ m, (Document_Project d b keys).1 = with_kv d m.
Proof.
  unfold Document_Project.
  repeat case_match; simpl; eauto using eq_sym, with_kv_id.
Qed.

(** X9. The two decoders do not look at the [static] flag: on a static
    wrapper and a well-formed stream of fields with scalar values,
    [UnmarshalObject] and [Project] write the decoded fields into the map
    that [Set] refuses to change, and leave the flags [static] and
    [modified] as they were. *)
Theorem decoding_ignores_static (d : Document) (fields : list (Name * Object))
    (keys : list (list byte)) :
  static d = true → well_formed_fields fields = true → keys ≠ [] →
  let d1 := (Document_UnmarshalObject d (document_stream fields)).1 in
  let d2 := (Document_Project d (document_stream fields) keys).1 in
  kv d1 = insert_fields fields (kv d) ∧
  kv d2 = insert_fields (requested keys fields) (kv d) ∧
  static d1 = true ∧ static d2 = true ∧
  modified d1 = modified d ∧ modified d2 = modified d.
Proof.
  intros Hs Hwf%well_formed_fields_Forall Hkeys.
  rewrite Document_UnmarshalObject_stream, Document_Project_stream by assumption.
  cbn [fst kv with_kv static modified]. done.
Qed.

(** The field [a: Int32(7)] decoded into a static wrapper. *)
Lemma decoding_ignores_static_witness :
  static static_document = true ∧
  well_formed_fields [([x61], OInt32 7)] = true ∧
  [[x61]] ≠ [] ∧
  kv (Document_UnmarshalObject static_document
        (document_stream [([x61], OInt32 7)])).1
  = insert_fields [([x61], OInt32 7)] (kv static_document) ∧
  static (Document_UnmarshalObject static_document
            (document_stream [([x61], OInt32 7)])).1 = true.
Proof.
  split; [reflexivity|]. split; [reflexivity|]. split; [discriminate|].
  pose proof (decoding_ignores_static static_document [([x61], OInt32 7)] [[x61]]
                eq_refl eq_refl ltac:(discriminate)) as H.
  cbv zeta in H. destruct H as (Hkv & _ & Hs & _).
  split; [exact Hkv|exact Hs].
Defined.

(** Whenever the full decode succeeds, projection succeeds with the same
    count and binds the requested ones of the decoded fields. *)
Lemma Document_Project_loop_from_full (keys : list (list byte)) (b : list byte) :
  ∀ fuel count m m' n m2,
    Document_UnmarshalObject_loop fuel b count m = Some (m', Done n) →
    Document_Project_loop keys fuel b count m2
    = Some (insert_fields
              (requested keys (Document_UnmarshalObject_fields fuel b count)) m2,
            Done n).
Proof.
  induction fuel as [|fuel IH]; intros count m m' n m2 H; [done|].
  cbn [Document_UnmarshalObject_loop Document_Project_loop
       Document_UnmarshalObject_fields] in *.
  destruct (length b <? 1); [done|].
  destruct (index b count) as [x| |]; try done.
  destruct (bool_decide (x = EOFType)); [by simplify_eq|].
  destruct (rest ← slice_from b count; Name_UnmarshalObject rest)
    as [[name nc]| |]; try done.
  cbn zeta in *.
  destruct (rest ← slice_from b (count + nc); UnmarshalObject rest)
    as [[v vc]| |]; try done.
  destruct (IsInternal (Type_ v)); [done|].
  unfold requested. cbn [List.filter fst].
  destruct (inKey keys name); cbn [insert_fields fold_left];
    eapply IH; exact H.
Qed.

(** X10. On every buffer that [Document.UnmarshalObject] decodes, well
    formed or not, [Project] with a non-empty list of keys succeeds with
    the same count, and binds, of the fields the full decode reads, the
    requested ones. *)
Theorem Project_agrees_with_full_decode (d d1 : Document) (b : list byte)
    (keys : list (list byte)) (n : nat) :
  Document_UnmarshalObject d b = (d1, Done n) → keys ≠ [] →
  Document_Project d b keys
  = (with_kv d (insert_fields (requested keys (decoded_fields b)) (kv d)),
     Done n).
Proof.
  unfold Document_UnmarshalObject, Document_Project, decoded_fields.
  intros H Hkeys. destruct keys as [|key keys]; [done|].
  cbn [length Nat.ltb Nat.leb].
  destruct (length b <? 1); [done|].
  destruct b as [|t b]; [done|]. cbn [index lookup list_lookup] in *.
  change (Document_Type d) with DocumentType in *.
  case_bool_decide as Ht; [done|].
  rewrite bool_decide_eq_true_2 by (destruct (decide (t = DocumentType)); tauto).
  destruct (Document_UnmarshalObject_loop _ _ _ _) as [[m r]|] eqn:Hl; [|done].
  destruct r as [c| |]; try done.
  rewrite (Document_Project_loop_from_full _ _ _ _ _ _ _ _ Hl).
  destruct (m !! id_key); by simplify_eq.
Qed.

(** The stream [{id: Int64(1)}], projected on ["id"]. *)
Lemma Project_agrees_with_full_decode_witness :
  Document_UnmarshalObject new_document stream_id_1
  = ((Document_UnmarshalObject new_document stream_id_1).1, Done 14) ∧
  [id_key] ≠ [] ∧
  Document_Project new_document stream_id_1 [id_key]
  = (with_kv new_document
       (insert_fields (requested [id_key] (decoded_fields stream_id_1))
          (kv new_document)),
     Done 14).
Proof.
  split; [reflexivity|]. split; [discriminate|].
  apply (Project_agrees_with_full_decode new_document
           (Document_UnmarshalObject new_document stream_id_1).1
           stream_id_1 [id_key] 14);
    [reflexivity | discriminate].
Defined.

(** X11. Round trip of a document of scalars: when every field of the
    wrapper is a representable scalar under a key without [0x00] and
    ["id"] is bound, [GenericDocumentUnmarshaler] succeeds in whatever
    order the keys come, and decoding its output into a new wrapper gives
    the same map and the same [ID], with the offset of the [EOF] byte as
    count. *)
Theorem scalar_document_roundtrip (d : Document) (keys : list Name) :
  Keys_order d keys →
  (∀ k v, kv d !! k = Some v → wire_field (k, v) = true) →
  is_Some (Document_ID d) →
  ∃ bs,
    GenericDocumentUnmarshaler_keys d keys = Done bs ∧
    (Document_UnmarshalObject new_document bs).2 = Done (length bs - 1) ∧
    kv (Document_UnmarshalObject new_document bs).1 = kv d ∧
    Document_ID (Document_UnmarshalObject new_document bs).1 = Document_ID d.
Proof.
  intros Hkeys Hwire Hid.
  destruct (Document_roundtrip_scalars d keys Hkeys Hwire Hid) as (bs & Henc & Hdec).
  exists bs. rewrite Hdec. done.
Qed.

Lemma scalar_document_roundtrip_witness :
  Keys_order doc_id_1 (Document_Keys doc_id_1) ∧
  is_Some (Document_ID doc_id_1) ∧
  ∃ bs,
    GenericDocumentUnmarshaler_keys doc_id_1 (Document_Keys doc_id_1) = Done bs ∧
    (Document_UnmarshalObject new_document bs).2 = Done (length bs - 1) ∧
    kv (Document_UnmarshalObject new_document bs).1 = kv doc_id_1 ∧
    Document_ID (Document_UnmarshalObject new_document bs).1 = Document_ID doc_id_1.
Proof.
  split; [unfold Keys_order; reflexivity|]. split; [by eexists|].
  apply (scalar_document_roundtrip doc_id_1 (Document_Keys doc_id_1));
    [unfold Keys_order; reflexivity | | by eexists].
  intros k v H. unfold doc_id_1, new_document, NewDocument, Document_Set in H.
  cbn [static kv fst with_kv with_modified] in H.
  apply lookup_insert_Some in H as [[<- <-]|[_ H]]; [reflexivity|].
  by rewrite lookup_empty in H.
Defined.

(** ** The encoders *)

(** Induction on values, through the elements of arrays. *)
Lemma Object_nested_ind (P : Object → Prop) :
  (∀ a, Forall P a → P (OArray a)) →
  (∀ v, (∀ a, v ≠ OArray a) → P v) → ∀ v, P v.
Proof.
  intros Harr Hother. fix IH 1.
  intros [i|i|f|s|x| |c| |n|a|t]; try (apply Hother; discriminate).
  apply Harr. induction a as [|e a IHa]; constructor; [apply IH|exact IHa].
Qed.

Lemma Array_MarshalObject_range_all marshal (a : list Object) :
  Forall (fun e => ∃ eb, marshal e = Done eb) a →
  ∀ b, ∃ bs, Array_MarshalObject_range marshal a b = Done (b ++ bs).
Proof.
  induction 1 as [|e a [eb He] _ IH]; intros b; simpl.
  - exists []. by rewrite app_nil_r.
  - rewrite He. cbn [mbind outcome_bind].
    destruct (IH (b ++ eb)) as [bs ->]. exists (eb ++ bs).
    by rewrite app_assoc.
Qed.

Lemma Array_MarshalObject_range_inv marshal (a : list Object) :
  ∀ b bs, Array_MarshalObject_range marshal a b = Done bs →
          Forall (fun e => ∃ eb, marshal e = Done eb) a.
Proof.
  induction a as [|e a IH]; intros b bs H; [constructor|].
  simpl in H. destruct (marshal e) as [eb| |] eqn:He; try done.
  cbn [mbind outcome_bind] in H. constructor; [eauto|]. eapply IH. exact H.
Qed.

Lemma MarshalObject_Done_iff (v : Object) :
  (∃ bs, MarshalObject v = Done bs) ↔ no_foreign v = true.
Proof.
  induction v as [a IH|v Hv] using Object_nested_ind.
  2: { destruct v as [i|i|f|s|x| |c| |n|a|t]; cbn [no_foreign MarshalObject];
       try (split; [reflexivity|intros _; eexists; reflexivity]).
       - by destruct (Hv a).
       - split; [|discriminate]. intros [bs H]. destruct (marshal_case t); discriminate. }
  cbn [no_foreign MarshalObject]. split.
  - intros [bs H]. apply Array_MarshalObject_range_inv in H.
      apply forallb_of_Forall. rewrite Forall_forall in IH, H |- *.
      intros e He. apply IH; [exact He|]. apply H. exact He.
  - intros H. rewrite forallb_forall in H.
      destruct (Array_MarshalObject_range_all MarshalObject a) with (b := [ArrayType])
        as [bs Hbs]; [|eauto].
      rewrite Forall_forall in IH |- *. intros e He. apply IH; [exact He|].
      apply H. apply list_elem_of_In. exact He.
Qed.

(** X12. [MarshalObject] succeeds exactly on the values of the package,
    arrays of them at any depth included, whatever their content; its
    output then starts with the tag of the value. *)
Theorem MarshalObject_succeeds_iff (v : Object) :
  (∃ bs, MarshalObject v = Done bs ∧ head bs = Some (Type_ v))
  ↔ no_foreign v = true.
Proof.
  rewrite <- MarshalObject_Done_iff. split.
  - intros (bs & H & _). eauto.
  - intros [bs H]. exists bs. split; [exact H|].
    destruct v as [i|i|f|s|x| |c| |n|a|t]; cbn [MarshalObject] in H;
      try (injection H as <-; reflexivity).
    + pose proof (Array_MarshalObject_range_inv _ _ _ _ H) as Hall.
      destruct (Array_MarshalObject_range_all MarshalObject a Hall [ArrayType])
        as [tl Htl].
      rewrite Htl in H. injection H as <-. reflexivity.
    + destruct (marshal_case t); discriminate.
Qed.

Lemma GenericDocumentUnmarshaler_range_no_foreign (d : Document)
    (keys : list Name) :
  ∀ b, Forall (fun k => ∃ v, kv d !! k = Some v ∧ no_foreign v = true) keys →
       GenericDocumentUnmarshaler_range d keys b
       = Done (b ++ concat (map field_bytes (fields_in_order d keys))).
Proof.
  induction keys as [|k keys IH]; intros b Hk.
  - simpl. rewrite app_nil_r. reflexivity.
  - apply Forall_cons in Hk as [(v & Hv & Hs) Hk].
    cbn [GenericDocumentUnmarshaler_range fields_in_order omap list_omap].
    cbn [doc_Get Document_is_Document]. unfold Document_Get.
    fold (fields_in_order d keys).
    rewrite Hv. cbn [fmap option_fmap option_map map concat].
    cbn [MarshalObject Name_MarshalObject mbind outcome_bind MarshalObject_iface].
    apply MarshalObject_Done_iff in Hs as [vb Hvb].
    rewrite Hvb. cbn [mbind outcome_bind]. rewrite IH by exact Hk.
    unfold field_bytes. cbn [fst snd MarshalObject Name_MarshalObject bytes_of].
    rewrite Hvb. cbn [bytes_of]. rewrite <- !app_assoc. reflexivity.
Qed.

(** X13. [GenericDocumentUnmarshaler] checks nothing but the presence of
    ["id"]: whenever ["id"] is bound and the values are values of the
    package, it returns the tag, the fields in the order of the keys and
    the [EOF] byte, also for keys and strings with [0x00] and for array
    fields, which the decoder does not read back. *)
Theorem Document_encode_unvalidated (d : Document) (keys : list Name) :
  Keys_order d keys →
  is_Some (Document_ID d) →
  (∀ k v, kv d !! k = Some v → no_foreign v = true) →
  GenericDocumentUnmarshaler_keys d keys
  = Done (document_stream (fields_in_order d keys)).
Proof.
  intros Hkeys [i Hid] Hval.
  assert (Hk : Forall (fun k => ∃ v, kv d !! k = Some v ∧ no_foreign v = true) keys).
  { rewrite Hkeys. apply Forall_forall. intros k Hin.
    apply list_elem_of_fmap in Hin as ([k' v] & -> & Hin).
    apply elem_of_map_to_list in Hin. eauto. }
  unfold GenericDocumentUnmarshaler_keys. cbn [doc_ID doc_Type Document_is_Document].
  rewrite Hid, GenericDocumentUnmarshaler_range_no_foreign by exact Hk.
  cbn [mbind outcome_bind MarshalObject EOF_MarshalObject].
  unfold document_stream, Document_Type. rewrite <- app_assoc. reflexivity.
Qed.

(** The wrapper [{id: Int64(1), a: Array{}}]: the array field is written
    as it is. *)
Lemma Document_encode_unvalidated_witness :
  Keys_order doc_id_and_array (Document_Keys doc_id_and_array) ∧
  is_Some (Document_ID doc_id_and_array) ∧
  GenericDocumentUnmarshaler_keys doc_id_and_array (Document_Keys doc_id_and_array)
  = Done (document_stream
            (fields_in_order doc_id_and_array (Document_Keys doc_id_and_array))).
Proof.
  split; [unfold Keys_order; reflexivity|]. split; [by eexists|].
  apply (Document_encode_unvalidated doc_id_and_array (Document_Keys doc_id_and_array));
    [unfold Keys_order; reflexivity | by eexists |].
  intros k v H. unfold doc_id_and_array, new_document, NewDocument, Document_Set in H.
  cbn [static kv fst with_kv with_modified] in H.
  apply lookup_insert_Some in H as [[_ <-]|[_ H]]; [reflexivity|].
  apply lookup_insert_Some in H as [[_ <-]|[_ H]]; [reflexivity|].
  by rewrite lookup_empty in H.
Defined.

Lemma Array_MarshalObject_range_scalars (elems : list Object) :
  Forall (fun v => is_scalar v = true ∧ representable v = true) elems →
  ∀ b, Array_MarshalObject_range MarshalObject elems b
       = Done (b ++ concat (map (fun v => bytes_of (MarshalObject v)) elems)).
Proof.
  induction 1 as [|v elems [Hs _] _ IH]; intros b; simpl.
  - rewrite app_nil_r. reflexivity.
  - destruct (scalar_bytes_head v Hs) as (tl & ->). cbn [mbind outcome_bind].
    rewrite IH. cbn [bytes_of]. rewrite <- app_assoc. reflexivity.
Qed.

(** X14. An array is written without a terminator, so an array that is the
    first element of another one is read back together with the elements
    that follow it: for representable scalars [xs] and [ys], the encoding
    of [[xs, ys...]], closed by an [EOF] byte, decodes as [[xs ++ ys]]. *)
Theorem nested_array_absorbs_siblings (xs ys : list Object) (tail : list byte) :
  Forall (fun v => is_scalar v = true ∧ representable v = true) xs →
  Forall (fun v => is_scalar v = true ∧ representable v = true) ys →
  ∃ enc, MarshalObject (OArray (OArray xs :: ys)) = Done enc ∧
         UnmarshalObject (enc ++ EOFType :: tail)
         = Done (OArray [OArray (xs ++ ys)], length enc).
Proof.
  intros Hxs Hys.
  pose proof (Forall_app_2 _ _ _ Hxs Hys) as Hall.
  set (e := fun v => bytes_of (MarshalObject v)).
  exists (ArrayType :: ArrayType :: concat (map e (xs ++ ys))). split.
  - cbn [MarshalObject Array_MarshalObject_range].
    rewrite (Array_MarshalObject_range_scalars xs Hxs). cbn [mbind outcome_bind].
    rewrite (Array_MarshalObject_range_scalars ys Hys).
    fold e. rewrite map_app, concat_app. simpl. reflexivity.
  - pose proof (Array_decode_with_EOF (xs ++ ys) tail Hall) as Hin.
    rewrite (Array_MarshalObject_scalars _ Hall) in Hin. cbn [bytes_of] in Hin.
    fold e in Hin. simpl app in Hin. simpl length in Hin.
    rewrite <- UnmarshalObject_Array in Hin.
    set (enc := concat (map e (xs ++ ys))) in *.
    cbn [app]. rewrite UnmarshalObject_Array.
    unfold UnmarshalArray, Array_UnmarshalObject, Array_UnmarshalObject_with.
    cbn [length Nat.ltb Nat.leb index lookup list_lookup].
    rewrite (bool_decide_eq_false_2 (ArrayType ≠ ArrayType)) by tauto.
    cbn [Array_UnmarshalObject_loop length Nat.ltb Nat.leb index lookup list_lookup].
    rewrite (bool_decide_eq_false_2 (ArrayType = EOFType)) by discriminate.
    change (ArrayType :: ArrayType :: enc ++ EOFType :: tail)
      with ([ArrayType] ++ (ArrayType :: enc ++ EOFType :: tail)).
    rewrite (slice_from_app [ArrayType]), Hin.
    rewrite length_app. cbn [length]. rewrite Nat.add_succ_r.
    cbn [Array_UnmarshalObject_loop app length Nat.ltb Nat.leb Nat.add].
    change (ArrayType :: ArrayType :: enc ++ EOFType :: tail)
      with ((ArrayType :: ArrayType :: enc) ++ EOFType :: tail).
    replace (S (S (length enc))) with (length (ArrayType :: ArrayType :: enc))
      by reflexivity.
    rewrite index_app_head.
    rewrite bool_decide_eq_true_2 by reflexivity. reflexivity.
Qed.

(** [[[1], 2]] followed by the [EOF] byte comes back as [[[1, 2]]]. *)
Lemma nested_array_absorbs_siblings_witness :
  Forall (fun v => is_scalar v = true ∧ representable v = true) [OInt32 1] ∧
  Forall (fun v => is_scalar v = true ∧ representable v = true) [OInt32 2] ∧
  ∃ enc, MarshalObject (OArray (OArray [OInt32 1] :: [OInt32 2])) = Done enc ∧
         UnmarshalObject (enc ++ EOFType :: [])
         = Done (OArray [OArray ([OInt32 1] ++ [OInt32 2])], length enc).
Proof.
  split; [by repeat constructor|]. split; [by repeat constructor|].
  apply (nested_array_absorbs_siblings [OInt32 1] [OInt32 2] []);
    by repeat constructor.
Defined.

(** ** The lexer *)

Section lexer_facts.
Import lexer.

Lemma scan_while_bounds (p : byte → bool) (rest : list byte) :
  ∀ pos, pos ≤ scan_while p rest pos ≤ pos + length rest.
Proof.
  induction rest as [|c rest IH]; intros pos; simpl; [lia|].
  destruct (p c); [specialize (IH (S pos))|]; lia.
Qed.

Lemma scan_while_stops (p : byte → bool) (rest : list byte) :
  ∀ pos c, rest !! (scan_while p rest pos - pos) = Some c → p c = false.
Proof.
  induction rest as [|x rest IH]; intros pos c; simpl; [done|].
  destruct (p x) eqn:E.
  - pose proof (scan_while_bounds p rest (S pos)).
    replace (scan_while p rest (S pos) - pos)
      with (S (scan_while p rest (S pos) - S pos)) by lia.
    simpl. apply IH.
  - rewrite Nat.sub_diag. simpl. congruence.
Qed.

Lemma scan_while_app (p : byte → bool) (w rest : list byte) :
  forallb p w = true →
  (∀ c, head rest = Some c → p c = false) →
  ∀ pos, scan_while p (w ++ rest) pos = pos + length w.
Proof.
  intros Hw Hrest. induction w as [|x w IH]; intros pos; simpl.
  - destruct rest as [|c rest]; simpl; [lia|].
    rewrite (Hrest c) by reflexivity. lia.
  - simpl in Hw. apply andb_true_iff in Hw as [-> Hw].
    rewrite IH by exact Hw. lia.
Qed.

Lemma consumeWhitespace_spec (l : Lexer) :
  input (consumeWhitespace l) = input l ∧
  pos l ≤ pos (consumeWhitespace l) ∧
  (pos (consumeWhitespace l) ≤ length (input l) ∨ pos (consumeWhitespace l) = pos l) ∧
  ∀ c, input l !! pos (consumeWhitespace l) = Some c → isSpace c = false.
Proof.
  unfold consumeWhitespace. cbn [input pos set_pos].
  pose proof (scan_while_bounds isSpace (drop (pos l) (input l)) (pos l)) as Hb.
  rewrite length_drop in Hb.
  repeat split; [lia|lia|].
  intros c Hc. apply (scan_while_stops isSpace (drop (pos l) (input l)) (pos l)).
  rewrite lookup_drop. rewrite <- Hc. f_equal. lia.
Qed.

Lemma consumeWhitespace_fixed (l : Lexer) (c : byte) :
  input l !! pos l = Some c → isSpace c = false → consumeWhitespace l = l.
Proof.
  intros Hc Hs. unfold consumeWhitespace.
  rewrite (drop_S _ _ _ Hc). simpl. rewrite Hs. by destruct l.
Qed.

Lemma consumeWhitespace_at_end (l : Lexer) :
  length (input l) ≤ pos l → consumeWhitespace l = l.
Proof.
  intros H. unfold consumeWhitespace. rewrite drop_ge by exact H. by destruct l.
Qed.

Lemma consumeWhitespace_idem (l : Lexer) :
  consumeWhitespace (consumeWhitespace l) = consumeWhitespace l.
Proof.
  destruct (consumeWhitespace_spec l) as (Hi & _ & _ & Hs).
  destruct (input l !! pos (consumeWhitespace l)) as [c|] eqn:E.
  - apply (consumeWhitespace_fixed _ c); [by rewrite Hi|by apply Hs].
  - apply consumeWhitespace_at_end. rewrite Hi. by apply lookup_ge_None.
Qed.

Lemma NextToken_consumeWhitespace (l : Lexer) :
  NextToken (consumeWhitespace l) = NextToken l.
Proof. unfold NextToken. by rewrite consumeWhitespace_idem. Qed.

Lemma unescapeString_loop_app (s : list byte) :
  ∀ str, unescapeString_loop s str ≠ Panic →
  ∀ t, unescapeString_loop (s ++ t) str
       = r ← unescapeString_loop s str; unescapeString_loop t r.
Proof.
  induction s as [s IH] using (induction_ltof1 _ (@length byte)).
  unfold ltof in IH. intros str Hs t.
  destruct s as [|c [|e s]]; simpl in *.
  - reflexivity.
  - destruct (bool_decide (c = "\"%byte)); [done|reflexivity].
  - destruct (bool_decide (c = "\"%byte)).
    + apply IH; [simpl; lia|exact Hs].
    + apply (IH (e :: s)); [simpl; lia|exact Hs].
Qed.

(** When the loop of [consumeString] stops on the delimiter, every
    backslash it went over had a character after it. *)
Lemma consumeString_loop_found (delim : byte) (rest : list byte) :
  ∀ pos p, consumeString_loop delim rest pos = (p, true) →
    pos ≤ p < pos + length rest ∧
    ∀ str, unescapeString_loop (take (p - pos) rest) str ≠ Panic.
Proof.
  induction rest as [rest IH] using (induction_ltof1 _ (@length byte)).
  unfold ltof in IH. intros pos p H.
  destruct rest as [|c rest]; simpl in H; [done|].
  destruct (bool_decide (c = delim)).
  { injection H as <-. rewrite Nat.sub_diag. simpl. split; [lia|done]. }
  destruct (bool_decide (c = "\"%byte)) eqn:Ec.
  - destruct rest as [|e rest]; [done|].
    apply IH in H as [Hp Hu]; [|simpl; lia]. simpl. split; [lia|].
    intros str. replace (p - pos) with (S (S (p - (pos + 1 + 1)))) by lia.
    simpl. rewrite Ec. apply Hu.
  - apply IH in H as [Hp Hu]; [|simpl; lia]. simpl. split; [lia|].
    intros str. replace (p - pos) with (S (p - (pos + 1))) by lia.
    simpl. rewrite Ec. apply Hu.
Qed.

Lemma consumeString_loop_not_found (delim : byte) (rest : list byte) :
  ∀ pos p, consumeString_loop delim rest pos = (p, false) →
    pos + length rest ≤ p.
Proof.
  induction rest as [rest IH] using (induction_ltof1 _ (@length byte)).
  unfold ltof in IH. intros pos p H.
  destruct rest as [|c rest]; simpl in H; [injection H as <-; simpl; lia|].
  destruct (bool_decide (c = delim)); [done|].
  destruct (bool_decide (c = "\"%byte)).
  - destruct rest as [|e rest]; [injection H as <-; simpl; lia|].
    apply IH in H; simpl in *; lia.
  - apply IH in H; simpl in *; lia.
Qed.

Lemma substring_Ok (s : list byte) (lo hi : nat) :
  lo ≤ hi → hi ≤ length s →
  substring s lo hi = Ok (take (hi - lo) (drop lo s)).
Proof.
  intros H1 H2. unfold substring.
  apply Nat.leb_le in H1, H2. by rewrite H1, H2.
Qed.


Lemma scan_while_first (p : byte → bool) (s : list byte) (i : nat) (c : byte) :
  s !! i = Some c → p c = true →
  i < scan_while p (drop i s) i ≤ length s.
Proof.
  intros Hc Hp. rewrite (drop_S _ _ _ Hc). simpl. rewrite Hp.
  pose proof (scan_while_bounds p (drop (S i) s) (S i)) as Hb.
  rewrite length_drop in Hb. apply lookup_lt_Some in Hc. lia.
Qed.

Lemma consumeString_inv (l l' : Lexer) (delim : byte) (r : result Token) :
  consumeString l delim = (l', r) →
  pos l < length (input l) →
  input l' = input l ∧
  match r with
  | Ok t => Type_ t = TokenString ∧ Pos t = pos l + 1 ∧
            Pos t < pos l' ≤ length (input l)
  | Err m => m = Unterminated_string ∧ length (input l) ≤ pos l'
  | Panic => False
  end.
Proof.
  intros H Hlt. unfold consumeString in H. cbn [pos input set_pos] in H.
  destruct (consumeString_loop delim (drop (pos l + 1) (input l)) (pos l + 1))
    as [p [|]] eqn:Hloop.
  - apply consumeString_loop_found in Hloop as [Hp Hu].
    rewrite length_drop in Hp.
    rewrite substring_Ok in H by lia. cbn [mbind result_bind] in H.
    unfold unescapeString in H.
    destruct (unescapeString_loop _ []) as [value| |] eqn:Hv.
    + injection H as <- <-. cbn [pos input set_pos Type_ Pos]. repeat split; lia.
    + injection H as <- <-. exfalso.
      clear -Hv. revert Hv. generalize (@nil byte) as str.
      generalize (take (p - (pos l + 1)) (drop (pos l + 1) (input l))) as s.
      induction s as [s IH] using (induction_ltof1 _ (@length byte)).
      unfold ltof in IH. intros str Hs.
      destruct s as [|c [|e s]]; simpl in Hs; try done.
      * destruct (bool_decide (c = "\"%byte)); done.
      * destruct (bool_decide (c = "\"%byte)).
        -- eapply (IH s); [simpl; lia|exact Hs].
        -- eapply (IH (e :: s)); [simpl; lia|exact Hs].
    + by apply Hu in Hv.
  - apply consumeString_loop_not_found in Hloop. rewrite length_drop in Hloop.
    injection H as <- <-. cbn [pos input set_pos]. repeat split; lia.
Qed.

Lemma consumeNumber_inv (l l' : Lexer) (r : result Token) (c : byte) :
  consumeNumber l = (l', r) →
  input l !! pos l = Some c → isDigit c = true →
  input l' = input l ∧
  ∃ t, r = Ok t ∧ Type_ t = TokenNumber ∧ Pos t = pos l ∧
       pos l < pos l' ≤ length (input l).
Proof.
  intros H Hc Hd. unfold consumeNumber in H. cbn [pos input set_pos] in H.
  pose proof (scan_while_first (fun c => isDigit c) _ _ _ Hc Hd) as Hq.
  set (q := scan_while (fun c => isDigit c) (drop (pos l) (input l)) (pos l)) in *.
  destruct ((q <? length (input l)) && bool_decide (input l !! q = Some "."%byte))
    eqn:Hdot; cbn [pos input set_pos] in H.
  - apply andb_true_iff in Hdot as [Hq' _]. apply Nat.ltb_lt in Hq'.
    pose proof (scan_while_bounds (fun c => isDigit c)
                  (drop (q + 1) (input l)) (q + 1)) as Hb.
    rewrite length_drop in Hb.
    rewrite substring_Ok in H by lia.
    injection H as <- <-. cbn [pos input set_pos]. split; [done|].
    eexists. repeat split; cbn [Pos]; lia.
  - rewrite substring_Ok in H by lia.
    injection H as <- <-. cbn [pos input set_pos]. split; [done|].
    eexists. repeat split; cbn [Pos]; lia.
Qed.

Lemma consumeIdent_inv (l l' : Lexer) (r : result Token) (c : byte) :
  consumeIdent l = (l', r) →
  input l !! pos l = Some c → isIdentStart c = true →
  input l' = input l ∧
  ∃ t, r = Ok t ∧
       In (Type_ t) [TokenNull; TokenBool; TokenLet; TokenIdent] ∧
       Pos t = pos l ∧ pos l < pos l' ≤ length (input l).
Proof.
  intros H Hc Hd. unfold consumeIdent in H. cbn [pos input set_pos] in H.
  assert (Hi : isIdent c = true) by (unfold isIdent; by rewrite Hd).
  pose proof (scan_while_first isIdent _ _ _ Hc Hi) as Hq.
  set (q := scan_while isIdent (drop (pos l) (input l)) (pos l)) in *.
  rewrite substring_Ok in H by lia.
  repeat (case_match; simplify_eq); cbn [pos input set_pos];
    (split; [done|]); eexists; (split; [done|]); cbn [Pos Type_ In];
    (split; [tauto|lia]).
Qed.

Lemma consumeParam_inv (l l' : Lexer) (r : result Token) :
  consumeParam l = (l', r) →
  input l' = input l ∧
  match r with
  | Ok t => Type_ t = TokenParam ∧ Pos t = pos l + 1 ∧
            Pos t < pos l' ≤ length (input l)
  | Err m => m = Expected_identifier ∧ l' = l
  | Panic => False
  end.
Proof.
  intros H. unfold consumeParam in H.
  destruct (length (input l) <=? pos l + 1) eqn:Hlen.
  { injection H as <- <-. done. }
  apply Nat.leb_gt in Hlen. unfold char_at in H.
  destruct (input l !! (pos l + 1)) as [c|] eqn:Hc.
  2: { apply lookup_ge_None in Hc. lia. }
  destruct (isIdentStart c) eqn:Hs; cbn [negb] in H.
  2: { injection H as <- <-. done. }
  cbn [pos input set_pos] in H.
  assert (Hi : isIdent c = true) by (unfold isIdent; by rewrite Hs).
  pose proof (scan_while_first isIdent _ _ _ Hc Hi) as Hq.
  rewrite substring_Ok in H by lia.
  injection H as <- <-. cbn [pos input set_pos Pos Type_]. repeat split; lia.
Qed.

Lemma set_pos_same (l : Lexer) : set_pos l (pos l + 0) = l.
Proof. destruct l. unfold set_pos. simpl. by rewrite Nat.add_0_r. Qed.

Ltac on_char H c x :=
  let E := fresh "E" in
  destruct (bool_decide (c = x)) eqn:E; cbv beta iota in H;
  [apply bool_decide_eq_true in E; subst c|clear E].

Ltac one_token H :=
  unfold one, consumeToken in H; injection H as <- <-;
  cbn [input pos set_pos Type_ Pos Value length];
  split; [assumption|]; split; [lia|]; right;
  split; [cbv; tauto|lia].

Ltac peeked H Hc :=
  unfold on_peek, peek in H; rewrite Hc in H; cbv beta iota in H;
  case_bool_decide; simplify_eq.

Lemma NextToken_inv (l l' : Lexer) (r : result Token) :
  NextToken l = (l', r) →
  input l' = input l ∧
  match r with
  | Ok t =>
      pos (consumeWhitespace l) ≤ Pos t ∧
      ((Type_ t = TokenEOF ∧ length (input l) ≤ pos (consumeWhitespace l) ∧
        l' = consumeWhitespace l)
       ∨ (In (Type_ t) produced_types ∧
          pos (consumeWhitespace l) < length (input l) ∧
          Pos t < pos l' ≤ S (length (input l))))
  | Err m =>
      (m = Unterminated_string ∧ length (input l) ≤ pos l')
      ∨ (m ≠ Unterminated_string ∧ l' = consumeWhitespace l ∧
         pos l' < length (input l))
  | Panic => False
  end.
Proof.
  intros H. unfold NextToken in H.
  destruct (consumeWhitespace_spec l) as (Hi & Hle & _ & _).
  set (l0 := consumeWhitespace l) in *. clearbody l0.
  destruct (length (input l0) <=? pos l0) eqn:Hlen.
  { apply Nat.leb_le in Hlen. unfold one, consumeToken in H.
    injection H as <- <-. cbn [input pos set_pos Type_ Pos Value length].
    split; [assumption|]. split; [lia|]. left. rewrite set_pos_same.
    rewrite <- Hi. done. }
  apply Nat.leb_gt in Hlen.
  destruct (char_at (input l0) (pos l0)) as [c| |] eqn:Hc;
    unfold char_at in Hc; destruct (input l0 !! pos l0) as [c'|] eqn:Hc';
    simplify_eq.
  2: { apply lookup_ge_None in Hc'. lia. }
  assert (Hchar : char_at (input l0) (pos l0) = Ok c) by (unfold char_at; by rewrite Hc').
  rewrite Hi in Hlen. unfold NextToken_switch in H.
  on_char H c "("%byte. { one_token H. }
  on_char H c ")"%byte. { one_token H. }
  on_char H c "["%byte. { one_token H. }
  on_char H c "]"%byte. { one_token H. }
  on_char H c "{"%byte. { one_token H. }
  on_char H c "}"%byte. { one_token H. }
  on_char H c ","%byte. { one_token H. }
  on_char H c ":"%byte. { peeked H Hchar. one_token H. }
  on_char H c ";"%byte. { one_token H. }
  on_char H c "."%byte. { one_token H. }
  on_char H c "|"%byte. { peeked H Hchar. one_token H. }
  on_char H c "%"%byte. { one_token H. }
  on_char H c "+"%byte. { peeked H Hchar. one_token H. }
  on_char H c "-"%byte. { peeked H Hchar. one_token H. }
  on_char H c "*"%byte. { peeked H Hchar. one_token H. }
  on_char H c "/"%byte. { peeked H Hchar. one_token H. }
  on_char H c "!"%byte. { peeked H Hchar. one_token H. }
  on_char H c "="%byte. { peeked H Hchar. one_token H. }
  on_char H c "<"%byte. { peeked H Hchar. one_token H. }
  on_char H c ">"%byte. { peeked H Hchar. one_token H. }
  on_char H c "&"%byte. { peeked H Hchar. one_token H. }
  on_char H c x22.
  { apply consumeString_inv in H as [Hi' Hr]; [|rewrite Hi; lia]. rewrite Hi in Hi', Hr.
    split; [assumption|]. destruct r as [t|m|]; [|left; tauto|done].
    destruct Hr as (Ht & Hp & Hb). split; [lia|]. right.
    rewrite Ht. split; [cbv; tauto|lia]. }
  on_char H c "'"%byte.
  { apply consumeString_inv in H as [Hi' Hr]; [|rewrite Hi; lia]. rewrite Hi in Hi', Hr.
    split; [assumption|]. destruct r as [t|m|]; [|left; tauto|done].
    destruct Hr as (Ht & Hp & Hb). split; [lia|]. right.
    rewrite Ht. split; [cbv; tauto|lia]. }
  on_char H c "$"%byte.
  { apply consumeParam_inv in H as [Hi' Hr]. rewrite Hi in Hi', Hr.
    split; [assumption|]. destruct r as [t|m|]; [| |done].
    - destruct Hr as (Ht & Hp & Hb). split; [lia|]. right.
      rewrite Ht. split; [cbv; tauto|lia].
    - destruct Hr as [-> ->]. right. split; [discriminate|]. split; [done|lia]. }
  destruct (isDigit c) eqn:Hd.
  { eapply consumeNumber_inv in H as [Hi' (t & -> & Ht & Hp & Hb)]; [|eassumption..].
    rewrite Hi in Hi', Hb. split; [assumption|]. split; [lia|]. right.
    rewrite Ht. split; [cbv; tauto|lia]. }
  destruct (isIdentStart c) eqn:Hs.
  { eapply consumeIdent_inv in H as [Hi' (t & -> & Ht & Hp & Hb)]; [|eassumption..].
    rewrite Hi in Hi', Hb. split; [assumption|]. split; [lia|]. right.
    split; [|lia]. cbn [In] in Ht.
    destruct Ht as [<-|[<-|[<-|[<-|[]]]]]; cbv; tauto. }
  injection H as <- <-. split; [assumption|]. right.
  split; [|split; [done|lia]]. unfold Unexpected_character, Unterminated_string.
  simpl app. discriminate.
Qed.

Lemma NextToken_at (l : Lexer) (c : byte) :
  input l !! pos l = Some c → isSpace c = false →
  NextToken l = NextToken_switch l c.
Proof.
  intros Hc Hs. unfold NextToken.
  rewrite (consumeWhitespace_fixed l c Hc Hs).
  pose proof (lookup_lt_Some _ _ _ Hc) as Hlt.
  apply Nat.leb_gt in Hlt. rewrite Hlt. unfold char_at. by rewrite Hc.
Qed.

Lemma drop_head (s : list byte) (i : nat) (c : byte) (rest : list byte) :
  drop i s = c :: rest → s !! i = Some c.
Proof.
  intros H. rewrite <- (Nat.add_0_r i), <- lookup_drop, H. reflexivity.
Qed.

Lemma drop_split (s : list byte) (i : nat) (w rest : list byte) :
  drop i s = w ++ rest → drop (i + length w) s = rest.
Proof. intros H. by rewrite <- drop_drop, H, drop_app_length. Qed.

Lemma length_split (s : list byte) (i : nat) (w rest : list byte) :
  drop i s = w ++ rest → w ≠ [] →
  i + length w + length rest = length s.
Proof.
  intros H Hw. apply (f_equal length) in H.
  rewrite length_drop, length_app in H.
  destruct w; [done|]. simpl in *. lia.
Qed.

Lemma substring_split (s : list byte) (i : nat) (w rest : list byte) :
  drop i s = w ++ rest → w ≠ [] →
  substring s i (i + length w) = Ok w.
Proof.
  intros H Hw. pose proof (length_split _ _ _ _ H Hw).
  rewrite substring_Ok by lia.
  replace (i + length w - i) with (length w) by lia.
  by rewrite H, take_app_length.
Qed.

Lemma isIdentStart_not_space (c : byte) :
  isIdentStart c = true → isSpace c = false ∧ isDigit c = false.
Proof. destruct c; intros H; cbv in H; try discriminate H; split; reflexivity. Qed.

Lemma isDigit_not_space (c : byte) : isDigit c = true → isSpace c = false.
Proof. destruct c; intros H; cbv in H; try discriminate H; reflexivity. Qed.

Lemma NextToken_switch_ident (l : Lexer) (c : byte) :
  isIdentStart c = true → NextToken_switch l c = consumeIdent l.
Proof. destruct c; intros H; cbv in H; try discriminate H; reflexivity. Qed.

Lemma NextToken_switch_digit (l : Lexer) (c : byte) :
  isDigit c = true → NextToken_switch l c = consumeNumber l.
Proof. destruct c; intros H; cbv in H; try discriminate H; reflexivity. Qed.


(** X15. [NextToken] never panics, whatever the input and the position of
    the lexer: every index and slice it takes is in range, and the slice
    that [consumeString] hands to [unescapeString] never ends inside an
    escape. *)
Theorem NextToken_never_panics (l : Lexer) : (NextToken l).2 ≠ Panic.
Proof.
  destruct (NextToken l) as [l' r] eqn:H. apply NextToken_inv in H as [_ H].
  destruct r; [discriminate|discriminate|contradiction].
Qed.

Lemma unescapeString_loop_no_error (s : list byte) :
  ∀ str m, unescapeString_loop s str ≠ Err m.
Proof.
  induction s as [s IH] using (induction_ltof1 _ (@length byte)).
  unfold ltof in IH. intros str m.
  destruct s as [|c [|e s]]; simpl; [done| |].
  - destruct (bool_decide (c = "\"%byte)); done.
  - destruct (bool_decide (c = "\"%byte)).
    + apply IH. simpl. lia.
    + apply (IH (e :: s)). simpl. lia.
Qed.

(** X16. [unescapeString] on its own does panic: after any string it reads
    through, a lone backslash at the end makes it index one past the
    end. *)
Theorem unescapeString_lone_backslash (s : list byte) :
  unescapeString s ≠ Panic →
  unescapeString (s ++ ["\"]%byte) = Panic.
Proof.
  unfold unescapeString. intros H.
  rewrite unescapeString_loop_app by exact H.
  destruct (unescapeString_loop s []) as [r|m|] eqn:E; [reflexivity| |contradiction].
  by apply unescapeString_loop_no_error in E.
Qed.

Lemma unescapeString_lone_backslash_witness :
  unescapeString ["a"]%byte ≠ Panic ∧
  unescapeString (["a"]%byte ++ ["\"]%byte) = Panic.
Proof.
  split; [discriminate|].
  apply (unescapeString_lone_backslash ["a"]%byte). discriminate.
Defined.

(** X17. A token other than [EOF] moves the lexer forward over the same
    input: the position grows, by at most one past the end of the input,
    and the position recorded in the token lies in the part consumed. *)
Theorem NextToken_advances (l l' : Lexer) (t : Token) :
  NextToken l = (l', Ok t) → Type_ t ≠ TokenEOF →
  input l' = input l ∧ pos l < pos l' ∧ pos l ≤ Pos t < pos l' ∧
  pos l' ≤ S (length (input l)).
Proof.
  intros H Ht. apply NextToken_inv in H as (Hi & Hp & [(He & _)|(_ & Hlt & Hb)]);
    [contradiction|].
  destruct (consumeWhitespace_spec l) as (_ & Hle & _).
  split; [exact Hi|]. lia.
Qed.

(** [let x]: the keyword is read from position 0 to position 3. *)
Lemma NextToken_advances_witness :
  NextToken lexer_let_x
  = (set_pos lexer_let_x 3, Ok (NewToken TokenLet ["l"; "e"; "t"]%byte 0)) ∧
  Type_ (NewToken TokenLet ["l"; "e"; "t"]%byte 0) ≠ TokenEOF ∧
  input (set_pos lexer_let_x 3) = input lexer_let_x ∧
  pos lexer_let_x < pos (set_pos lexer_let_x 3) ∧
  pos lexer_let_x ≤ Pos (NewToken TokenLet ["l"; "e"; "t"]%byte 0)
    < pos (set_pos lexer_let_x 3) ∧
  pos (set_pos lexer_let_x 3) ≤ S (length (input lexer_let_x)).
Proof.
  split; [reflexivity|]. split; [discriminate|].
  apply (NextToken_advances lexer_let_x (set_pos lexer_let_x 3)
           (NewToken TokenLet ["l"; "e"; "t"]%byte 0));
    [reflexivity | discriminate].
Defined.

Lemma scan_while_all (p : byte → bool) (rest : list byte) :
  ∀ pos, pos + length rest ≤ scan_while p rest pos → forallb p rest = true.
Proof.
  induction rest as [|c rest IH]; intros pos H; [reflexivity|]. simpl in *.
  destruct (p c); [|lia]. apply (IH (S pos)). lia.
Qed.

(** X18. [NextToken] returns the [EOF] token exactly when only blanks, tabs
    and line ends are left; the lexer it leaves returns the same token on
    every further call. *)
Theorem EOF_iff_only_whitespace_left (l : Lexer) :
  (∃ l' t, NextToken l = (l', Ok t) ∧ Type_ t = TokenEOF ∧
           NextToken l' = (l', Ok t))
  ↔ forallb isSpace (drop (pos l) (input l)) = true.
Proof.
  split.
  - intros (l' & t & H & Ht & _).
    apply NextToken_inv in H as (_ & _ & [(_ & Hlen & _)|(Hin & _)]).
    + apply (scan_while_all isSpace _ (pos l)). rewrite length_drop.
      unfold consumeWhitespace in Hlen. cbn [pos set_pos] in Hlen.
      pose proof (scan_while_bounds isSpace (drop (pos l) (input l)) (pos l)).
      lia.
    + rewrite Ht in Hin. cbv in Hin. intuition discriminate.
  - intros Hall.
    assert (Hend : length (input l) ≤ pos (consumeWhitespace l)).
    { unfold consumeWhitespace. cbn [pos set_pos].
      rewrite <- (app_nil_r (drop (pos l) (input l))).
      rewrite scan_while_app by (exact Hall || done).
      rewrite length_drop. lia. }
    destruct (consumeWhitespace_spec l) as (Hi & _).
    exists (consumeWhitespace l), (NewToken TokenEOF [] (pos (consumeWhitespace l))).
    assert (Hnext : ∀ l0, length (input l0) ≤ pos (consumeWhitespace l0) →
              NextToken l0 = (consumeWhitespace l0,
                              Ok (NewToken TokenEOF [] (pos (consumeWhitespace l0))))).
    { intros l0 H0. unfold NextToken.
      destruct (consumeWhitespace_spec l0) as (Hi0 & _).
      apply Nat.leb_le in H0. rewrite Hi0, H0. unfold one, consumeToken.
      cbn [length]. by rewrite set_pos_same. }
    split; [by apply Hnext|]. split; [reflexivity|].
    rewrite <- (consumeWhitespace_idem l) at 2 3.
    apply Hnext. rewrite consumeWhitespace_idem, Hi. exact Hend.
Qed.

(** X19. Ten of the token types are never returned.  [peek] reads the byte
    at the position, not the one after it, so the single forms [Colon],
    [Pipe], [Plus], [Minus], [Asterisk] and [Slash] and the joined forms
    [NotEqual], [LessThanEqual] and [GreaterThanEqual] cannot be reached;
    [TokenError] is not used. *)
Theorem token_types_never_returned (l l' : Lexer) (t : Token) :
  NextToken l = (l', Ok t) →
  ¬ In (Type_ t)
      [TokenError; TokenColon; TokenPipe; TokenPlus; TokenMinus;
       TokenAsterisk; TokenSlash; TokenNotEqual; TokenLessThanEqual;
       TokenGreaterThanEqual].
Proof.
  intros H Hin. apply NextToken_inv in H as (_ & _ & [(He & _)|(Hp & _)]).
  - rewrite He in Hin. cbv in Hin. intuition discriminate.
  - unfold produced_types in Hp. cbn [In] in Hp, Hin.
    repeat (destruct Hp as [Hp|Hp];
            [rewrite <- Hp in Hin; cbv in Hin; intuition discriminate|]).
    exact Hp.
Qed.

(** [:b] gives a [DoubleColon]. *)
Lemma token_types_never_returned_witness :
  NextToken lexer_colon_b
  = (set_pos lexer_colon_b 2, Ok (NewToken TokenDoubleColon [":"; ":"]%byte 0)) ∧
  ¬ In (Type_ (NewToken TokenDoubleColon [":"; ":"]%byte 0))
      [TokenError; TokenColon; TokenPipe; TokenPlus; TokenMinus;
       TokenAsterisk; TokenSlash; TokenNotEqual; TokenLessThanEqual;
       TokenGreaterThanEqual].
Proof.
  split; [reflexivity|].
  apply (token_types_never_returned lexer_colon_b (set_pos lexer_colon_b 2)
           (NewToken TokenDoubleColon [":"; ":"]%byte 0)).
  reflexivity.
Defined.

(** X20. The operators that have a doubled form always come out doubled:
    at [:], [|], [+], [-], [*], [/], [=] or [&] the token holds the byte
    twice and the lexer steps over two bytes, whatever the second one
    is. *)
Theorem doubled_operator_swallows_next_byte (l : Lexer) (c : byte) (typ : nat) :
  In (c, typ)
     [(":"%byte, TokenDoubleColon); ("|"%byte, TokenOr); ("+"%byte, TokenInc);
      ("-"%byte, TokenDec); ("*"%byte, TokenDoubleAsterisk);
      ("/"%byte, TokenDoubleSlash); ("="%byte, TokenEqual);
      ("&"%byte, TokenAnd)] →
  input l !! pos l = Some c →
  NextToken l = (set_pos l (pos l + 2), Ok (NewToken typ [c; c] (pos l))).
Proof.
  intros Hin Hc. cbn [In] in Hin.
  assert (Hsw : NextToken l = NextToken_switch l c).
  { apply NextToken_at; [exact Hc|].
    repeat (destruct Hin as [Hin|Hin]; [by injection Hin as <- <-|]). destruct Hin. }
  rewrite Hsw. unfold NextToken_switch, on_peek, peek, char_at. rewrite Hc.
  repeat (destruct Hin as [Hin|Hin]; [injection Hin as <- <-; reflexivity|]).
  destruct Hin.
Qed.

(** [:b]: the token is [::] and the [b] is stepped over. *)
Lemma doubled_operator_swallows_next_byte_witness :
  In (":"%byte, TokenDoubleColon)
     [(":"%byte, TokenDoubleColon); ("|"%byte, TokenOr); ("+"%byte, TokenInc);
      ("-"%byte, TokenDec); ("*"%byte, TokenDoubleAsterisk);
      ("/"%byte, TokenDoubleSlash); ("="%byte, TokenEqual);
      ("&"%byte, TokenAnd)] ∧
  input lexer_colon_b !! pos lexer_colon_b = Some ":"%byte ∧
  NextToken lexer_colon_b
  = (set_pos lexer_colon_b (pos lexer_colon_b + 2),
     Ok (NewToken TokenDoubleColon [":"; ":"]%byte (pos lexer_colon_b))).
Proof.
  split; [left; reflexivity|]. split; [reflexivity|].
  apply (doubled_operator_swallows_next_byte lexer_colon_b ":"%byte TokenDoubleColon);
    [left; reflexivity | reflexivity].
Defined.

(** X21. [!], [<] and [>] always come out alone, also in front of [=]: the
    token holds the one byte and the lexer steps over one byte. *)
Theorem comparison_never_joins_equal (l : Lexer) (c : byte) (typ : nat) :
  In (c, typ)
     [("!"%byte, TokenBang); ("<"%byte, TokenLessThan);
      (">"%byte, TokenGreaterThan)] →
  input l !! pos l = Some c →
  NextToken l = (set_pos l (pos l + 1), Ok (NewToken typ [c] (pos l))).
Proof.
  intros Hin Hc. cbn [In] in Hin.
  assert (Hsw : NextToken l = NextToken_switch l c).
  { apply NextToken_at; [exact Hc|].
    repeat (destruct Hin as [Hin|Hin]; [by injection Hin as <- <-|]). destruct Hin. }
  rewrite Hsw. unfold NextToken_switch, on_peek, peek, char_at. rewrite Hc.
  repeat (destruct Hin as [Hin|Hin]; [injection Hin as <- <-; reflexivity|]).
  destruct Hin.
Qed.

(** [<=] gives [<], and [=] is left for the next token. *)
Lemma comparison_never_joins_equal_witness :
  In ("<"%byte, TokenLessThan)
     [("!"%byte, TokenBang); ("<"%byte, TokenLessThan);
      (">"%byte, TokenGreaterThan)] ∧
  input lexer_less_equal !! pos lexer_less_equal = Some "<"%byte ∧
  NextToken lexer_less_equal
  = (set_pos lexer_less_equal (pos lexer_less_equal + 1),
     Ok (NewToken TokenLessThan ["<"]%byte (pos lexer_less_equal))).
Proof.
  split; [right; left; reflexivity|]. split; [reflexivity|].
  apply (comparison_never_joins_equal lexer_less_equal "<"%byte TokenLessThan);
    [right; left; reflexivity | reflexivity].
Defined.

(** X22. An identifier is read as far as letters, digits and underscores
    go; the token starts at the position of the lexer, and only the whole
    word is compared with [null], [true], [false] and [let]. *)
Theorem identifier_longest_match (l : Lexer) (c : byte) (w rest : list byte) :
  drop (pos l) (input l) = (c :: w) ++ rest →
  isIdentStart c = true →
  forallb isIdent w = true →
  (∀ x, head rest = Some x → isIdent x = false) →
  NextToken l
  = (set_pos l (pos l + length (c :: w)),
     Ok (NewToken
           (if bool_decide (c :: w = ["n"; "u"; "l"; "l"]%byte) then TokenNull
            else if bool_decide (c :: w = ["t"; "r"; "u"; "e"]%byte)
                    || bool_decide (c :: w = ["f"; "a"; "l"; "s"; "e"]%byte)
            then TokenBool
            else if bool_decide (c :: w = ["l"; "e"; "t"]%byte) then TokenLet
            else TokenIdent)
           (c :: w) (pos l))).
Proof.
  intros Hd Hc Hw Hrest.
  destruct (isIdentStart_not_space c Hc) as [Hsp _].
  rewrite (NextToken_at l c) by (eauto using drop_head).
  rewrite NextToken_switch_ident by exact Hc.
  unfold consumeIdent. cbn [pos input set_pos]. rewrite Hd.
  rewrite scan_while_app; [|cbn [forallb]; unfold isIdent at 1; by rewrite Hc, Hw|exact Hrest].
  rewrite (substring_split _ _ _ _ Hd) by done.
  destruct (bool_decide (c :: w = ["n"; "u"; "l"; "l"]%byte)); [reflexivity|].
  destruct (bool_decide (c :: w = ["t"; "r"; "u"; "e"]%byte)
            || bool_decide (c :: w = ["f"; "a"; "l"; "s"; "e"]%byte)); [reflexivity|].
  destruct (bool_decide (c :: w = ["l"; "e"; "t"]%byte)); reflexivity.
Qed.

(** [let x]: the word [let]. *)
Lemma identifier_longest_match_witness :
  drop (pos lexer_let_x) (input lexer_let_x)
  = ("l"%byte :: ["e"; "t"]%byte) ++ [" "; "x"]%byte ∧
  isIdentStart "l" = true ∧
  forallb isIdent ["e"; "t"]%byte = true ∧
  NextToken lexer_let_x
  = (set_pos lexer_let_x 3, Ok (NewToken TokenLet ["l"; "e"; "t"]%byte 0)).
Proof.
  split; [reflexivity|]. split; [reflexivity|]. split; [reflexivity|].
  apply (identifier_longest_match lexer_let_x "l"%byte ["e"; "t"]%byte
           [" "; "x"]%byte);
    [reflexivity | reflexivity | reflexivity |].
  intros x Hx. injection Hx as <-. reflexivity.
Defined.

(** X23. A number takes the dot that follows its digits and the digits
    after it, if any: a dot with no digit behind it is part of the number,
    and a second dot is not. *)
Theorem number_takes_one_dot (l : Lexer) (d : byte) (ds fs rest : list byte) :
  drop (pos l) (input l) = (d :: ds) ++ "."%byte :: fs ++ rest →
  forallb isDigit (d :: ds) = true →
  forallb isDigit fs = true →
  (∀ x, head rest = Some x → isDigit x = false) →
  NextToken l
  = (set_pos l (pos l + length (d :: ds) + 1 + length fs),
     Ok (NewToken TokenNumber ((d :: ds) ++ "."%byte :: fs) (pos l))).
Proof.
  intros Hd Hds Hfs Hrest.
  assert (Hdig : isDigit d = true) by (cbn [forallb] in Hds; by apply andb_true_iff in Hds as [? _]).
  rewrite (NextToken_at l d) by (eauto using drop_head, isDigit_not_space).
  rewrite NextToken_switch_digit by exact Hdig.
  unfold consumeNumber. cbn [pos input set_pos]. rewrite Hd.
  rewrite scan_while_app; [|exact Hds|by intros x [= <-]].
  pose proof (drop_split _ _ _ _ Hd) as Hdot.
  pose proof (length_split _ _ _ _ Hd ltac:(done)) as Hlen.
  cbn [length] in Hlen. rewrite length_app in Hlen.
  rewrite (drop_head _ _ _ _ Hdot).
  rewrite bool_decide_eq_true_2 by reflexivity.
  replace (pos l + length (d :: ds) <? length (input l)) with true
    by (symmetry; apply Nat.ltb_lt; cbn [length]; lia).
  cbn [andb pos input set_pos].
  assert (Hfr : drop (pos l + length (d :: ds) + 1) (input l) = fs ++ rest).
  { apply (drop_split _ _ ["."%byte]). exact Hdot. }
  rewrite Hfr, scan_while_app by assumption.
  assert (Hall : drop (pos l) (input l) = ((d :: ds) ++ "."%byte :: fs) ++ rest).
  { rewrite Hd, <- app_assoc. reflexivity. }
  pose proof (substring_split _ _ _ _ Hall ltac:(done)) as Hsub.
  replace (pos l + length (d :: ds) + 1 + length fs)
    with (pos l + length ((d :: ds) ++ "."%byte :: fs))
    by (rewrite length_app; cbn [length]; lia).
  rewrite Hsub. reflexivity.
Qed.

(** [1.2.3]: the number [1.2], then the second dot. *)
Lemma number_takes_one_dot_witness :
  drop (pos lexer_1_2_3) (input lexer_1_2_3)
  = ("1"%byte :: []) ++ "."%byte :: ["2"]%byte ++ ["."; "3"]%byte ∧
  forallb isDigit ["1"]%byte = true ∧
  forallb isDigit ["2"]%byte = true ∧
  NextToken lexer_1_2_3
  = (set_pos lexer_1_2_3 3, Ok (NewToken TokenNumber ["1"; "."; "2"]%byte 0)).
Proof.
  split; [reflexivity|]. split; [reflexivity|]. split; [reflexivity|].
  apply (number_takes_one_dot lexer_1_2_3 "1"%byte [] ["2"]%byte ["."; "3"]%byte);
    [reflexivity | reflexivity | reflexivity |].
  intros x Hx. injection Hx as <-. reflexivity.
Defined.

Lemma substring_split_le (s : list byte) (i : nat) (w rest : list byte) :
  drop i s = w ++ rest → i ≤ length s →
  substring s i (i + length w) = Ok w.
Proof.
  intros H Hi. pose proof (f_equal length H) as Hl.
  rewrite length_drop, length_app in Hl.
  rewrite substring_Ok by lia.
  replace (i + length w - i) with (length w) by lia.
  by rewrite H, take_app_length.
Qed.

Lemma consumeString_loop_plain (delim : byte) (s rest : list byte) :
  Forall (fun c => c ≠ delim ∧ c ≠ "\"%byte) s →
  ∀ p, consumeString_loop delim (s ++ delim :: rest) p = (p + length s, true).
Proof.
  induction 1 as [|c s [Hd Hb] _ IH]; intros p; simpl.
  - rewrite bool_decide_eq_true_2 by reflexivity. f_equal. lia.
  - rewrite !bool_decide_eq_false_2 by assumption. rewrite IH. f_equal. lia.
Qed.

Lemma unescapeString_loop_plain (s : list byte) :
  Forall (fun c => c ≠ "\"%byte) s →
  ∀ str, unescapeString_loop s str = Ok (str ++ concat (map string_of_byte s)).
Proof.
  induction 1 as [|c s Hb _ IH]; intros str; simpl.
  - by rewrite app_nil_r.
  - rewrite bool_decide_eq_false_2 by assumption. rewrite IH.
    by rewrite <- app_assoc.
Qed.

(** X24. A string literal without backslash, in either kind of quotes: the
    token is positioned after the opening quote and holds, for every byte
    between the quotes, the UTF-8 form of the code point of that byte, so
    the text comes back unchanged when it is ASCII; the lexer stops after
    the closing quote. *)
Theorem string_literal_without_escapes
    (l : Lexer) (delim : byte) (s rest : list byte) :
  delim = x22 ∨ delim = "'"%byte →
  drop (pos l) (input l) = [delim] ++ s ++ delim :: rest →
  Forall (fun c => c ≠ delim ∧ c ≠ "\"%byte) s →
  NextToken l
  = (set_pos l (pos l + 1 + length s + 1),
     Ok (NewToken TokenString (concat (map string_of_byte s)) (pos l + 1)))
  ∧ (Forall (fun c => (Z_of_byte c < 128)%Z) s →
     concat (map string_of_byte s) = s).
Proof.
  intros Hdelim Hd Hs. split.
  - assert (Hsw : NextToken l = consumeString l delim).
    { rewrite (NextToken_at l delim).
      - destruct Hdelim as [-> | ->]; reflexivity.
      - eapply drop_head. exact Hd.
      - destruct Hdelim as [-> | ->]; reflexivity. }
    rewrite Hsw. unfold consumeString. cbn [pos input set_pos].
    pose proof (drop_split _ _ _ _ Hd) as Hd1. cbn [length] in Hd1.
    rewrite Hd1, consumeString_loop_plain by exact Hs.
    cbn [pos input set_pos].
    pose proof (length_split _ _ _ _ Hd ltac:(done)) as Hlen. cbn [length] in Hlen.
    rewrite (substring_split_le _ _ s (delim :: rest) Hd1) by lia.
    cbn [mbind result_bind]. unfold unescapeString.
    rewrite unescapeString_loop_plain.
    2: { eapply Forall_impl; [exact Hs|]. by intros c [_ ?]. }
    reflexivity.
  - clear. induction 1 as [|c s Hc _ IH]; [reflexivity|]. simpl.
    unfold string_of_byte at 1. apply Z.ltb_lt in Hc. rewrite Hc. simpl.
    by rewrite IH.
Qed.

(** ['ab']. *)
Lemma string_literal_without_escapes_witness :
  ("'"%byte = x22 ∨ "'"%byte = "'"%byte) ∧
  drop (pos lexer_quoted_ab) (input lexer_quoted_ab)
  = ["'"%byte] ++ ["a"; "b"]%byte ++ "'"%byte :: [] ∧
  Forall (fun c => c ≠ "'"%byte ∧ c ≠ "\"%byte) ["a"; "b"]%byte ∧
  NextToken lexer_quoted_ab
  = (set_pos lexer_quoted_ab 4, Ok (NewToken TokenString ["a"; "b"]%byte 1)).
Proof.
  split; [right; reflexivity|]. split; [reflexivity|].
  split; [by repeat constructor|].
  apply (string_literal_without_escapes lexer_quoted_ab "'"%byte ["a"; "b"]%byte []);
    [right; reflexivity | reflexivity | by repeat constructor].
Defined.

(** X25. A parameter: after [$] and an identifier the token holds the name
    without the [$], is positioned after it, and is [Param] also when the
    name is a keyword. *)
Theorem parameter_token (l : Lexer) (c : byte) (w rest : list byte) :
  drop (pos l) (input l) = ["$"%byte] ++ (c :: w) ++ rest →
  isIdentStart c = true →
  forallb isIdent w = true →
  (∀ x, head rest = Some x → isIdent x = false) →
  NextToken l
  = (set_pos l (pos l + 1 + length (c :: w)),
     Ok (NewToken TokenParam (c :: w) (pos l + 1))).
Proof.
  intros Hd Hc Hw Hrest.
  rewrite (NextToken_at l "$"%byte); [|eapply drop_head; exact Hd|reflexivity].
  change (NextToken_switch l "$") with (consumeParam l).
  pose proof (drop_split _ _ _ _ Hd) as Hd1. cbn [length] in Hd1.
  pose proof (length_split _ _ _ _ Hd ltac:(done)) as Hlen.
  rewrite length_app in Hlen. cbn [length] in Hlen.
  unfold consumeParam.
  replace (length (input l) <=? pos l + 1) with false
    by (symmetry; apply Nat.leb_gt; lia).
  unfold char_at. rewrite (drop_head _ _ _ _ Hd1), Hc. cbn [negb pos input set_pos].
  rewrite Hd1.
  rewrite scan_while_app; [|cbn [forallb]; unfold isIdent at 1; by rewrite Hc, Hw|exact Hrest].
  rewrite (substring_split _ _ _ _ Hd1) by done. reflexivity.
Qed.

(** [$a)]. *)
Lemma parameter_token_witness :
  drop (pos lexer_param_a) (input lexer_param_a)
  = ["$"%byte] ++ ("a"%byte :: []) ++ [")"]%byte ∧
  isIdentStart "a" = true ∧
  forallb isIdent [] = true ∧
  NextToken lexer_param_a
  = (set_pos lexer_param_a 2, Ok (NewToken TokenParam ["a"]%byte 1)).
Proof.
  split; [reflexivity|]. split; [reflexivity|]. split; [reflexivity|].
  apply (parameter_token lexer_param_a "a"%byte [] [")"]%byte);
    [reflexivity | reflexivity | reflexivity |].
  intros x Hx. injection Hx as <-. reflexivity.
Defined.

(** X26. After an error the lexer cannot go on.  An unterminated string has
    taken the rest of the input, so the next token is [EOF]; any other
    error leaves the lexer in front of the offending byte, and every
    further call returns the same error. *)
Theorem after_an_error (l l' : Lexer) (m : list byte) :
  NextToken l = (l', Err m) →
  (m = Unterminated_string ∧
   ∃ t, NextToken l' = (l', Ok t) ∧ Type_ t = TokenEOF)
  ∨ (m ≠ Unterminated_string ∧ NextToken l' = (l', Err m)).
Proof.
  intros H. pose proof H as H0.
  apply NextToken_inv in H as (Hi & [(-> & Hlen)|(Hm & -> & _)]).
  - left. split; [reflexivity|]. rewrite <- Hi in Hlen.
    exists (NewToken TokenEOF [] (pos l')). split; [|reflexivity].
    unfold NextToken. rewrite (consumeWhitespace_at_end l' Hlen).
    apply Nat.leb_le in Hlen. rewrite Hlen. unfold one, consumeToken.
    cbn [length]. by rewrite set_pos_same.
  - right. split; [exact Hm|]. by rewrite NextToken_consumeWhitespace.
Qed.

(** [#] is no token: the error comes back on every call. *)
Lemma after_an_error_witness :
  NextToken lexer_hash = (lexer_hash, Err (Unexpected_character ++ ["#"]%byte)) ∧
  ((Unexpected_character ++ ["#"]%byte = Unterminated_string ∧
    ∃ t, NextToken lexer_hash = (lexer_hash, Ok t) ∧ Type_ t = TokenEOF)
   ∨ (Unexpected_character ++ ["#"]%byte ≠ Unterminated_string ∧
      NextToken lexer_hash
      = (lexer_hash, Err (Unexpected_character ++ ["#"]%byte)))).
Proof.
  split; [reflexivity|].
  apply (after_an_error lexer_hash lexer_hash (Unexpected_character ++ ["#"]%byte)).
  reflexivity.
Defined.

Lemma main_loop_enough (fuel : nat) :
  ∀ (l : Lexer) (printed : list (list byte)),
    length (input l) - pos l < fuel →
    ∃ out r, main_loop fuel l printed = Some (printed ++ out, r) ∧
             r ≠ Panic ∧ length out ≤ length (input l) - pos l.
Proof.
  induction fuel as [|fuel IH]; intros l printed Hf; [lia|].
  cbn [main_loop]. destruct (NextToken l) as [l' [t|m|]] eqn:H.
  - pose proof (NextToken_inv _ _ _ H) as (Hi & Hp & Hcase).
    destruct (consumeWhitespace_spec l) as (_ & Hle & _).
    destruct (Type_ t =? TokenEOF) eqn:Ht.
    + exists [], (Ok ()). rewrite app_nil_r. repeat split; [done|simpl; lia].
    + destruct Hcase as [(He & _)|(_ & Hlt & Hb)].
      { rewrite He in Ht. discriminate. }
      destruct (IH l' (printed ++ [Token_String t ++ [":"; " "]%byte ++ Value t]))
        as (out & r & Hrun & Hr & Hlen); [rewrite Hi; lia|].
      exists ((Token_String t ++ [":"; " "]%byte ++ Value t) :: out), r.
      rewrite Hrun, <- app_assoc. repeat split; [exact Hr|].
      rewrite Hi in Hlen. simpl. lia.
  - exists [], (Err m). rewrite app_nil_r. repeat split; [done|simpl; lia].
  - by apply NextToken_inv in H as [_ Hn].
Qed.

(** X27. The loop of [main] ends on every input: within one more round
    than the input has bytes it reaches [EOF] or stops on an error of
    [NextToken], never on a run-time panic, having printed at most one
    line per byte. *)
Theorem main_loop_terminates (s : list byte) :
  ∃ out r, main_loop (S (length s)) (NewLexer s) [] = Some (out, r) ∧
           r ≠ Panic ∧ length out ≤ length s.
Proof.
  destruct (main_loop_enough (S (length s)) (NewLexer s) [])
    as (out & r & Hrun & Hr & Hlen); [simpl; lia|].
  exists out, r. simpl in Hlen. rewrite Hrun. repeat split; [exact Hr|lia].
Qed.

End lexer_facts.

(** ** The lock registry *)

Section lock_registry.
Import storage_lock.

(** X28. The registry records keys, it does not make a caller wait for
    one: with the mutex free, [Lock] on a key that is already locked
    returns at once, and a single [Unlock] then releases the key, however
    often it was locked. *)
Theorem Lock_does_not_wait_for_the_key (l : Lock) (key : list byte) :
  mu l = false →
  ∃ l1 l2 l3,
    Lock_Lock l key = Returns l1 ∧ Lock_IsLocked l1 key = Returns (l1, true) ∧
    Lock_Lock l1 key = Returns l2 ∧ Lock_IsLocked l2 key = Returns (l2, true) ∧
    Lock_Unlock l2 key = Returns l3 ∧ Lock_IsLocked l3 key = Returns (l3, false).
Proof.
  intros Hmu. destruct l as [m ls]. simpl in Hmu. subst m.
  exists (mkLock false (<[key := true]> ls)),
         (mkLock false (<[key := true]> (<[key := true]> ls))),
         (mkLock false (delete key (<[key := true]> (<[key := true]> ls)))).
  unfold Lock_Lock, Lock_Unlock, Lock_IsLocked, mu_Lock, mu_Unlock.
  cbn [mu locks mbind run_bind].
  rewrite !lookup_insert_eq, lookup_delete_eq. cbn [default]. done.
Qed.

(** A new registry and the key ["a"]. *)
Lemma Lock_does_not_wait_for_the_key_witness :
  mu NewLocks = false ∧
  ∃ l1 l2 l3,
    Lock_Lock NewLocks [x61] = Returns l1 ∧
    Lock_IsLocked l1 [x61] = Returns (l1, true) ∧
    Lock_Lock l1 [x61] = Returns l2 ∧
    Lock_IsLocked l2 [x61] = Returns (l2, true) ∧
    Lock_Unlock l2 [x61] = Returns l3 ∧
    Lock_IsLocked l3 [x61] = Returns (l3, false).
Proof.
  split; [reflexivity|].
  apply (Lock_does_not_wait_for_the_key NewLocks [x61]). reflexivity.
Defined.

(** X29. With the mutex free, [Lock], [Unlock] and [IsLocked] return and
    leave the mutex free; [IsLocked] changes nothing, and [Lock] and
    [Unlock] of one key leave what [IsLocked] says of any other key. *)
Theorem Lock_methods_frame (l : Lock) (key other : list byte) :
  mu l = false → other ≠ key →
  ∃ l1 l2 b,
    Lock_Lock l key = Returns l1 ∧ Lock_Unlock l key = Returns l2 ∧
    Lock_IsLocked l key = Returns (l, b) ∧
    mu l1 = false ∧ mu l2 = false ∧
    Lock_IsLocked l1 other = Returns (l1, default false (locks l !! other)) ∧
    Lock_IsLocked l2 other = Returns (l2, default false (locks l !! other)).
Proof.
  intros Hmu Hne. destruct l as [m ls]. simpl in Hmu. subst m.
  exists (mkLock false (<[key := true]> ls)), (mkLock false (delete key ls)),
         (default false (ls !! key)).
  unfold Lock_Lock, Lock_Unlock, Lock_IsLocked, mu_Lock, mu_Unlock.
  cbn [mu locks mbind run_bind].
  rewrite lookup_insert_ne, lookup_delete_ne by done. done.
Qed.

(** A new registry, the keys ["a"] and ["b"]. *)
Lemma Lock_methods_frame_witness :
  mu NewLocks = false ∧ [x62] ≠ [x61] ∧
  ∃ l1 l2 b,
    Lock_Lock NewLocks [x61] = Returns l1 ∧
    Lock_Unlock NewLocks [x61] = Returns l2 ∧
    Lock_IsLocked NewLocks [x61] = Returns (NewLocks, b) ∧
    mu l1 = false ∧ mu l2 = false ∧
    Lock_IsLocked l1 [x62]
    = Returns (l1, default false (locks NewLocks !! [x62])) ∧
    Lock_IsLocked l2 [x62]
    = Returns (l2, default false (locks NewLocks !! [x62])).
Proof.
  split; [reflexivity|]. split; [discriminate|].
  apply (Lock_methods_frame NewLocks [x61] [x62]); [reflexivity | discriminate].
Defined.

End lock_registry.
